(** * Parsing and aggregation core of the finance analysis tool

    A shallow embedding of [src/utils/parse.ts], [src/utils/aggregate.ts] and
    of [convertToTransactionData] from [src/services/openai.ts] and from
    [api/services/financial-analyzer.ts], with the properties of the
    written specification stated over it.

    Conventions of the embedding:
    - a JavaScript string is the list of its UTF-16 code units ([jsstring]);
    - a JavaScript number holding a count of centavos is an exact integer
      ([Z]); quotients that the code computes in floating point
      ([percentual], the month-over-month growth) are exact rationals ([Q]);
    - the sums of the source are sums of doubles, exact up to [2 ^ 53]:
      module [Num] holds the aggregation with the rounding of the host,
      for the properties that compare sums added in different orders, and
      [aggregateTransactions_exact] relates the two;
    - the functions of the host that depend on Unicode tables, on the locale
      or on the clock are the fields of the class [Host];
    - [Array.prototype.sort] is a stable sort, and it sorts the array it is
      called on: the result of the call and the array are the same object. *)

From Stdlib Require Import String Ascii.
From Stdlib Require Import List ZArith NArith QArith Lia Bool.
From Stdlib Require Import Permutation Sorted Qround Qabs.
Import ListNotations.

Local Open Scope Z_scope.

(* ================================================================= *)
(** ** Strings of the host *)

Definition jsstring : Type := list N.

(** An ASCII literal as a JavaScript string. *)
Definition js (s : string) : jsstring := map N_of_ascii (list_ascii_of_string s).

Definition ch (a : ascii) : N := N_of_ascii a.

Fixpoint String_eqb (a b : jsstring) : bool :=
  match a, b with
  | [], [] => true
  | x :: a', y :: b' => N.eqb x y && String_eqb a' b'
  | _, _ => false
  end.

Definition isEmpty (s : jsstring) : bool :=
  match s with [] => true | _ => false end.

(** [\d] of a regular expression without the [u] flag: the ASCII digits. *)
Definition isDigit (c : N) : bool := (N.leb 48 c && N.leb c 57)%N.

Definition isLowerAZ (c : N) : bool := (N.leb 97 c && N.leb c 122)%N.

(** [\s] of a regular expression, which is also what [trim] strips:
    WhiteSpace and LineTerminator of ECMAScript. *)
Definition isWhiteSpace (c : N) : bool :=
  ((N.leb 9 c && N.leb c 13) || N.eqb c 32 || N.eqb c 160 || N.eqb c 5760
   || (N.leb 8192 c && N.leb c 8202) || N.eqb c 8232 || N.eqb c 8233
   || N.eqb c 8239 || N.eqb c 8287 || N.eqb c 12288 || N.eqb c 65279)%N.

Fixpoint trimStart (s : jsstring) : jsstring :=
  match s with
  | [] => []
  | c :: r => if isWhiteSpace c then trimStart r else s
  end.

Definition trimEnd (s : jsstring) : jsstring := rev (trimStart (rev s)).

Definition trim (s : jsstring) : jsstring := trimEnd (trimStart s).

Fixpoint startsWith (p s : jsstring) : bool :=
  match p, s with
  | [], _ => true
  | x :: p', y :: s' => N.eqb x y && startsWith p' s'
  | _ :: _, [] => false
  end.

Definition endsWith (p s : jsstring) : bool := startsWith (rev p) (rev s).

Fixpoint includes (sub s : jsstring) : bool :=
  startsWith sub s ||
  match s with
  | [] => false
  | _ :: r => includes sub r
  end.

(** [s.split(sep)] for a separator given as a class of single code units
    (a one-character string, or a regular expression such as [/[>\/:]/]). *)
Fixpoint splitOn (sep : N -> bool) (s : jsstring) : list jsstring :=
  match s with
  | [] => [[]]
  | c :: r =>
      if sep c then [] :: splitOn sep r
      else match splitOn sep r with
           | p :: ps => (c :: p) :: ps
           | [] => [[c]]
           end
  end.

Definition split (sep : N) (s : jsstring) : list jsstring := splitOn (N.eqb sep) s.

(** [parts.join(sep)] *)
Fixpoint join (sep : jsstring) (parts : list jsstring) : jsstring :=
  match parts with
  | [] => []
  | [p] => p
  | p :: ps => p ++ sep ++ join sep ps
  end.

(** [s.replace(/c/g, '')] for a single code unit [c]. *)
Definition removeAll (c : N) (s : jsstring) : jsstring :=
  filter (fun x => negb (N.eqb x c)) s.

(** [s.replace(c, '')] with a string pattern: the first occurrence only. *)
Fixpoint removeFirst (c : N) (s : jsstring) : jsstring :=
  match s with
  | [] => []
  | x :: r => if N.eqb x c then r else x :: removeFirst c r
  end.

Definition padEnd (n : nat) (c : N) (s : jsstring) : jsstring :=
  s ++ repeat c (n - length s).

Definition padStart (n : nat) (c : N) (s : jsstring) : jsstring :=
  repeat c (n - length s) ++ s.

(** [s.substring(0, n)] *)
Definition substring0 (n : nat) (s : jsstring) : jsstring := firstn n s.

(** [s.slice(1, -1)] *)
Definition slice_1_m1 (s : jsstring) : jsstring := removelast (tl s).

(** *** parseInt

    [parseInt(s)] with no radix: leading white space is skipped, a sign is
    read, a [0x] prefix selects radix 16, and the longest run of digits is
    converted; [None] is NaN. *)

Definition decDigit (c : N) : option Z :=
  if isDigit c then Some (Z.of_N c - 48) else None.

Definition hexDigit (c : N) : option Z :=
  if isDigit c then Some (Z.of_N c - 48)
  else if (N.leb 97 c && N.leb c 102)%N then Some (Z.of_N c - 87)
  else if (N.leb 65 c && N.leb c 70)%N then Some (Z.of_N c - 55)
  else None.

Fixpoint parseDigits (digit : N -> option Z) (radix : Z) (acc : option Z)
    (s : jsstring) : option Z :=
  match s with
  | [] => acc
  | c :: r =>
      match digit c with
      | Some d =>
          parseDigits digit radix
            (Some (match acc with Some a => a * radix + d | None => d end)) r
      | None => acc
      end
  end.

Definition parseInt (s : jsstring) : option Z :=
  let s1 := trimStart s in
  let '(neg, s2) :=
    match s1 with
    | c :: r =>
        if N.eqb c (ch "-") then (true, r)
        else if N.eqb c (ch "+") then (false, r)
        else (false, s1)
    | [] => (false, [])
    end in
  let mag :=
    match s2 with
    | z :: x :: r =>
        if N.eqb z (ch "0") && (N.eqb x (ch "x") || N.eqb x (ch "X"))
        then parseDigits hexDigit 16 None r
        else parseDigits decDigit 10 None s2
    | _ => parseDigits decDigit 10 None s2
    end in
  match mag with
  | Some m => Some (if neg then - m else m)
  | None => None
  end.

(** [parseInt(s) || 0] *)
Definition orZero (o : option Z) : Z :=
  match o with Some z => z | None => 0 end.

(* ================================================================= *)
(** ** Array.prototype.sort

    A stable sort by a comparator: [a] stays before [b] when
    [cmp a b <= 0]. *)

Section Sort.
Context {A : Type}.
Variable cmp : A -> A -> Z.

Fixpoint insertBy (x : A) (l : list A) : list A :=
  match l with
  | [] => [x]
  | y :: r => if cmp x y <=? 0 then x :: l else y :: insertBy x r
  end.

Fixpoint sortBy (l : list A) : list A :=
  match l with
  | [] => []
  | x :: r => insertBy x (sortBy r)
  end.

(** [arr.sort(cmp)] sorts [arr] itself and returns it: the first component
    is the content of [arr] after the call, the second the value of the
    call, which is the same array. *)
Definition sort_in_place (arr : list A) : list A * list A :=
  let sorted := sortBy arr in (sorted, sorted).
End Sort.

(* ================================================================= *)
(** ** The host: Unicode tables, collation, clock *)

Class Host : Type := {
  (** [String.prototype.toLowerCase] *)
  toLowerCase : jsstring -> jsstring;
  (** [String.prototype.normalize('NFD')] *)
  normalizeNFD : jsstring -> jsstring;
  (** [String.prototype.localeCompare] *)
  localeCompare : jsstring -> jsstring -> Z;
  (** [new Date().toISOString()] *)
  nowISO : jsstring
}.

(* ================================================================= *)
(** ** src/utils/parse.ts *)

(** [.replace(/R\$?/g, '')] *)
Fixpoint removeCurrency (s : jsstring) : jsstring :=
  match s with
  | [] => []
  | c :: r =>
      if N.eqb c (ch "R") then
        match r with
        | d :: r' => if N.eqb d (ch "$") then removeCurrency r' else removeCurrency r
        | [] => []
        end
      else c :: removeCurrency r
  end.

(** The characters kept by [.replace(/[^\d,.-]/g, '')]. *)
Definition isValorChar (c : N) : bool :=
  isDigit c || N.eqb c (ch ",") || N.eqb c (ch ".") || N.eqb c (ch "-").

(** [parseValorBrasileiro] on a string argument.  (The branch for an
    argument of type number, [Math.round(valor * 100)], is floating point
    and is not part of the embedding.) *)
Definition parseValorBrasileiro (valor : jsstring) : Z :=
  if isEmpty valor then 0 else
  let valorLimpo := trim valor in
  let isNegativeParentheses :=
    startsWith (js "(") valorLimpo && endsWith (js ")") valorLimpo in
  let valorLimpo :=
    if isNegativeParentheses then slice_1_m1 valorLimpo else valorLimpo in
  let valorLimpo := trim (filter isValorChar (removeCurrency valorLimpo)) in
  let isNegative := startsWith (js "-") valorLimpo || isNegativeParentheses in
  let valorLimpo :=
    if isNegative then removeFirst (ch "-") valorLimpo else valorLimpo in
  let '(parteInteira, centavos) :=
    if includes (js ",") valorLimpo then
      match split (ch ",") valorLimpo with
      | [p0; p1] =>
          if (length p1 <=? 2)%nat
          then (removeAll (ch ".") p0, substring0 2 (padEnd 2 (ch "0") p1))
          else ([], [])
      | _ => ([], [])
      end
    else if includes (js ".") valorLimpo then
      match split (ch ".") valorLimpo with
      | [p0; p1] =>
          if (length p1 <=? 2)%nat
          then (removeAll (ch ",") p0, substring0 2 (padEnd 2 (ch "0") p1))
          else (removeAll (ch ".") valorLimpo, js "00")
      | _ => (removeAll (ch ".") valorLimpo, js "00")
      end
    else (valorLimpo, js "00") in
  let parteInteiraNum := orZero (parseInt parteInteira) in
  let centavosNum := orZero (parseInt centavos) in
  let valorEmCentavos := parteInteiraNum * 100 + centavosNum in
  if isNegative then - valorEmCentavos else valorEmCentavos.


(** *** Dates *)

(** [new Date().toISOString().split('T')[0]] *)
Definition todayISO `{Host} : jsstring := hd [] (split (ch "T") nowISO).

(** [/^\d{4}-\d{2}-\d{2}$/.test(s)] *)
Definition isISODate (s : jsstring) : bool :=
  match s with
  | [y1; y2; y3; y4; h1; m1; m2; h2; d1; d2] =>
      isDigit y1 && isDigit y2 && isDigit y3 && isDigit y4
      && N.eqb h1 (ch "-") && isDigit m1 && isDigit m2
      && N.eqb h2 (ch "-") && isDigit d1 && isDigit d2
  | _ => false
  end.

(** The longest prefix of digits, and what follows it. *)
Fixpoint spanDigits (s : jsstring) : jsstring * jsstring :=
  match s with
  | [] => ([], [])
  | c :: r =>
      if isDigit c then let '(g, rest) := spanDigits r in (c :: g, rest)
      else ([], s)
  end.

Definition lengthIn (lo hi : nat) (s : jsstring) : bool :=
  (lo <=? length s)%nat && (length s <=? hi)%nat.

(** [s.match(/^(\d{1,2})\/(\d{1,2})\/(\d{ylo,yhi})$/)]: the three groups.
    Each group is followed by a character that is not a digit (or by the
    end), so a group can only be a whole run of digits. *)
Definition matchDate (ylo yhi : nat) (s : jsstring)
    : option (jsstring * jsstring * jsstring) :=
  let '(g1, r1) := spanDigits s in
  if negb (lengthIn 1 2 g1) then None else
  match r1 with
  | c1 :: r2 =>
      if negb (N.eqb c1 (ch "/")) then None else
      let '(g2, r3) := spanDigits r2 in
      if negb (lengthIn 1 2 g2) then None else
      match r3 with
      | c2 :: r4 =>
          if negb (N.eqb c2 (ch "/")) then None else
          let '(g3, r5) := spanDigits r4 in
          if lengthIn ylo yhi g3 && isEmpty r5 then Some (g1, g2, g3) else None
      | [] => None
      end
  | [] => None
  end.

Definition parseDateBrasileira `{Host} (data : jsstring) : jsstring :=
  if isEmpty data then todayISO else
  let dataLimpa := trim data in
  if isISODate dataLimpa then dataLimpa else
  match matchDate 2 4 dataLimpa with
  | Some (dia, mes, ano) =>
      let ano :=
        if (length ano =? 2)%nat then
          let anoNum := parseInt ano in
          if match anoNum with Some n => n <? 50 | None => false end
          then js "20" ++ ano else js "19" ++ ano
        else ano in
      ano ++ js "-" ++ padStart 2 (ch "0") mes ++ js "-" ++ padStart 2 (ch "0") dia
  | None =>
      match matchDate 4 4 dataLimpa with
      | Some (mes, dia, ano) =>
          ano ++ js "-" ++ padStart 2 (ch "0") mes ++ js "-" ++ padStart 2 (ch "0") dia
      | None => todayISO
      end
  end.

(** *** Categories *)

(** [/[\u0300-\u036f]/]: the combining diacritical marks. *)
Definition isCombiningMark (c : N) : bool := (N.leb 768 c && N.leb c 879)%N.

(** The characters kept by [.replace(/[^a-z0-9\s]/g, '')]. *)
Definition isCategoriaChar (c : N) : bool :=
  isLowerAZ c || isDigit c || isWhiteSpace c.

(** [.replace(/\s+/g, ' ')]: one space for each run of white space (the
    space is written when the last character of the run is reached). *)
Fixpoint collapseSpaces (s : jsstring) : jsstring :=
  match s with
  | [] => []
  | c :: r =>
      if isWhiteSpace c then
        match r with
        | d :: _ => if isWhiteSpace d then collapseSpaces r
                    else ch " " :: collapseSpaces r
        | [] => [ch " "]
        end
      else c :: collapseSpaces r
  end.

(** The chain of string operations of [normalizeCategoria], after its guard. *)
Definition normalizeChain `{Host} (categoria : jsstring) : jsstring :=
  trim
    (collapseSpaces
       (filter isCategoriaChar
          (filter (fun c => negb (isCombiningMark c))
             (normalizeNFD (toLowerCase (trim categoria)))))).

Definition normalizeCategoria `{Host} (categoria : jsstring) : jsstring :=
  if isEmpty categoria then js "outros" else normalizeChain categoria.

(** The separators of [/[>\/:]/]. *)
Definition isPathSeparator (c : N) : bool :=
  N.eqb c (ch ">") || N.eqb c (ch "/") || N.eqb c (ch ":").

Definition parseCategoriaPath `{Host} (categoria : jsstring) : list jsstring :=
  if isEmpty categoria then [js "outros"] else
  let partes :=
    filter (fun parte => (0 <? length parte)%nat)
      (map normalizeCategoria (splitOn isPathSeparator categoria)) in
  if (0 <? length partes)%nat then partes else [js "outros"].

(* ================================================================= *)
(** ** src/types/financial.ts *)

(** ['Entrada' | 'Saída'] *)
Inductive Tipo : Type := Entrada | Saida.

(** [TransactionData]; the fields carry the prefix [t_]. *)
Record TransactionData : Type := {
  t_id : Z;
  t_tipo : Tipo;
  t_valorCentavos : Z;
  t_categoria : jsstring;
  t_categoriaPath : list jsstring;
  t_empresa : jsstring;
  t_descricao : jsstring;
  t_data : jsstring
}.

Definition isEntrada (t : TransactionData) : bool :=
  match t_tipo t with Entrada => true | Saida => false end.

Definition isSaida (t : TransactionData) : bool :=
  match t_tipo t with Entrada => false | Saida => true end.

(* ================================================================= *)
(** ** A Map of the host

    A [Map] with string keys keeps its entries in the order in which the
    keys were first set; [set] on a key already present replaces the value
    where it stands. *)

Section JSMap.
Context {V : Type}.

Fixpoint map_get (k : jsstring) (m : list (jsstring * V)) : option V :=
  match m with
  | [] => None
  | (k', v) :: r => if String_eqb k k' then Some v else map_get k r
  end.

Fixpoint map_set (k : jsstring) (v : V) (m : list (jsstring * V))
    : list (jsstring * V) :=
  match m with
  | [] => [(k, v)]
  | (k', v') :: r =>
      if String_eqb k k' then (k, v) :: r else (k', v') :: map_set k v r
  end.
End JSMap.

(* ================================================================= *)
(** ** src/utils/aggregate.ts *)

(** ['entrada' | 'saida'], the [tipo] of a category aggregate. *)
Inductive TipoCategoria : Type := entrada | saida.

(** [CategoryAggregate]; the fields carry the prefix [c_]. *)
Record CategoryAggregate : Type := {
  c_categoria : jsstring;
  c_categoriaPath : list jsstring;
  c_totalCentavos : Z;
  c_tipo : TipoCategoria;
  c_transactionCount : Z;
  c_percentual : Q
}.

(** [MonthlyAggregate]; the fields carry the prefix [m_]. *)
Record MonthlyAggregate : Type := {
  m_mes : jsstring;
  m_entradasCentavos : Z;
  m_saidasCentavos : Z;
  m_saldoCentavos : Z;
  m_transactionCount : Z
}.

(** [AggregationResult]; the fields carry the prefix [r_]. *)
Record AggregationResult : Type := {
  r_totalEntradasCentavos : Z;
  r_totalSaidasCentavos : Z;
  r_saldoCentavos : Z;
  r_categorias : list CategoryAggregate;
  r_meses : list MonthlyAggregate;
  r_topCategorias : list CategoryAggregate;
  r_mesMaisCaro : jsstring
}.

(** The value type of [categoryMap]; the fields carry the prefix [a_]. *)
Record CategoryAcc : Type := {
  a_entrada : Z;
  a_saida : Z;
  a_categoriaPath : list jsstring;
  a_transactionCount : Z
}.

(** The value type of [monthMap]; the fields carry the prefix [ma_]. *)
Record MonthAcc : Type := {
  ma_entradas : Z;
  ma_saidas : Z;
  ma_count : Z
}.

(** [(a, b) => b.totalCentavos - a.totalCentavos] *)
Definition byTotalDesc (a b : CategoryAggregate) : Z :=
  c_totalCentavos b - c_totalCentavos a.

(** [(a, b) => b.saidasCentavos - a.saidasCentavos] *)
Definition bySaidasDesc (a b : MonthlyAggregate) : Z :=
  m_saidasCentavos b - m_saidasCentavos a.

(** [(part / total) * 100] when [total > 0], and [0] otherwise. *)
Definition percentualOf (part total : Z) : Q :=
  if 0 <? total then ((inject_Z part / inject_Z total) * 100)%Q else 0%Q.

(** The body of the loop over the levels of one transaction's path:
    the step for index [i]. *)
Definition addLevel (transaction : TransactionData)
    (categoryMap : list (jsstring * CategoryAcc)) (i : nat)
    : list (jsstring * CategoryAcc) :=
  let path := t_categoriaPath transaction in
  let categoryKey := join (js " > ") (firstn (i + 1) path) in
  let existing :=
    match map_get categoryKey categoryMap with
    | Some e => e
    | None => {| a_entrada := 0; a_saida := 0;
                 a_categoriaPath := firstn (i + 1) path;
                 a_transactionCount := 0 |}
    end in
  let existing :=
    match t_tipo transaction with
    | Entrada =>
        {| a_entrada := a_entrada existing + t_valorCentavos transaction;
           a_saida := a_saida existing;
           a_categoriaPath := a_categoriaPath existing;
           a_transactionCount := a_transactionCount existing |}
    | Saida =>
        {| a_entrada := a_entrada existing;
           a_saida := a_saida existing + t_valorCentavos transaction;
           a_categoriaPath := a_categoriaPath existing;
           a_transactionCount := a_transactionCount existing |}
    end in
  let existing :=
    {| a_entrada := a_entrada existing;
       a_saida := a_saida existing;
       a_categoriaPath := a_categoriaPath existing;
       a_transactionCount := a_transactionCount existing + 1 |} in
  map_set categoryKey existing categoryMap.

(** One iteration of [transactions.forEach]: [for (i = 0; i < path.length; i++)]. *)
Definition addTransaction (categoryMap : list (jsstring * CategoryAcc))
    (transaction : TransactionData) : list (jsstring * CategoryAcc) :=
  fold_left (addLevel transaction)
    (seq 0 (length (t_categoriaPath transaction))) categoryMap.

Definition buildCategoryMap (transactions : list TransactionData)
    : list (jsstring * CategoryAcc) :=
  fold_left addTransaction transactions [].

(** What [categoryMap.forEach] pushes for one entry of the map. *)
Definition emitCategory (totalEntradas totalSaidas : Z)
    (entry : jsstring * CategoryAcc) : list CategoryAggregate :=
  let '(categoryKey, values) := entry in
  (if 0 <? a_entrada values then
     [{| c_categoria := categoryKey;
         c_categoriaPath := a_categoriaPath values;
         c_totalCentavos := a_entrada values;
         c_tipo := entrada;
         c_transactionCount := a_transactionCount values;
         c_percentual := percentualOf (a_entrada values) totalEntradas |}]
   else [])
  ++
  (if 0 <? a_saida values then
     [{| c_categoria := categoryKey;
         c_categoriaPath := a_categoriaPath values;
         c_totalCentavos := a_saida values;
         c_tipo := saida;
         c_transactionCount := a_transactionCount values;
         c_percentual := percentualOf (a_saida values) totalSaidas |}]
   else []).

Definition aggregateByCategory (transactions : list TransactionData)
    (totalEntradas totalSaidas : Z) : list CategoryAggregate :=
  let categoryMap := buildCategoryMap transactions in
  let result := flat_map (emitCategory totalEntradas totalSaidas) categoryMap in
  sortBy byTotalDesc result.

(** One iteration of [transactions.forEach] in [aggregateByMonth]. *)
Definition addToMonth (monthMap : list (jsstring * MonthAcc))
    (transaction : TransactionData) : list (jsstring * MonthAcc) :=
  let mes := substring0 7 (t_data transaction) in
  let existing :=
    match map_get mes monthMap with
    | Some e => e
    | None => {| ma_entradas := 0; ma_saidas := 0; ma_count := 0 |}
    end in
  let existing :=
    match t_tipo transaction with
    | Entrada =>
        {| ma_entradas := ma_entradas existing + t_valorCentavos transaction;
           ma_saidas := ma_saidas existing;
           ma_count := ma_count existing |}
    | Saida =>
        {| ma_entradas := ma_entradas existing;
           ma_saidas := ma_saidas existing + t_valorCentavos transaction;
           ma_count := ma_count existing |}
    end in
  let existing :=
    {| ma_entradas := ma_entradas existing;
       ma_saidas := ma_saidas existing;
       ma_count := ma_count existing + 1 |} in
  map_set mes existing monthMap.

Definition toMonthlyAggregate (entry : jsstring * MonthAcc) : MonthlyAggregate :=
  let '(mes, data) := entry in
  {| m_mes := mes;
     m_entradasCentavos := ma_entradas data;
     m_saidasCentavos := ma_saidas data;
     m_saldoCentavos := ma_entradas data - ma_saidas data;
     m_transactionCount := ma_count data |}.

Definition aggregateByMonth `{Host} (transactions : list TransactionData)
    : list MonthlyAggregate :=
  let monthMap := fold_left addToMonth transactions [] in
  sortBy (fun a b => localeCompare (m_mes a) (m_mes b))
    (map toMonthlyAggregate monthMap).

Definition isSaidaCategoria (cat : CategoryAggregate) : bool :=
  match c_tipo cat with saida => true | entrada => false end.

Definition aggregateTransactions `{Host} (transactions : list TransactionData)
    : AggregationResult :=
  let totalEntradasCentavos :=
    fold_left (fun sum t => sum + t_valorCentavos t)
      (filter isEntrada transactions) 0 in
  let totalSaidasCentavos :=
    fold_left (fun sum t => sum + t_valorCentavos t)
      (filter isSaida transactions) 0 in
  let saldoCentavos := totalEntradasCentavos - totalSaidasCentavos in
  let categorias :=
    aggregateByCategory transactions totalEntradasCentavos totalSaidasCentavos in
  let meses := aggregateByMonth transactions in
  (* [filter] allocates a new array: sorting it leaves [categorias] alone *)
  let topCategorias :=
    firstn 5 (sortBy byTotalDesc (filter isSaidaCategoria categorias)) in
  (* [meses.sort(...)] is called on [meses] itself: from here on [meses]
     is the array as this call leaves it *)
  let '(meses, mesMaisCaro) :=
    if (0 <? length meses)%nat then
      let '(meses, sorted) := sort_in_place bySaidasDesc meses in
      (meses, match sorted with m :: _ => m_mes m | [] => [] end)
    else (meses, substring0 7 nowISO) in
  {| r_totalEntradasCentavos := totalEntradasCentavos;
     r_totalSaidasCentavos := totalSaidasCentavos;
     r_saldoCentavos := saldoCentavos;
     r_categorias := categorias;
     r_meses := meses;
     r_topCategorias := topCategorias;
     r_mesMaisCaro := mesMaisCaro |}.

(** *** Recommendations *)

(** The [tipo] of a [Recommendation]. *)
Inductive RecTipo : Type := otimizacao | oportunidade | alerta.

(** [Recommendation], with its [tipo] and [titulo]; [descricao] and
    [impacto] are display text built with [toFixed] and [toLocaleString]
    and are left out. *)
Record Recommendation : Type := {
  rec_tipo : RecTipo;
  rec_titulo : jsstring
}.

(** A number that a division can produce. *)
Inductive JSNumber : Type :=
  | NaN
  | PosInfinity
  | NegInfinity
  | Finite (q : Q).

(** [((ultimo - penultimo) / penultimo) * 100] *)
Definition crescimento (ultimo penultimo : Z) : JSNumber :=
  if penultimo =? 0 then
    if 0 <? ultimo - penultimo then PosInfinity
    else if ultimo - penultimo <? 0 then NegInfinity
    else NaN
  else Finite ((inject_Z (ultimo - penultimo) / inject_Z penultimo) * 100)%Q.

(** [x > k] *)
Definition numGt (x : JSNumber) (k : Q) : bool :=
  match x with
  | NaN => false
  | PosInfinity => true
  | NegInfinity => false
  | Finite q => negb (Qle_bool q k)
  end.

(** [x < k] *)
Definition numLt (x : JSNumber) (k : Q) : bool :=
  match x with
  | NaN => false
  | PosInfinity => false
  | NegInfinity => true
  | Finite q => negb (Qle_bool k q)
  end.

Definition tituloGastosElevados (categoria : jsstring) : jsstring :=
  js "Gastos Elevados em " ++ categoria.
Definition tituloControle : jsstring := js "Excelente Controle Financeiro".
(** ['Atenção ao Saldo Negativo'] *)
Definition tituloSaldoNegativo : jsstring :=
  js "Aten" ++ [231; 227]%N ++ js "o ao Saldo Negativo".
Definition tituloCrescimento : jsstring := js "Crescimento de Gastos".
(** ['Redução de Gastos'] *)
Definition tituloReducao : jsstring :=
  js "Redu" ++ [231; 227]%N ++ js "o de Gastos".

(** The third rule of [generateRecommendations]: the monthly trend. *)
Definition tendenciaMensal (meses : list MonthlyAggregate) : list Recommendation :=
  if (2 <=? length meses)%nat then
    match nth_error meses (length meses - 1), nth_error meses (length meses - 2) with
    | Some ultimoMes, Some penultimoMes =>
        let crescimentoGastos :=
          crescimento (m_saidasCentavos ultimoMes) (m_saidasCentavos penultimoMes) in
        if numGt crescimentoGastos 15 then
          [{| rec_tipo := alerta; rec_titulo := tituloCrescimento |}]
        else if numLt crescimentoGastos (-10) then
          [{| rec_tipo := oportunidade; rec_titulo := tituloReducao |}]
        else []
    | _, _ => []
    end
  else [].

Definition generateRecommendations (aggregation : AggregationResult)
    : list Recommendation :=
  let recomendacoes : list Recommendation := [] in
  (* 1. the category with the largest outflow *)
  let recomendacoes :=
    match r_topCategorias aggregation with
    | maiorGasto :: _ =>
        if negb (Qle_bool (c_percentual maiorGasto) 40) then
          recomendacoes ++
          [{| rec_tipo := otimizacao;
              rec_titulo := tituloGastosElevados (c_categoria maiorGasto) |}]
        else recomendacoes
    | [] => recomendacoes
    end in
  (* 2. the balance *)
  let recomendacoes :=
    if 0 <? r_saldoCentavos aggregation then
      recomendacoes ++ [{| rec_tipo := oportunidade; rec_titulo := tituloControle |}]
    else
      recomendacoes ++ [{| rec_tipo := alerta; rec_titulo := tituloSaldoNegativo |}] in
  (* 3. the monthly trend *)
  let recomendacoes := recomendacoes ++ tendenciaMensal (r_meses aggregation) in
  firstn 3 recomendacoes.

(* ================================================================= *)
(** ** src/services/openai.ts *)

(** One element of [BatchClassificationResult['transactions']]; the fields
    carry the prefix [raw_].  A field that the classifier left out behaves
    as the empty string in every use below ([x || d], [parse...(x)]). *)
Record RawTransaction : Type := {
  raw_id : Z;
  raw_tipo : Tipo;
  raw_valorOriginal : jsstring;
  raw_categoria : jsstring;
  raw_empresa : jsstring;
  raw_descricao : jsstring;
  raw_data : jsstring
}.

(** [s || d] on strings *)
Definition orDefault (s d : jsstring) : jsstring :=
  if isEmpty s then d else s.

(** The marker of a payment of the card bill. *)
Definition marcadorFatura : jsstring := js "pagamentos validos normais".

(** The negation of the predicate given to [filter]: the record is a
    payment of the bill. *)
Definition isPagamentoFatura `{Host} (raw : RawTransaction) : bool :=
  let empresa := toLowerCase (orDefault (raw_empresa raw) []) in
  let descricao := toLowerCase (orDefault (raw_descricao raw) []) in
  negb (negb (includes marcadorFatura empresa)
        && negb (includes marcadorFatura descricao)).

(** ['Não informado'] *)
Definition naoInformado : jsstring := js "N" ++ [227]%N ++ js "o informado".
(** ['Sem descrição'] *)
Definition semDescricao : jsstring := js "Sem descri" ++ [231; 227]%N ++ js "o".

(** The function given to [map]. *)
Definition toTransactionData `{Host} (raw : RawTransaction) : TransactionData :=
  let valorCentavos := parseValorBrasileiro (raw_valorOriginal raw) in
  let tipo := if valorCentavos <? 0 then Entrada else Saida in
  let data := parseDateBrasileira (raw_data raw) in
  let categoriaPath := parseCategoriaPath (raw_categoria raw) in
  {| t_id := raw_id raw;
     t_tipo := tipo;
     t_valorCentavos := Z.abs valorCentavos;
     t_categoria := raw_categoria raw;
     t_categoriaPath := categoriaPath;
     t_empresa := orDefault (raw_empresa raw) naoInformado;
     t_descricao := orDefault (raw_descricao raw) semDescricao;
     t_data := data |}.

Definition convertToTransactionData `{Host} (rawTransactions : list RawTransaction)
    : list TransactionData :=
  map toTransactionData
    (filter (fun raw => negb (isPagamentoFatura raw)) rawTransactions).

(* ================================================================= *)
(** ** A host for evaluation

    An instance of [Host] on which the functions can be run: lower case and
    canonical decomposition are those of Unicode for the code units below
    U+0100 and leave the others as they are; collation is the order of the
    code units, which is the order of every collation on month keys
    [YYYY-MM] (digits at the same positions); the clock is fixed. *)

Definition lowerLatin1 (c : N) : N :=
  if (N.leb 65 c && N.leb c 90)%N then (c + 32)%N
  else if (N.leb 192 c && N.leb c 222 && negb (N.eqb c 215))%N then (c + 32)%N
  else c.

(** Base letter (as a capital) and combining mark of the accented letter at
    offset [o] of the rows U+00C0 and U+00E0. *)
Definition decompositionAt (o : N) : option (N * N) :=
  match o with
  | 0 => Some (65, 768) | 1 => Some (65, 769) | 2 => Some (65, 770)
  | 3 => Some (65, 771) | 4 => Some (65, 776) | 5 => Some (65, 778)
  | 7 => Some (67, 807)
  | 8 => Some (69, 768) | 9 => Some (69, 769) | 10 => Some (69, 770)
  | 11 => Some (69, 776)
  | 12 => Some (73, 768) | 13 => Some (73, 769) | 14 => Some (73, 770)
  | 15 => Some (73, 776)
  | 17 => Some (78, 771)
  | 18 => Some (79, 768) | 19 => Some (79, 769) | 20 => Some (79, 770)
  | 21 => Some (79, 771) | 22 => Some (79, 776)
  | 25 => Some (85, 768) | 26 => Some (85, 769) | 27 => Some (85, 770)
  | 28 => Some (85, 776)
  | 29 => Some (89, 769)
  | _ => None
  end%N.

Definition nfdLatin1 (c : N) : jsstring :=
  if (N.leb 192 c && N.leb c 223)%N then
    match decompositionAt (c - 192) with
    | Some (b, m) => [b; m]
    | None => [c]
    end
  else if (N.leb 224 c && N.leb c 254)%N then
    match decompositionAt (c - 224) with
    | Some (b, m) => [(b + 32)%N; m]
    | None => [c]
    end
  else if N.eqb c 255 then [121; 776]%N
  else [c].

Fixpoint compareCodeUnits (a b : jsstring) : Z :=
  match a, b with
  | [], [] => 0
  | [], _ :: _ => -1
  | _ :: _, [] => 1
  | x :: a', y :: b' =>
      if N.ltb x y then -1 else if N.ltb y x then 1 else compareCodeUnits a' b'
  end.

Definition hostLatin1 : Host := {|
  toLowerCase := map lowerLatin1;
  normalizeNFD := flat_map nfdLatin1;
  localeCompare := compareCodeUnits;
  nowISO := js "2024-06-15T12:00:00.000Z"
|}.

(** The examples of [testesParseFunctions] for categories, on this host. *)
Definition alimentacaoRaw : jsstring := js "Alimenta" ++ [231; 227]%N ++ js "o".


(* ================================================================= *)
(** ** Vocabulary of the properties *)

(** A segment without the character [>] of the separator of the keys. *)
Definition noSeparator (segment : jsstring) : bool :=
  forallb (fun c => negb (N.eqb c (ch ">"))) segment.

(** The invariants of a transaction in the data model: the amount is not
    negative, the path has at least one segment, and no segment contains
    the character [>] (a normalized segment is made of [a-z], [0-9] and
    spaces). *)
Definition isWellFormed (t : TransactionData) : bool :=
  (0 <=? t_valorCentavos t)
  && (0 <? length (t_categoriaPath t))%nat
  && forallb noSeparator (t_categoriaPath t).

Definition sameTipo (a b : TipoCategoria) : bool :=
  match a, b with
  | entrada, entrada => true
  | saida, saida => true
  | _, _ => false
  end.

(** The sum of [totalCentavos] over the entries of one kind whose path has
    a single segment. *)
Definition sumDepth1 (kind : TipoCategoria) (categorias : list CategoryAggregate) : Z :=
  fold_left (fun sum c => sum + c_totalCentavos c)
    (filter (fun c => (length (c_categoriaPath c) =? 1)%nat && sameTipo (c_tipo c) kind)
       categorias) 0.

Fixpoint path_eqb (p q : list jsstring) : bool :=
  match p, q with
  | [], [] => true
  | a :: p', b :: q' => String_eqb a b && path_eqb p' q'
  | _, _ => false
  end.

(** [prefix] is an initial part of [path]. *)
Definition isPrefixOf (prefix path : list jsstring) : bool :=
  path_eqb prefix (firstn (length prefix) path).

(** The number of transactions, of either kind, whose path starts with [prefix]. *)
Definition countWithPrefix (prefix : list jsstring) (transactions : list TransactionData) : Z :=
  Z.of_nat (length (filter (fun t => isPrefixOf prefix (t_categoriaPath t)) transactions)).

(** Every entry of [topCategorias] carries the whole path of some transaction. *)
Definition topCategoriasOnlyFullPaths `{Host} (transactions : list TransactionData) : Prop :=
  forall e, In e (r_topCategorias (aggregateTransactions transactions)) ->
    exists t, In t transactions /\ c_categoriaPath e = t_categoriaPath t.

(** The months of a result are in ascending order of their keys. *)
Definition mesesAscending (meses : list MonthlyAggregate) : Prop :=
  forall i j a b, (i < j)%nat ->
    nth_error meses i = Some a -> nth_error meses j = Some b ->
    compareCodeUnits (m_mes a) (m_mes b) < 0.

(** The signed amount that a transaction stands for. *)
Definition signedValor (t : TransactionData) : Z :=
  match t_tipo t with
  | Entrada => - t_valorCentavos t
  | Saida => t_valorCentavos t
  end.

(** The characters of an amount written without sign, currency or spaces. *)
Definition isPlainValorChar (c : N) : bool :=
  isDigit c || N.eqb c (ch ".") || N.eqb c (ch ",").

(** The number that a string of decimal digits writes. *)
Definition decimalValue (digits : jsstring) : Z :=
  fold_left (fun acc c => acc * 10 + (Z.of_N c - 48)) digits 0.

(** The year of the day-first rule: a year of two digits [y] is [19y] from
    50 on and [20y] below; a longer year is kept. *)
Definition expandYear (ano : jsstring) : jsstring :=
  if (length ano =? 2)%nat then
    if 50 <=? decimalValue ano then js "19" ++ ano else js "20" ++ ano
  else ano.




(** The sum of a list of integers. *)
Definition sumZ (l : list Z) : Z := fold_right Z.add 0 l.

(** The key of a level of a path in [categoryMap]. *)
Definition keyOf (path : list jsstring) : jsstring := join (js " > ") path.

(** The count that [categoryMap] holds under a key, 0 when the key is absent. *)
Definition countAt (categoryMap : list (jsstring * CategoryAcc)) (k : jsstring) : Z :=
  match map_get k categoryMap with
  | Some v => a_transactionCount v
  | None => 0
  end.

(** The number of levels of the path of [t] whose key is [k]. *)
Definition levelsAt (k : jsstring) (t : TransactionData) : Z :=
  Z.of_nat (length (filter (fun i => String_eqb k (keyOf (firstn (i + 1) (t_categoriaPath t))))
                      (seq 0 (length (t_categoriaPath t))))).

(** The amount of one kind that an entry of a single segment holds. *)
Definition depth1Of (kind : TipoCategoria) (v : CategoryAcc) : Z :=
  if (length (a_categoriaPath v) =? 1)%nat then
    match kind with entrada => a_entrada v | saida => a_saida v end
  else 0.

(** The amount that a transaction adds to the total of one kind. *)
Definition valorOf (kind : TipoCategoria) (t : TransactionData) : Z :=
  match kind, t_tipo t with
  | entrada, Entrada => t_valorCentavos t
  | saida, Saida => t_valorCentavos t
  | _, _ => 0
  end.

Definition sumOver (f : CategoryAcc -> Z) (categoryMap : list (jsstring * CategoryAcc)) : Z :=
  sumZ (map (fun kv => f (snd kv)) categoryMap).

(** An entry of [categoryMap] stands under the key of its own path. *)
Definition keyOk (kv : jsstring * CategoryAcc) : Prop :=
  fst kv = keyOf (a_categoriaPath (snd kv))
  /\ a_categoriaPath (snd kv) <> []
  /\ forallb noSeparator (a_categoriaPath (snd kv)) = true.

Definition nonNegative (kv : jsstring * CategoryAcc) : Prop :=
  0 <= a_entrada (snd kv) /\ 0 <= a_saida (snd kv).

(** The segments of the paths are free of the separator. *)
Definition segmentsOk (t : TransactionData) : bool :=
  forallb noSeparator (t_categoriaPath t).

(** *** Data of the examples *)

Definition saidaEm (id : Z) (valor : Z) (path : list jsstring) (data : jsstring)
    : TransactionData :=
  {| t_id := id; t_tipo := Saida; t_valorCentavos := valor;
     t_categoria := join (js " > ") path; t_categoriaPath := path;
     t_empresa := js "Empresa"; t_descricao := js "Gasto"; t_data := data |}.

Definition entradaEm (id : Z) (valor : Z) (path : list jsstring) (data : jsstring)
    : TransactionData :=
  {| t_id := id; t_tipo := Entrada; t_valorCentavos := valor;
     t_categoria := join (js " > ") path; t_categoriaPath := path;
     t_empresa := js "Empresa"; t_descricao := js "Estorno"; t_data := data |}.

(** An outflow of 100 in January 2024 and one of 200 in February 2024. *)
Definition doisMeses : list TransactionData :=
  [ saidaEm 1 100 [js "moradia"] (js "2024-01-10");
    saidaEm 2 200 [js "moradia"] (js "2024-02-10") ].

(** The transactions of [testeAggregationFunctions]. *)
Definition transacoesTeste : list TransactionData :=
  [ entradaEm 1 500000 [js "salario"] (js "2024-01-15");
    saidaEm 2 120000 [js "moradia"] (js "2024-01-01");
    saidaEm 3 2500 [js "transporte"; js "apps"; js "uber"] (js "2024-01-10") ].

(** The transactions of [testeAgregacaoCompleta]: an outflow and an inflow
    under the same category, and one more outflow. *)
Definition transacoesMistas : list TransactionData :=
  [ saidaEm 1 10000 [js "alimentacao"] (js "2024-01-15");
    entradaEm 2 2000 [js "alimentacao"] (js "2024-01-16");
    saidaEm 3 120000 [js "moradia"] (js "2024-01-01") ].

Definition rawDe (id : Z) (valor empresa descricao data : jsstring) : RawTransaction :=
  {| raw_id := id; raw_tipo := Saida; raw_valorOriginal := valor;
     raw_categoria := js "Outros"; raw_empresa := empresa;
     raw_descricao := descricao; raw_data := data |}.

(** Five classified rows, the last of which pays the bill. *)
Definition loteComFatura : list RawTransaction :=
  [ rawDe 1 (js "100.00") (js "Extra") (js "Compra supermercado") (js "15/01/2024");
    rawDe 2 (js "-20.00") (js "Extra") (js "Estorno produto") (js "16/01/2024");
    rawDe 3 (js "1200.00") (js "Imobiliaria") (js "Aluguel") (js "17/01/2024");
    rawDe 4 (js "-80.00") (js "Posto") (js "Reembolso") (js "18/01/2024");
    rawDe 5 (js "500.00") (js "Pagamentos Validos Normais") (js "Pagamento fatura")
      (js "19/01/2024") ].

(* ================================================================= *)
(** ** Vocabulary of further properties of the aggregation *)

(** The amount of one kind that an entry of [categoryMap] holds. *)
Definition amountOf (kind : TipoCategoria) (v : CategoryAcc) : Z :=
  match kind with entrada => a_entrada v | saida => a_saida v end.

(** The amount of one kind under a key of [categoryMap], 0 when the key is
    absent. *)
Definition amountAt (kind : TipoCategoria)
    (categoryMap : list (jsstring * CategoryAcc)) (k : jsstring) : Z :=
  match map_get k categoryMap with
  | Some v => amountOf kind v
  | None => 0
  end.

(** The sum of the amounts of the transactions of one kind whose path
    starts with [prefix]. *)
Definition valorWithPrefix (kind : TipoCategoria) (prefix : list jsstring)
    (transactions : list TransactionData) : Z :=
  sumZ (map (fun t => if isPrefixOf prefix (t_categoriaPath t)
                      then valorOf kind t else 0) transactions).

(** The sum of a field over the values of a map. *)
Definition sumValues {V : Type} (f : V -> Z) (m : list (jsstring * V)) : Z :=
  sumZ (map (fun kv => f (snd kv)) m).

(* ================================================================= *)
(** ** src/utils/aggregate.ts: the insights *)

Definition isEntradaCategoria (cat : CategoryAggregate) : bool :=
  match c_tipo cat with entrada => true | saida => false end.

(** [CategoryData] of [src/types/financial.ts]; the fields carry the
    prefix [cd_]. *)
Record CategoryData : Type := {
  cd_nome : jsstring;
  cd_valor : Q;
  cd_tipo : TipoCategoria;
  cd_percentual : Q
}.

(** [FinancialInsights] of [src/types/financial.ts]; the fields carry the
    prefix [fi_]. *)
Record FinancialInsights : Type := {
  fi_totalEntradas : Q;
  fi_totalSaidas : Q;
  fi_saldo : Q;
  fi_categorias : list CategoryData;
  fi_recomendacoes : list Recommendation
}.

(** [Math.round(x)]: the integer nearest to [x], halves going up. *)
Definition mathRound (x : Q) : Z := Qfloor (x + (1 # 2)).

(** The function given to [map] in [generateFinancialInsights]. *)
Definition toCategoryData (cat : CategoryAggregate) : CategoryData :=
  {| cd_nome := c_categoria cat;
     cd_valor := (inject_Z (c_totalCentavos cat) / 100)%Q;
     cd_tipo := c_tipo cat;
     cd_percentual := (inject_Z (mathRound (c_percentual cat * 10)) / 10)%Q |}.

Definition generateFinancialInsights (aggregation : AggregationResult)
    : FinancialInsights :=
  let entradas :=
    firstn 10 (sortBy byTotalDesc
                 (filter isEntradaCategoria (r_categorias aggregation))) in
  let saidas :=
    firstn 10 (sortBy byTotalDesc
                 (filter isSaidaCategoria (r_categorias aggregation))) in
  let categorias := map toCategoryData (saidas ++ entradas) in
  let recomendacoes := generateRecommendations aggregation in
  {| fi_totalEntradas := (inject_Z (r_totalEntradasCentavos aggregation) / 100)%Q;
     fi_totalSaidas := (inject_Z (r_totalSaidasCentavos aggregation) / 100)%Q;
     fi_saldo := (inject_Z (r_saldoCentavos aggregation) / 100)%Q;
     fi_categorias := categorias;
     fi_recomendacoes := recomendacoes |}.

(* ================================================================= *)
(** ** src/utils/parse.ts: formatting an amount *)








(** The part of [parseValorBrasileiro] that reads the cleaned string, once
    the sign is taken off. *)
Definition valorDasPartes (valorLimpo : jsstring) : Z :=
  let '(parteInteira, centavos) :=
    if includes (js ",") valorLimpo then
      match split (ch ",") valorLimpo with
      | [p0; p1] =>
          if (length p1 <=? 2)%nat
          then (removeAll (ch ".") p0, substring0 2 (padEnd 2 (ch "0") p1))
          else ([], [])
      | _ => ([], [])
      end
    else if includes (js ".") valorLimpo then
      match split (ch ".") valorLimpo with
      | [p0; p1] =>
          if (length p1 <=? 2)%nat
          then (removeAll (ch ",") p0, substring0 2 (padEnd 2 (ch "0") p1))
          else (removeAll (ch ".") valorLimpo, js "00")
      | _ => (removeAll (ch ".") valorLimpo, js "00")
      end
    else (valorLimpo, js "00") in
  orZero (parseInt parteInteira) * 100 + orZero (parseInt centavos).

(* ================================================================= *)
(** ** src/services/openai.ts: the rows of a file and the batches *)

(** The quotation mark. *)
Definition quote : N := 34%N.

(** The line feed. *)
Definition lineFeed : N := 10%N.

(** [cell.replace(/^"|"$/g, '')]: a quotation mark at the very start is
    taken off, and so is one at the very end of what is left. *)
Definition stripQuotes (cell : jsstring) : jsstring :=
  let rest :=
    match cell with
    | c :: r => if N.eqb c quote then r else cell
    | [] => []
    end in
  if N.eqb (last rest 0%N) quote then removelast rest else rest.

Definition parseCSVContent (csvContent : jsstring) : list (list jsstring) :=
  let lines := split lineFeed (trim csvContent) in
  map (fun line => map (fun cell => stripQuotes (trim cell)) (split (ch ",") line))
    lines.

(** [l.slice(start, stop)] for [start <= stop]. *)
Definition slice {A : Type} (start stop : nat) (l : list A) : list A :=
  firstn (stop - start) (skipn start l).

(** The loop of [createBatches], from its index [i] on.  The loop of the
    source has no bound of its own: [fuel] counts the turns that are
    left, and [None] says that they did not suffice. *)
Fixpoint batchLoop (fuel : nat) (headers : list jsstring)
    (dataRows : list (list jsstring)) (batchSize i : nat)
    (batches : list (list (list jsstring))) : option (list (list (list jsstring))) :=
  if (i <? length dataRows)%nat then
    match fuel with
    | O => None
    | S fuel' =>
        let batchRows := slice i (i + batchSize) dataRows in
        batchLoop fuel' headers dataRows batchSize (i + batchSize)
          (batches ++ [headers :: batchRows])
    end
  else Some batches.

(** [createBatches(rows, batchSize)] for a batch size that is a natural
    number.  Without rows [rows[0]] is [undefined] and [rows.slice(1)] is
    empty, so the loop does not run and no batch holds the header. *)
Definition createBatches (fuel : nat) (rows : list (list jsstring)) (batchSize : nat)
    : option (list (list (list jsstring))) :=
  match rows with
  | [] => Some []
  | headers :: dataRows => batchLoop fuel headers dataRows batchSize 0 []
  end.

(** How often [c] occurs in [s]. *)
Definition countOf (c : N) (s : jsstring) : nat := length (filter (N.eqb c) s).

(* ================================================================= *)
(** ** The entry of a path and a kind *)

(** The entry that the transactions give to a path and a kind: every
    field is a sum or a count over the transactions. *)
Definition entryOf (kind : TipoCategoria) (path : list jsstring)
    (transactions : list TransactionData) : CategoryAggregate :=
  {| c_categoria := keyOf path;
     c_categoriaPath := path;
     c_totalCentavos := valorWithPrefix kind path transactions;
     c_tipo := kind;
     c_transactionCount := countWithPrefix path transactions;
     c_percentual :=
       percentualOf (valorWithPrefix kind path transactions)
         (sumZ (map (valorOf kind) transactions)) |}.

(** A string of the characters of an amount whose only digit, if any, is
    the zero. *)
Definition zeroish (s : jsstring) : Prop :=
  forall c, In c s -> isValorChar c = true /\ (isDigit c = true -> c = ch "0").

(* ================================================================= *)
(** ** Vocabulary of the category segments *)

Definition isAlphaNumeric (c : N) : bool := isLowerAZ c || isDigit c.

Definition isSegmentChar (c : N) : bool := isAlphaNumeric c || N.eqb c (ch " ").

(** No two spaces side by side. *)
Fixpoint singleSpaced (s : jsstring) : bool :=
  match s with
  | a :: r =>
      match r with
      | b :: _ => negb (N.eqb a (ch " ") && N.eqb b (ch " ")) && singleSpaced r
      | [] => true
      end
  | [] => true
  end.

(** A segment in normal form: letters [a-z], digits and single spaces,
    with a letter or a digit at both ends. *)
Definition isNormalSegment (s : jsstring) : bool :=
  forallb isSegmentChar s
  && isAlphaNumeric (hd (ch " ") s) && isAlphaNumeric (last s (ch " "))
  && singleSpaced s.

(** What the round trip of a path asks of the host: lower case and NFD
    leave a text of letters [a-z], digits and spaces as it is. *)
Definition hostKeepsNormalText (H : Host) : Prop :=
  forall s, forallb isSegmentChar s = true ->
    toLowerCase s = s /\ normalizeNFD s = s.

(* ================================================================= *)
(** ** The numbers of the host

    The amounts of the source are [number]s: IEEE 754 doubles.  The sum
    and the difference of two doubles are the exact result rounded to the
    nearest double, ties to the even significand; on integers this is
    [roundToDouble].  Every integer up to [2 ^ 53] in magnitude is a
    double, so nothing is rounded up to there. *)

(** [Number.MAX_SAFE_INTEGER] *)
Definition maxSafeInteger : Z := 2 ^ 53 - 1.

(** The double nearest to the integer [z], ties to the even significand
    (below the [2 ^ 1024] from which a double is infinite). *)
Definition roundToDouble (z : Z) : Z :=
  let a := Z.abs z in
  if a <=? 2 ^ 53 then z else
  let quantum := 2 ^ (Z.log2 a - 52) in
  let q := a / quantum in
  let r := a mod quantum in
  let q' :=
    if 2 * r <? quantum then q
    else if quantum <? 2 * r then q + 1
    else if Z.even q then q else q + 1 in
  Z.sgn z * (q' * quantum).

(** [a + b] and [a - b] on integers held in doubles. *)
Definition numAdd (a b : Z) : Z := roundToDouble (a + b).
Definition numSub (a b : Z) : Z := roundToDouble (a - b).

(** The amounts are not negative and the total of each kind is a safe
    integer. *)
Definition safeAmounts (transactions : list TransactionData) : bool :=
  forallb (fun t => 0 <=? t_valorCentavos t) transactions
  && (sumZ (map (valorOf entrada) transactions) <=? maxSafeInteger)
  && (sumZ (map (valorOf saida) transactions) <=? maxSafeInteger).

(** The aggregation of [src/utils/aggregate.ts] with the additions and
    subtractions of the host on the amounts.  The counts are added in the
    integers (an array holds fewer than [2 ^ 32] elements, no count is
    rounded), the comparators of the sorts are used for their sign, which
    rounding keeps, and the percentages are the exact quotients as
    before. *)
Module Num.

Definition addLevel (transaction : TransactionData)
    (categoryMap : list (jsstring * CategoryAcc)) (i : nat)
    : list (jsstring * CategoryAcc) :=
  let path := t_categoriaPath transaction in
  let categoryKey := join (js " > ") (firstn (i + 1) path) in
  let existing :=
    match map_get categoryKey categoryMap with
    | Some e => e
    | None => {| a_entrada := 0; a_saida := 0;
                 a_categoriaPath := firstn (i + 1) path;
                 a_transactionCount := 0 |}
    end in
  let existing :=
    match t_tipo transaction with
    | Entrada =>
        {| a_entrada := numAdd (a_entrada existing) (t_valorCentavos transaction);
           a_saida := a_saida existing;
           a_categoriaPath := a_categoriaPath existing;
           a_transactionCount := a_transactionCount existing |}
    | Saida =>
        {| a_entrada := a_entrada existing;
           a_saida := numAdd (a_saida existing) (t_valorCentavos transaction);
           a_categoriaPath := a_categoriaPath existing;
           a_transactionCount := a_transactionCount existing |}
    end in
  let existing :=
    {| a_entrada := a_entrada existing;
       a_saida := a_saida existing;
       a_categoriaPath := a_categoriaPath existing;
       a_transactionCount := a_transactionCount existing + 1 |} in
  map_set categoryKey existing categoryMap.

Definition addTransaction (categoryMap : list (jsstring * CategoryAcc))
    (transaction : TransactionData) : list (jsstring * CategoryAcc) :=
  fold_left (addLevel transaction)
    (seq 0 (length (t_categoriaPath transaction))) categoryMap.

Definition buildCategoryMap (transactions : list TransactionData)
    : list (jsstring * CategoryAcc) :=
  fold_left addTransaction transactions [].

Definition aggregateByCategory (transactions : list TransactionData)
    (totalEntradas totalSaidas : Z) : list CategoryAggregate :=
  let categoryMap := buildCategoryMap transactions in
  let result := flat_map (emitCategory totalEntradas totalSaidas) categoryMap in
  sortBy byTotalDesc result.

Definition addToMonth (monthMap : list (jsstring * MonthAcc))
    (transaction : TransactionData) : list (jsstring * MonthAcc) :=
  let mes := substring0 7 (t_data transaction) in
  let existing :=
    match map_get mes monthMap with
    | Some e => e
    | None => {| ma_entradas := 0; ma_saidas := 0; ma_count := 0 |}
    end in
  let existing :=
    match t_tipo transaction with
    | Entrada =>
        {| ma_entradas := numAdd (ma_entradas existing) (t_valorCentavos transaction);
           ma_saidas := ma_saidas existing;
           ma_count := ma_count existing |}
    | Saida =>
        {| ma_entradas := ma_entradas existing;
           ma_saidas := numAdd (ma_saidas existing) (t_valorCentavos transaction);
           ma_count := ma_count existing |}
    end in
  let existing :=
    {| ma_entradas := ma_entradas existing;
       ma_saidas := ma_saidas existing;
       ma_count := ma_count existing + 1 |} in
  map_set mes existing monthMap.

Definition toMonthlyAggregate (entry : jsstring * MonthAcc) : MonthlyAggregate :=
  let '(mes, data) := entry in
  {| m_mes := mes;
     m_entradasCentavos := ma_entradas data;
     m_saidasCentavos := ma_saidas data;
     m_saldoCentavos := numSub (ma_entradas data) (ma_saidas data);
     m_transactionCount := ma_count data |}.

Definition aggregateByMonth `{Host} (transactions : list TransactionData)
    : list MonthlyAggregate :=
  let monthMap := fold_left addToMonth transactions [] in
  sortBy (fun a b => localeCompare (m_mes a) (m_mes b))
    (map toMonthlyAggregate monthMap).

Definition aggregateTransactions `{Host} (transactions : list TransactionData)
    : AggregationResult :=
  let totalEntradasCentavos :=
    fold_left (fun sum t => numAdd sum (t_valorCentavos t))
      (filter isEntrada transactions) 0 in
  let totalSaidasCentavos :=
    fold_left (fun sum t => numAdd sum (t_valorCentavos t))
      (filter isSaida transactions) 0 in
  let saldoCentavos := numSub totalEntradasCentavos totalSaidasCentavos in
  let categorias :=
    aggregateByCategory transactions totalEntradasCentavos totalSaidasCentavos in
  let meses := aggregateByMonth transactions in
  let topCategorias :=
    firstn 5 (sortBy byTotalDesc (filter isSaidaCategoria categorias)) in
  let '(meses, mesMaisCaro) :=
    if (0 <? length meses)%nat then
      let '(meses, sorted) := sort_in_place bySaidasDesc meses in
      (meses, match sorted with m :: _ => m_mes m | [] => [] end)
    else (meses, substring0 7 nowISO) in
  {| r_totalEntradasCentavos := totalEntradasCentavos;
     r_totalSaidasCentavos := totalSaidasCentavos;
     r_saldoCentavos := saldoCentavos;
     r_categorias := categorias;
     r_meses := meses;
     r_topCategorias := topCategorias;
     r_mesMaisCaro := mesMaisCaro |}.

End Num.

(** Three outflows, the second of [2 ^ 53] centavos. *)
Definition transacoesGrandes : list TransactionData :=
  [ saidaEm 1 1 [js "a"] (js "2024-01-10");
    saidaEm 2 (2 ^ 53) [js "b"] (js "2024-02-10");
    saidaEm 3 1 [js "a"] (js "2024-01-20") ].

(* ================================================================= *)
(** ** api/services/financial-analyzer.ts: the builder of the API

    The file has its own parsers.  Its [parseValorBrasileiro] reads the
    amount with [parseFloat]; what the floating point of the host makes
    of a text in which [parseFloat] reads a number is a parameter, and
    the texts in which it reads none are told apart here. *)

(** [s.replace(c, d)] with a string pattern: the first occurrence only. *)
Fixpoint replaceFirst (c d : N) (s : jsstring) : jsstring :=
  match s with
  | [] => []
  | x :: r => if N.eqb x c then d :: r else x :: replaceFirst c d r
  end.

(** [Math.abs(x)] *)
Definition numAbs (x : JSNumber) : JSNumber :=
  match x with
  | NaN => NaN
  | PosInfinity => PosInfinity
  | NegInfinity => PosInfinity
  | Finite q => Finite (Qabs q)
  end.

Module Api.

(** A [Date] as it is built: [new Date()] or [new Date(text)]. *)
Inductive DateValue : Type :=
  | DateNow
  | DateOf (text : jsstring).

(** [TransactionData] of the API. *)
Record TransactionData : Type := {
  t_id : Z;
  t_tipo : Tipo;
  t_valorCentavos : JSNumber;
  t_categoria : jsstring;
  t_categoriaPath : list jsstring;
  t_empresa : jsstring;
  t_descricao : jsstring;
  t_data : DateValue
}.

(** [Math.round(x * 100)] for a number [x] read by [parseFloat]: an
    integer, or an infinity. *)
Inductive Rounded : Type :=
  | RoundedInteger (z : Z)
  | RoundedInfinity (negative : bool).

(** [Math.round(parseFloat(s) * 100)] for a text [s] in which
    [parseFloat] reads a number. *)
Class Floats : Type := {
  roundCentavos : jsstring -> Rounded
}.

(** [parseFloat(s)] is not [NaN]: after white space and an optional sign
    the text begins with a digit, with a period and a digit, or with
    [Infinity]. *)
Definition readsNumber (s : jsstring) : bool :=
  let s1 := trimStart s in
  let s2 :=
    match s1 with
    | c :: r => if N.eqb c (ch "-") || N.eqb c (ch "+") then r else s1
    | [] => []
    end in
  startsWith (js "Infinity") s2
  || match s2 with
     | c :: r =>
         isDigit c
         || (N.eqb c (ch ".") && match r with d :: _ => isDigit d | [] => false end)
     | [] => false
     end.

Definition parseValorBrasileiro `{Floats} (valor : jsstring) : JSNumber :=
  if isEmpty valor then Finite 0 else
  let cleanValue :=
    filter (fun c => negb (N.eqb c (ch "R") || N.eqb c (ch "$") || isWhiteSpace c))
      valor in
  let cleanValue :=
    if includes (js ",") cleanValue && includes (js ".") cleanValue
    then replaceFirst (ch ",") (ch ".") (removeAll (ch ".") cleanValue)
    else if includes (js ",") cleanValue
    then replaceFirst (ch ",") (ch ".") cleanValue
    else cleanValue in
  if readsNumber cleanValue then
    match roundCentavos cleanValue with
    | RoundedInteger z => Finite (inject_Z z)
    | RoundedInfinity false => PosInfinity
    | RoundedInfinity true => NegInfinity
    end
  else NaN.

(** A pattern of fixed length, one test for each character. *)
Fixpoint matchesAt (pattern : list (N -> bool)) (s : jsstring) : bool :=
  match pattern, s with
  | [], _ => true
  | test :: pattern', c :: s' => test c && matchesAt pattern' s'
  | _ :: _, [] => false
  end.

(** [s.match(pattern)[0]]: the leftmost match. *)
Fixpoint findMatch (pattern : list (N -> bool)) (s : jsstring) : option jsstring :=
  match s with
  | [] => if matchesAt pattern [] then Some [] else None
  | _ :: r =>
      if matchesAt pattern s then Some (firstn (length pattern) s)
      else findMatch pattern r
  end.

(** [\d{4}-\d{2}-\d{2}] *)
Definition formatISO : list (N -> bool) :=
  [isDigit; isDigit; isDigit; isDigit; N.eqb (ch "-"); isDigit; isDigit;
   N.eqb (ch "-"); isDigit; isDigit].

(** [(\d{2})x(\d{2})x(\d{4})] for the separator [x]. *)
Definition formatDayFirst (x : N) : list (N -> bool) :=
  [isDigit; isDigit; N.eqb x; isDigit; isDigit; N.eqb x;
   isDigit; isDigit; isDigit; isDigit].

(** [`${match[3]}-${match[2]}-${match[1]}`] *)
Definition yearFirst (matched : jsstring) : jsstring :=
  skipn 6 matched ++ js "-" ++ firstn 2 (skipn 3 matched)
    ++ js "-" ++ firstn 2 matched.

Definition parseDateBrasileira (dateStr : jsstring) : DateValue :=
  if isEmpty dateStr then DateNow else
  match findMatch formatISO dateStr with
  | Some matched => DateOf matched
  | None =>
      match findMatch (formatDayFirst (ch "/")) dateStr with
      | Some matched => DateOf (yearFirst matched)
      | None =>
          match findMatch (formatDayFirst (ch "-")) dateStr with
          | Some matched => DateOf (yearFirst matched)
          | None => DateOf dateStr
          end
      end
  end.

(** [s.split(sep)] for a separator of several characters: [skip] counts
    the characters of a separator that are still to be passed over, [cur]
    holds the current piece, reversed. *)
Fixpoint splitAt (sep : jsstring) (skip : nat) (cur : jsstring) (s : jsstring)
    : list jsstring :=
  match s with
  | [] => [rev cur]
  | c :: r =>
      match skip with
      | S k => splitAt sep k cur r
      | O =>
          if startsWith sep s then rev cur :: splitAt sep (length sep - 1) [] r
          else splitAt sep 0 (c :: cur) r
      end
  end.

Definition parseCategoriaPath (categoria : jsstring) : list jsstring :=
  if isEmpty categoria then [js "Outros"]
  else map trim (splitAt (js " > ") 0 [] categoria).

Definition toTransactionData `{Host} `{Floats} (raw : RawTransaction)
    : TransactionData :=
  let valorCentavos := parseValorBrasileiro (raw_valorOriginal raw) in
  let tipo := if numLt valorCentavos 0 then Entrada else Saida in
  let data := parseDateBrasileira (raw_data raw) in
  let categoriaPath := parseCategoriaPath (raw_categoria raw) in
  {| t_id := raw_id raw;
     t_tipo := tipo;
     t_valorCentavos := numAbs valorCentavos;
     t_categoria := raw_categoria raw;
     t_categoriaPath := categoriaPath;
     t_empresa := orDefault (raw_empresa raw) (js "Not specified");
     t_descricao := orDefault (raw_descricao raw) (js "No description");
     t_data := data |}.

Definition convertToTransactionData `{Host} `{Floats}
    (rawTransactions : list RawTransaction) : list TransactionData :=
  map toTransactionData
    (filter (fun raw => negb (isPagamentoFatura raw)) rawTransactions).

End Api.

(** A refund written between parentheses, as [parseValorBrasileiro] of
    [utils/parse.ts] reads them. *)
Definition estornoEntreParenteses : RawTransaction :=
  rawDe 1 (js "(100,00)") (js "Loja") (js "Estorno") (js "15/01/2024").

(* ================================================================= *)
(** ** Strings and maps *)

Lemma String_eqb_eq (a b : jsstring) : String_eqb a b = true <-> a = b.
Proof.
  revert b; induction a as [|x a IH]; intros [|y b]; simpl; split;
    try congruence; try reflexivity.
  - intros E. apply andb_true_iff in E as [E1 E2].
    apply N.eqb_eq in E1. apply IH in E2. congruence.
  - intros E. injection E as -> ->. rewrite N.eqb_refl. simpl. now apply IH.
Qed.

Lemma String_eqb_refl (a : jsstring) : String_eqb a a = true.
Proof. now apply String_eqb_eq. Qed.

Lemma String_eqb_neq (a b : jsstring) : String_eqb a b = false <-> a <> b.
Proof.
  split.
  - intros E ->. rewrite String_eqb_refl in E. discriminate.
  - intros N. destruct (String_eqb a b) eqn:E; [|reflexivity].
    apply String_eqb_eq in E. contradiction.
Qed.

Lemma path_eqb_eq (p q : list jsstring) : path_eqb p q = true <-> p = q.
Proof.
  revert q; induction p as [|a p IH]; intros [|b q]; simpl; split;
    try congruence; try reflexivity.
  - intros E. apply andb_true_iff in E as [E1 E2].
    apply String_eqb_eq in E1. apply IH in E2. congruence.
  - intros E. injection E as -> ->. rewrite String_eqb_refl. simpl. now apply IH.
Qed.

Section JSMapFacts.
Context {V : Type}.
Implicit Types (m : list (jsstring * V)) (k : jsstring) (v : V).

Lemma map_get_set_same m k v : map_get k (map_set k v m) = Some v.
Proof.
  induction m as [|[k' v'] m IH]; simpl.
  - now rewrite String_eqb_refl.
  - destruct (String_eqb k k') eqn:E; simpl.
    + now rewrite String_eqb_refl.
    + now rewrite E.
Qed.

Lemma map_get_set_other m k k' v :
  k' <> k -> map_get k' (map_set k v m) = map_get k' m.
Proof.
  intros N. induction m as [|[k0 v0] m IH]; simpl.
  - apply String_eqb_neq in N. now rewrite N.
  - destruct (String_eqb k k0) eqn:E; simpl.
    + apply String_eqb_eq in E. subst k0.
      apply String_eqb_neq in N. now rewrite N.
    + destruct (String_eqb k' k0); [reflexivity | exact IH].
Qed.

Lemma map_get_In m k v : map_get k m = Some v -> In (k, v) m.
Proof.
  induction m as [|[k' v'] m IH]; simpl; [discriminate|].
  destruct (String_eqb k k') eqn:E.
  - apply String_eqb_eq in E. intros [= ->]. left. congruence.
  - intros G. right. now apply IH.
Qed.

Lemma map_get_None m k : map_get k m = None -> ~ In k (map fst m).
Proof.
  induction m as [|[k' v'] m IH]; simpl; [tauto|].
  destruct (String_eqb k k') eqn:E; [discriminate|].
  apply String_eqb_neq in E. intros G [F|F]; [congruence | now apply IH].
Qed.

Lemma In_map_get m k v : NoDup (map fst m) -> In (k, v) m -> map_get k m = Some v.
Proof.
  induction m as [|[k' v'] m IH]; simpl; [tauto|].
  intros ND [E|I].
  - injection E as -> ->. now rewrite String_eqb_refl.
  - inversion ND as [|? ? NI ND']; subst.
    destruct (String_eqb k k') eqn:E.
    + apply String_eqb_eq in E. subst k'. exfalso. apply NI.
      change k with (fst (k, v)). now apply in_map.
    + now apply IH.
Qed.

Lemma In_map_set m k v e : In e (map_set k v m) -> e = (k, v) \/ In e m.
Proof.
  induction m as [|[k0 v0] m IH]; simpl.
  - intros [E|[]]. now left.
  - destruct (String_eqb k k0); simpl.
    + intros [E|I]; [now left | right; now right].
    + intros [E|I]; [right; now left|].
      destruct (IH I) as [E|I']; [now left | right; now right].
Qed.

Lemma Forall_map_set (P : jsstring * V -> Prop) m k v :
  Forall P m -> P (k, v) -> Forall P (map_set k v m).
Proof.
  intros Hm Hkv. apply Forall_forall. intros e I.
  destruct (In_map_set _ _ _ _ I) as [->|I']; [exact Hkv|].
  rewrite Forall_forall in Hm. now apply Hm.
Qed.

Lemma keys_map_set_present m k v v' :
  map_get k m = Some v -> map fst (map_set k v' m) = map fst m.
Proof.
  induction m as [|[k0 v0] m IH]; simpl; [discriminate|].
  destruct (String_eqb k k0) eqn:E; simpl.
  - apply String_eqb_eq in E. now subst.
  - intros G. now rewrite IH.
Qed.

Lemma keys_map_set_absent m k v' :
  map_get k m = None -> map fst (map_set k v' m) = map fst m ++ [k].
Proof.
  induction m as [|[k0 v0] m IH]; simpl; [reflexivity|].
  destruct (String_eqb k k0) eqn:E; simpl; [discriminate|].
  intros G. now rewrite IH.
Qed.

Lemma NoDup_map_set m k v : NoDup (map fst m) -> NoDup (map fst (map_set k v m)).
Proof.
  intros ND. destruct (map_get k m) as [v0|] eqn:G.
  - now rewrite (keys_map_set_present _ _ _ _ G).
  - rewrite (keys_map_set_absent _ _ _ G).
    apply NoDup_rev in ND. rewrite <- rev_involutive. apply NoDup_rev.
    rewrite rev_app_distr. simpl. constructor; [|exact ND].
    rewrite <- in_rev. now apply map_get_None.
Qed.

End JSMapFacts.

Lemma fold_left_sum {A : Type} (f : A -> Z) (l : list A) (a : Z) :
  fold_left (fun sum x => sum + f x) l a = a + sumZ (map f l).
Proof.
  revert a; induction l as [|x l IH]; intros a; simpl; [lia|].
  rewrite IH. unfold sumZ. lia.
Qed.

Lemma sumZ_app (l1 l2 : list Z) : sumZ (l1 ++ l2) = sumZ l1 + sumZ l2.
Proof. induction l1 as [|x l1 IH]; simpl; [reflexivity|]. rewrite IH. lia. Qed.

Lemma sumZ_perm (l1 l2 : list Z) : Permutation l1 l2 -> sumZ l1 = sumZ l2.
Proof. induction 1; simpl; lia. Qed.

Lemma filter_perm {A : Type} (f : A -> bool) (l1 l2 : list A) :
  Permutation l1 l2 -> Permutation (filter f l1) (filter f l2).
Proof.
  induction 1 as [|x l1 l2 P IH|x y l|l1 l2 l3 P1 IH1 P2 IH2]; simpl.
  - constructor.
  - destruct (f x); [now constructor | exact IH].
  - destruct (f x), (f y); try reflexivity. constructor.
  - now transitivity (filter f l2).
Qed.

(* ================================================================= *)
(** ** The sort *)

Section SortFacts.
Context {A : Type}.
Variable cmp : A -> A -> Z.

Lemma insertBy_perm (x : A) (l : list A) : Permutation (insertBy cmp x l) (x :: l).
Proof.
  induction l as [|y l IH]; simpl; [reflexivity|].
  destruct (cmp x y <=? 0); [reflexivity|].
  rewrite IH. constructor.
Qed.

Lemma sortBy_perm (l : list A) : Permutation (sortBy cmp l) l.
Proof.
  induction l as [|x l IH]; simpl; [constructor|].
  rewrite insertBy_perm. now constructor.
Qed.

Lemma sortBy_length (l : list A) : length (sortBy cmp l) = length l.
Proof. apply Permutation_length, sortBy_perm. Qed.

Lemma sortBy_In (l : list A) (x : A) : In x (sortBy cmp l) <-> In x l.
Proof.
  split; apply Permutation_in; [|symmetry]; apply sortBy_perm.
Qed.

(** When the comparator decides a total preorder [R], the result is in
    the order of [R]. *)
Variable R : A -> A -> Prop.
Hypothesis R_trans : forall a b c, R a b -> R b c -> R a c.
Hypothesis cmp_le : forall a b, cmp a b <= 0 -> R a b.
Hypothesis cmp_gt : forall a b, 0 < cmp a b -> R b a.

Lemma insertBy_sorted (x : A) (l : list A) :
  StronglySorted R l -> StronglySorted R (insertBy cmp x l).
Proof.
  induction 1 as [|y l S IH F]; simpl.
  - constructor; constructor.
  - destruct (cmp x y <=? 0) eqn:E.
    + apply Z.leb_le in E. constructor; [now constructor|].
      constructor; [now apply cmp_le|].
      eapply Forall_impl; [|exact F]. intros z Ryz.
      eapply R_trans; [apply cmp_le; exact E | exact Ryz].
    + apply Z.leb_gt in E. constructor; [exact IH|].
      eapply Permutation_Forall; [symmetry; apply insertBy_perm|].
      constructor; [now apply cmp_gt | exact F].
Qed.

Lemma sortBy_sorted (l : list A) : StronglySorted R (sortBy cmp l).
Proof.
  induction l as [|x l IH]; simpl; [constructor | now apply insertBy_sorted].
Qed.

End SortFacts.

Lemma StronglySorted_app_order {A : Type} (R : A -> A -> Prop) (l1 l2 : list A) :
  StronglySorted R (l1 ++ l2) ->
  forall a b, In a l1 -> In b l2 -> R a b.
Proof.
  induction l1 as [|x l1 IH]; simpl; intros S a b Ia Ib; [contradiction|].
  inversion S as [|? ? S' F]; subst. destruct Ia as [->|Ia].
  - rewrite Forall_forall in F. apply F. apply in_or_app. now right.
  - now apply IH.
Qed.

Lemma StronglySorted_firstn {A : Type} (R : A -> A -> Prop) (n : nat) (l : list A) :
  StronglySorted R l -> StronglySorted R (firstn n l).
Proof.
  revert l; induction n as [|n IH]; intros l S; simpl; [constructor|].
  destruct S as [|x l S F]; [constructor|].
  constructor; [now apply IH|].
  rewrite Forall_forall in *. intros y I. apply F.
  rewrite <- (firstn_skipn n l). apply in_or_app. now left.
Qed.

Lemma StronglySorted_nth {A : Type} (R : A -> A -> Prop) (l : list A) :
  StronglySorted R l ->
  forall i j a b, (i < j)%nat ->
    nth_error l i = Some a -> nth_error l j = Some b -> R a b.
Proof.
  induction 1 as [|x l S IH F]; intros i j a b Lt Ha Hb.
  - destruct i; discriminate Ha.
  - destruct j as [|j]; [lia|]. simpl in Hb.
    destruct i as [|i]; simpl in Ha.
    + injection Ha as <-. rewrite Forall_forall in F.
      apply F. eapply nth_error_In, Hb.
    + apply (IH i j); [lia | assumption | assumption].
Qed.

(* ================================================================= *)
(** ** The months as [aggregateByMonth] returns them *)

Lemma compareCodeUnits_range (a b : jsstring) :
  compareCodeUnits a b = -1 \/ compareCodeUnits a b = 0 \/ compareCodeUnits a b = 1.
Proof.
  revert b; induction a as [|x a IH]; intros [|y b]; simpl; auto.
  destruct (N.ltb x y); [auto|]. destruct (N.ltb y x); auto.
Qed.

Lemma compareCodeUnits_eq (a b : jsstring) : compareCodeUnits a b = 0 -> a = b.
Proof.
  revert b; induction a as [|x a IH]; intros [|y b]; simpl;
    try reflexivity; try discriminate.
  destruct (N.ltb_spec x y); [discriminate|].
  destruct (N.ltb_spec y x); [discriminate|].
  intros E. f_equal; [lia | now apply IH].
Qed.

Lemma compareCodeUnits_flip (a b : jsstring) :
  0 < compareCodeUnits a b -> compareCodeUnits b a < 0.
Proof.
  revert b; induction a as [|x a IH]; intros [|y b]; simpl; try lia.
  destruct (N.ltb_spec x y); [lia|].
  destruct (N.ltb_spec y x); [lia|].
  destruct (N.ltb_spec x y); [lia|]. apply IH.
Qed.

Lemma compareCodeUnits_trans (a b c : jsstring) :
  compareCodeUnits a b <= 0 -> compareCodeUnits b c <= 0 ->
  compareCodeUnits a c <= 0.
Proof.
  revert b c; induction a as [|x a IH]; intros [|y b] [|z c]; simpl; try lia.
  destruct (N.ltb_spec x y), (N.ltb_spec y z), (N.ltb_spec x z); try lia;
    destruct (N.ltb_spec y x), (N.ltb_spec z y), (N.ltb_spec z x); try lia.
  apply IH.
Qed.

Lemma monthMap_NoDup (ts : list TransactionData) (m0 : list (jsstring * MonthAcc)) :
  NoDup (map fst m0) -> NoDup (map fst (fold_left addToMonth ts m0)).
Proof.
  revert m0; induction ts as [|t ts IH]; intros m0 ND; [exact ND|].
  simpl. apply IH. unfold addToMonth. now apply NoDup_map_set.
Qed.

Lemma aggregateByMonth_keys_NoDup (H : Host) (ts : list TransactionData) :
  NoDup (map m_mes (aggregateByMonth ts)).
Proof.
  unfold aggregateByMonth.
  eapply Permutation_NoDup;
    [apply Permutation_map; symmetry; apply sortBy_perm|].
  rewrite map_map.
  rewrite (map_ext _ fst) by (now intros [k v]).
  apply monthMap_NoDup. constructor.
Qed.

(** With the order of the code units for collation, [aggregateByMonth]
    returns the months in ascending order of their keys, whatever the
    transactions: one entry for each key, each key below the next. *)
Lemma aggregateByMonth_ascending (ts : list TransactionData) :
  mesesAscending (@aggregateByMonth hostLatin1 ts).
Proof.
  intros i j a b Lt Ha Hb.
  assert (S : StronglySorted
                (fun a b => compareCodeUnits (m_mes a) (m_mes b) <= 0)
                (@aggregateByMonth hostLatin1 ts)).
  { unfold aggregateByMonth. apply sortBy_sorted; simpl.
    - intros x y z. apply compareCodeUnits_trans.
    - tauto.
    - intros x y G. apply compareCodeUnits_flip in G. lia. }
  pose proof (StronglySorted_nth _ _ S i j a b Lt Ha Hb) as Le. cbv beta in Le.
  destruct (compareCodeUnits_range (m_mes a) (m_mes b)) as [E|[E|E]]; try lia.
  exfalso. apply compareCodeUnits_eq in E.
  pose proof (aggregateByMonth_keys_NoDup hostLatin1 ts) as ND.
  rewrite NoDup_nth_error in ND.
  assert (Li : (i < length (map m_mes (@aggregateByMonth hostLatin1 ts)))%nat).
  { rewrite length_map. apply nth_error_Some. congruence. }
  specialize (ND i j Li). rewrite !nth_error_map, Ha, Hb in ND. simpl in ND.
  rewrite E in ND. specialize (ND eq_refl). lia.
Qed.

(* ================================================================= *)
(** ** The months of a result *)

(** The fields of the result that do not depend on the months. *)
Lemma aggregateTransactions_fields (H : Host) (transactions : list TransactionData) :
  let r := aggregateTransactions transactions in
  let totalEntradas :=
    fold_left (fun sum t => sum + t_valorCentavos t) (filter isEntrada transactions) 0 in
  let totalSaidas :=
    fold_left (fun sum t => sum + t_valorCentavos t) (filter isSaida transactions) 0 in
  r_totalEntradasCentavos r = totalEntradas
  /\ r_totalSaidasCentavos r = totalSaidas
  /\ r_saldoCentavos r = totalEntradas - totalSaidas
  /\ r_categorias r = aggregateByCategory transactions totalEntradas totalSaidas
  /\ r_topCategorias r
     = firstn 5 (sortBy byTotalDesc (filter isSaidaCategoria (r_categorias r)))
  /\ r_meses r = sortBy bySaidasDesc (aggregateByMonth transactions).
Proof.
  unfold aggregateTransactions, sort_in_place. cbv zeta.
  destruct (aggregateByMonth transactions) as [|m l] eqn:E; cbn -[sortBy aggregateByCategory];
    repeat split; reflexivity.
Qed.

(** On [doisMeses] every host returns the months with February first:
    the array that [aggregateByMonth] built in ascending order of the keys
    is the one that the search for [mesMaisCaro] sorts by outflow. *)
Lemma meses_doisMeses (H : Host) :
  r_meses (aggregateTransactions doisMeses) =
  [ {| m_mes := js "2024-02"; m_entradasCentavos := 0; m_saidasCentavos := 200;
       m_saldoCentavos := -200; m_transactionCount := 1 |};
    {| m_mes := js "2024-01"; m_entradasCentavos := 0; m_saidasCentavos := 100;
       m_saldoCentavos := -100; m_transactionCount := 1 |} ].
Proof.
  unfold aggregateTransactions, aggregateByMonth, doisMeses. cbn.
  destruct (localeCompare _ _ <=? 0); cbn; reflexivity.
Qed.

(** C1 (the code departs from it).  The claim: the array [meses] of the
    result of [aggregateTransactions] is in ascending order of its month
    keys.  On an outflow of 100 in 2024-01 and one of 200 in 2024-02 the
    result lists 2024-02 before 2024-01, on every host, although what
    [aggregateByMonth] returns is always in ascending order: the call
    [meses.sort(...)] that looks for [mesMaisCaro] reorders the very array
    that is returned. *)
Theorem meses_left_in_outflow_order :
  (forall H : Host,
     map m_mes (r_meses (@aggregateTransactions H doisMeses))
     = [js "2024-02"; js "2024-01"])
  /\ ~ mesesAscending (r_meses (@aggregateTransactions hostLatin1 doisMeses))
  /\ (forall transactions, mesesAscending (@aggregateByMonth hostLatin1 transactions)).
Proof.
  split; [|split].
  - intros H. now rewrite meses_doisMeses.
  - rewrite meses_doisMeses. intros Asc.
    specialize (Asc 0%nat 1%nat _ _ (Nat.lt_0_succ 0) eq_refl eq_refl).
    vm_compute in Asc. discriminate Asc.
  - apply aggregateByMonth_ascending.
Qed.

(** C4 (the code departs from it).  The claim: with two months or more,
    the trend rule compares the outflow of the two most recent months and
    warns of growth above 15%.  On [doisMeses] the outflow grows from 100
    in January to 200 in February, and the rule applied to the months in
    ascending order gives the growth warning; [generateRecommendations] on
    the result of [aggregateTransactions] gives the compliment for a
    reduction instead, because the last two elements of [meses] are then
    the two months of lowest outflow. *)
Theorem trend_reads_months_in_outflow_order :
  (forall H : Host,
     generateRecommendations (@aggregateTransactions H doisMeses)
     = [ {| rec_tipo := otimizacao; rec_titulo := tituloGastosElevados (js "moradia") |};
         {| rec_tipo := alerta; rec_titulo := tituloSaldoNegativo |};
         {| rec_tipo := oportunidade; rec_titulo := tituloReducao |} ])
  /\ tendenciaMensal (@aggregateByMonth hostLatin1 doisMeses)
     = [ {| rec_tipo := alerta; rec_titulo := tituloCrescimento |} ].
Proof.
  split.
  - intros H. unfold generateRecommendations. rewrite meses_doisMeses.
    destruct (aggregateTransactions_fields H doisMeses) as (_ & _ & -> & Ec & -> & _).
    rewrite Ec. vm_compute. reflexivity.
  - vm_compute. reflexivity.
Qed.

(* ================================================================= *)
(** ** Amounts *)

(** C3 (the code departs from it).  The claim: ["69.99"] gives 6999 and
    ["1,234.56"] gives 123456, a comma that is not a decimal separator
    being a separator of thousands.  The first holds.  On ["1,234.56"] the
    code returns 0: the string contains a comma, the branch of the comma
    finds a group of more than two characters after it and assigns
    nothing, and the branch of the period, which would remove the commas,
    is not reached.  The list of expected values in
    [testesParseFunctions] has 123456 for this input. *)
Theorem parseValorBrasileiro_comma_thousands :
  parseValorBrasileiro (js "69.99") = 6999
  /\ parseValorBrasileiro (js "1.234,56") = 123456
  /\ parseValorBrasileiro (js "1,234.56") = 0
  /\ parseValorBrasileiro (js "1,234") = 0.
Proof. repeat split; vm_compute; reflexivity. Qed.

(* ================================================================= *)
(** ** The largest outflow categories *)

Lemma byTotalDesc_sorted (l : list CategoryAggregate) :
  StronglySorted (fun a b => c_totalCentavos b <= c_totalCentavos a)
    (sortBy byTotalDesc l).
Proof.
  apply sortBy_sorted; unfold byTotalDesc; intros; lia.
Qed.

(** C2, as the code has it.  [topCategorias] is made of entries of
    [categorias] of kind [saida], entries of every level of the paths;
    it is in descending order of total, has five entries or all the
    outflow entries when they are fewer, and no outflow entry left out has
    a larger total than an entry taken. *)
Theorem topCategorias_largest_outflow_entries (H : Host)
    (transactions : list TransactionData) :
  let r := aggregateTransactions transactions in
  let saidas := filter isSaidaCategoria (r_categorias r) in
  Forall (fun e => In e (r_categorias r) /\ c_tipo e = saida) (r_topCategorias r)
  /\ StronglySorted (fun a b => c_totalCentavos b <= c_totalCentavos a)
       (r_topCategorias r)
  /\ length (r_topCategorias r) = Nat.min 5 (length saidas)
  /\ exists rest,
       Permutation (r_topCategorias r ++ rest) saidas
       /\ Forall (fun a => Forall (fun b => c_totalCentavos b <= c_totalCentavos a) rest)
            (r_topCategorias r).
Proof.
  intros r saidas.
  assert (Etop : r_topCategorias r = firstn 5 (sortBy byTotalDesc saidas)).
  { subst r saidas. apply aggregateTransactions_fields. }
  rewrite Etop. repeat split.
  - apply Forall_forall. intros e Ie.
    assert (Is : In e saidas).
    { apply (sortBy_In byTotalDesc). rewrite <- (firstn_skipn 5).
      apply in_or_app. now left. }
    subst saidas. apply filter_In in Is as [Ic Es]. split; [exact Ic|].
    unfold isSaidaCategoria in Es. destruct (c_tipo e); [discriminate | reflexivity].
  - apply StronglySorted_firstn, byTotalDesc_sorted.
  - rewrite length_firstn, sortBy_length. reflexivity.
  - exists (skipn 5 (sortBy byTotalDesc saidas)). split.
    + rewrite firstn_skipn. apply sortBy_perm.
    + apply Forall_forall. intros a Ia. apply Forall_forall. intros b Ib.
      apply (StronglySorted_app_order
               (fun a b => c_totalCentavos b <= c_totalCentavos a)
               (firstn 5 (sortBy byTotalDesc saidas))
               (skipn 5 (sortBy byTotalDesc saidas))); [|exact Ia|exact Ib].
      rewrite firstn_skipn. apply byTotalDesc_sorted.
Qed.

(** C2 (the claim as stated fails).  The claim: [topCategorias] holds only
    entries whose path is the whole path of a transaction.  On the
    transactions of [testeAggregationFunctions] it holds the entry of
    ["transporte"], an ancestor of the only path under it,
    ["transporte"; "apps"; "uber"]. *)
Lemma topCategorias_holds_ancestor_entries :
  ~ @topCategoriasOnlyFullPaths hostLatin1 transacoesTeste.
Proof.
  unfold topCategoriasOnlyFullPaths. intros Hc.
  remember (r_topCategorias (@aggregateTransactions hostLatin1 transacoesTeste))
    as top eqn:Et.
  vm_compute in Et. subst top.
  destruct (Hc _ (or_intror (or_introl eq_refl))) as [t [It E]].
  simpl in It. destruct It as [<-|[<-|[<-|[]]]]; discriminate E.
Qed.

(* ================================================================= *)
(** ** Keys of the category map *)

Lemma noSeparator_spec (s : jsstring) : noSeparator s = true <-> ~ In (ch ">") s.
Proof.
  unfold noSeparator. rewrite forallb_forall. split.
  - intros F I. specialize (F _ I). rewrite N.eqb_refl in F. discriminate.
  - intros N c I. destruct (N.eqb c (ch ">")) eqn:E; [|reflexivity].
    apply N.eqb_eq in E. subst c. contradiction.
Qed.

Lemma app_separator_inj (a b r1 r2 : jsstring) :
  ~ In (ch ">") a -> ~ In (ch ">") b ->
  a ++ js " > " ++ r1 = b ++ js " > " ++ r2 -> a = b /\ r1 = r2.
Proof.
  change (js " > ") with [32; 62; 32]%N. change (ch ">") with 62%N.
  revert b; induction a as [|x a IH]; intros [|y b] Na Nb E; simpl in *.
  - injection E as E. now split.
  - injection E as Ey E. subst y. destruct b as [|z b]; simpl in E.
    + discriminate E.
    + injection E as Ez _. subst z. exfalso. apply Nb. right. now left.
  - injection E as Ex E. subst x. destruct a as [|z a]; simpl in E.
    + discriminate E.
    + injection E as Ez _. subst z. exfalso. apply Na. right. now left.
  - injection E as Exy E. subst y.
    destruct (IH b) as [Eab Er]; try tauto. now subst.
Qed.

Lemma keyOf_cons2 (p q : jsstring) (ps : list jsstring) :
  keyOf (p :: q :: ps) = p ++ js " > " ++ keyOf (q :: ps).
Proof. reflexivity. Qed.

Lemma keyOf_has_separator (p q : jsstring) (ps : list jsstring) :
  In (ch ">") (keyOf (p :: q :: ps)).
Proof.
  rewrite keyOf_cons2. apply in_or_app. right.
  change (js " > ") with [32; 62; 32]%N. simpl. right. now left.
Qed.

Lemma keyOf_inj (p q : list jsstring) :
  p <> [] -> q <> [] ->
  forallb noSeparator p = true -> forallb noSeparator q = true ->
  keyOf p = keyOf q -> p = q.
Proof.
  revert q; induction p as [|a p IH]; intros q Np Nq Fp Fq E; [contradiction|].
  destruct q as [|b q]; [contradiction|].
  simpl in Fp, Fq. apply andb_true_iff in Fp as [Fa Fp], Fq as [Fb Fq].
  apply noSeparator_spec in Fa, Fb.
  destruct p as [|a2 p], q as [|b2 q].
  - unfold keyOf in E. simpl in E. now subst.
  - exfalso. apply Fa. change (keyOf [a]) with a in E. rewrite E.
    apply keyOf_has_separator.
  - exfalso. apply Fb. change (keyOf [b]) with b in E. rewrite <- E.
    apply keyOf_has_separator.
  - rewrite !keyOf_cons2 in E.
    destruct (app_separator_inj _ _ _ _ Fa Fb E) as [-> E'].
    f_equal. apply IH; try discriminate; assumption.
Qed.

(* ================================================================= *)
(** ** The category map, level by level *)

(** What one step of the loop over the levels writes. *)
Lemma addLevel_spec (t : TransactionData) (m : list (jsstring * CategoryAcc)) (i : nat) :
  let key := keyOf (firstn (i + 1) (t_categoriaPath t)) in
  exists v',
    addLevel t m i = map_set key v' m
    /\ a_categoriaPath v' =
         match map_get key m with
         | Some e => a_categoriaPath e
         | None => firstn (i + 1) (t_categoriaPath t)
         end
    /\ a_transactionCount v' =
         match map_get key m with Some e => a_transactionCount e | None => 0 end + 1
    /\ a_entrada v' =
         match map_get key m with Some e => a_entrada e | None => 0 end
         + valorOf entrada t
    /\ a_saida v' =
         match map_get key m with Some e => a_saida e | None => 0 end
         + valorOf saida t.
Proof.
  intros key. unfold addLevel, valorOf. fold key.
  change (join (js " > ") (firstn (i + 1) (t_categoriaPath t))) with key.
  destruct (map_get key m) as [e|]; destruct (t_tipo t);
    eexists; (split; [reflexivity|]); cbn; repeat split; lia.
Qed.

Lemma sumOver_map_set (f : CategoryAcc -> Z) (m : list (jsstring * CategoryAcc))
    (k : jsstring) (v' : CategoryAcc) :
  sumOver f (map_set k v' m) =
  sumOver f m + f v' - match map_get k m with Some v => f v | None => 0 end.
Proof.
  unfold sumOver. induction m as [|[k0 v0] m IH]; simpl; [lia|].
  destruct (String_eqb k k0); simpl; lia.
Qed.

Lemma length_firstn_level (path : list jsstring) (i : nat) :
  (i < length path)%nat -> length (firstn (i + 1) path) = (i + 1)%nat.
Proof. intros L. rewrite length_firstn. lia. Qed.

Lemma firstn_level_nonempty (path : list jsstring) (i : nat) :
  (i < length path)%nat -> firstn (i + 1) path <> [].
Proof.
  intros L E. apply (f_equal (@length _)) in E.
  rewrite length_firstn_level in E by exact L. simpl in E. lia.
Qed.

Lemma forallb_firstn {A : Type} (f : A -> bool) (n : nat) (l : list A) :
  forallb f l = true -> forallb f (firstn n l) = true.
Proof.
  rewrite !forallb_forall. intros F x I. apply F.
  rewrite <- (firstn_skipn n l). apply in_or_app. now left.
Qed.

(** The entry found under the key of a level holds the path of that level. *)
Lemma found_level_path (t : TransactionData) (m : list (jsstring * CategoryAcc))
    (i : nat) (e : CategoryAcc) :
  Forall keyOk m -> segmentsOk t = true -> (i < length (t_categoriaPath t))%nat ->
  map_get (keyOf (firstn (i + 1) (t_categoriaPath t))) m = Some e ->
  a_categoriaPath e = firstn (i + 1) (t_categoriaPath t).
Proof.
  intros K S L G. apply map_get_In in G.
  rewrite Forall_forall in K. destruct (K _ G) as (Ek & Ne & Fe). simpl in *.
  symmetry. apply keyOf_inj; try assumption.
  - now apply firstn_level_nonempty.
  - now apply forallb_firstn.
Qed.

Lemma keyOk_addLevel (t : TransactionData) (m : list (jsstring * CategoryAcc)) (i : nat) :
  Forall keyOk m -> segmentsOk t = true -> (i < length (t_categoriaPath t))%nat ->
  Forall keyOk (addLevel t m i).
Proof.
  intros K S L. destruct (addLevel_spec t m i) as (v' & -> & Ep & _).
  apply Forall_map_set; [exact K|].
  unfold keyOk; simpl. rewrite Ep.
  destruct (map_get _ m) as [e|] eqn:G.
  - rewrite (found_level_path t m i e K S L G).
    repeat split; [now apply firstn_level_nonempty | now apply forallb_firstn].
  - repeat split; [now apply firstn_level_nonempty | now apply forallb_firstn].
Qed.

Lemma nonNegative_addLevel (t : TransactionData) (m : list (jsstring * CategoryAcc)) (i : nat) :
  Forall nonNegative m -> 0 <= t_valorCentavos t -> Forall nonNegative (addLevel t m i).
Proof.
  intros P V. destruct (addLevel_spec t m i) as (v' & -> & _ & _ & Ee & Es).
  apply Forall_map_set; [exact P|].
  unfold nonNegative; simpl. rewrite Ee, Es.
  assert (0 <= valorOf entrada t /\ 0 <= valorOf saida t) as [? ?]
    by (unfold valorOf; destruct (t_tipo t); lia).
  destruct (map_get _ m) as [e|] eqn:G; [|lia].
  apply map_get_In in G. rewrite Forall_forall in P.
  destruct (P _ G) as [? ?]. simpl in *. lia.
Qed.

Lemma NoDup_addLevel (t : TransactionData) (m : list (jsstring * CategoryAcc)) (i : nat) :
  NoDup (map fst m) -> NoDup (map fst (addLevel t m i)).
Proof.
  intros ND. destruct (addLevel_spec t m i) as (v' & -> & _).
  now apply NoDup_map_set.
Qed.

Lemma countAt_addLevel (t : TransactionData) (m : list (jsstring * CategoryAcc))
    (i : nat) (k : jsstring) :
  countAt (addLevel t m i) k =
  countAt m k
  + if String_eqb k (keyOf (firstn (i + 1) (t_categoriaPath t))) then 1 else 0.
Proof.
  destruct (addLevel_spec t m i) as (v' & -> & _ & Ec & _).
  unfold countAt.
  destruct (String_eqb k _) eqn:E.
  - apply String_eqb_eq in E. subst k. rewrite map_get_set_same. exact Ec.
  - apply String_eqb_neq in E. rewrite map_get_set_other by exact E. lia.
Qed.

Lemma depth1_addLevel (kind : TipoCategoria) (t : TransactionData)
    (m : list (jsstring * CategoryAcc)) (i : nat) :
  Forall keyOk m -> segmentsOk t = true -> (i < length (t_categoriaPath t))%nat ->
  sumOver (depth1Of kind) (addLevel t m i) =
  sumOver (depth1Of kind) m + if (i =? 0)%nat then valorOf kind t else 0.
Proof.
  intros K S L. destruct (addLevel_spec t m i) as (v' & -> & Ep & _ & Ee & Es).
  rewrite sumOver_map_set. unfold depth1Of at 2 3. rewrite Ep, Ee, Es.
  destruct (map_get _ m) as [e|] eqn:G.
  - rewrite (found_level_path t m i e K S L G).
    rewrite length_firstn_level by exact L. rewrite Nat.add_1_r.
    destruct i; cbn [Nat.eqb]; destruct kind; lia.
  - rewrite length_firstn_level by exact L. rewrite Nat.add_1_r.
    destruct i; cbn [Nat.eqb]; destruct kind; lia.
Qed.

(** An induction over the loop [for (i = 0; i < path.length; i++)]. *)
Lemma levels_ind (t : TransactionData)
    (P : nat -> list (jsstring * CategoryAcc) -> Prop)
    (m : list (jsstring * CategoryAcc)) :
  P 0%nat m ->
  (forall i m', (i < length (t_categoriaPath t))%nat ->
     P i m' -> P (S i) (addLevel t m' i)) ->
  P (length (t_categoriaPath t)) (addTransaction m t).
Proof.
  intros P0 Pstep. unfold addTransaction.
  assert (G : forall n, (n <= length (t_categoriaPath t))%nat ->
            P n (fold_left (addLevel t) (seq 0 n) m)).
  { induction n as [|n IH]; intros L; [exact P0|].
    rewrite seq_S, fold_left_app. simpl. apply Pstep; [lia|]. apply IH. lia. }
  now apply G.
Qed.

(** An induction over [transactions.forEach]. *)
Lemma transactions_ind (P : list TransactionData -> list (jsstring * CategoryAcc) -> Prop) :
  P [] [] ->
  (forall ts t m, P ts m -> P (ts ++ [t]) (addTransaction m t)) ->
  forall ts, P ts (buildCategoryMap ts).
Proof.
  intros P0 Pstep ts. unfold buildCategoryMap.
  induction ts as [|t ts IH] using rev_ind; [exact P0|].
  rewrite fold_left_app. simpl. now apply Pstep.
Qed.

Lemma isWellFormed_spec (t : TransactionData) :
  isWellFormed t = true ->
  0 <= t_valorCentavos t /\ (0 < length (t_categoriaPath t))%nat /\ segmentsOk t = true.
Proof.
  unfold isWellFormed, segmentsOk. intros W.
  apply andb_true_iff in W as [W W3]. apply andb_true_iff in W as [W1 W2].
  apply Z.leb_le in W1. apply Nat.ltb_lt in W2. now repeat split.
Qed.

Lemma keys_addTransaction (t : TransactionData) (m : list (jsstring * CategoryAcc)) :
  Forall keyOk m -> NoDup (map fst m) -> segmentsOk t = true ->
  Forall keyOk (addTransaction m t) /\ NoDup (map fst (addTransaction m t)).
Proof.
  intros K ND S.
  apply (levels_ind t (fun _ m' => Forall keyOk m' /\ NoDup (map fst m'))).
  - now split.
  - intros i m' L [K' ND']. split.
    + now apply keyOk_addLevel.
    + now apply NoDup_addLevel.
Qed.

Lemma nonNegative_addTransaction (t : TransactionData) (m : list (jsstring * CategoryAcc)) :
  Forall nonNegative m -> 0 <= t_valorCentavos t ->
  Forall nonNegative (addTransaction m t).
Proof.
  intros P V. apply (levels_ind t (fun _ m' => Forall nonNegative m')).
  - exact P.
  - intros i m' _ P'. now apply nonNegative_addLevel.
Qed.

Lemma count_addTransaction (t : TransactionData) (m : list (jsstring * CategoryAcc))
    (k : jsstring) :
  countAt (addTransaction m t) k = countAt m k + levelsAt k t.
Proof.
  unfold levelsAt.
  apply (levels_ind t (fun n m' =>
    countAt m' k = countAt m k
      + Z.of_nat (length (filter
          (fun i => String_eqb k (keyOf (firstn (i + 1) (t_categoriaPath t))))
          (seq 0 n))))).
  - simpl. lia.
  - intros i m' L E. rewrite countAt_addLevel, E, seq_S, filter_app, length_app.
    simpl. destruct (String_eqb k _); simpl; lia.
Qed.

Lemma depth1_addTransaction (kind : TipoCategoria) (t : TransactionData)
    (m : list (jsstring * CategoryAcc)) :
  Forall keyOk m -> segmentsOk t = true -> (0 < length (t_categoriaPath t))%nat ->
  sumOver (depth1Of kind) (addTransaction m t) =
  sumOver (depth1Of kind) m + valorOf kind t.
Proof.
  intros K S L.
  assert (G : Forall keyOk (addTransaction m t) /\
              sumOver (depth1Of kind) (addTransaction m t) =
              sumOver (depth1Of kind) m
              + if (length (t_categoriaPath t) =? 0)%nat then 0 else valorOf kind t).
  { apply (levels_ind t (fun n m' =>
      Forall keyOk m' /\
      sumOver (depth1Of kind) m' =
      sumOver (depth1Of kind) m + if (n =? 0)%nat then 0 else valorOf kind t)).
    - split; [exact K | simpl; lia].
    - intros i m' Li [K' E]. split; [now apply keyOk_addLevel|].
      rewrite depth1_addLevel by assumption. rewrite E.
      destruct i; simpl; lia. }
  destruct G as [_ ->].
  destruct (length (t_categoriaPath t)); [lia | reflexivity].
Qed.

Lemma buildCategoryMap_keys (ts : list TransactionData) :
  forallb segmentsOk ts = true ->
  Forall keyOk (buildCategoryMap ts) /\ NoDup (map fst (buildCategoryMap ts)).
Proof.
  apply (transactions_ind (fun ts m =>
    forallb segmentsOk ts = true -> Forall keyOk m /\ NoDup (map fst m))).
  - intros _. split; constructor.
  - clear ts. intros ts t m IH S. rewrite forallb_app in S.
    apply andb_true_iff in S as [S1 S2]. simpl in S2. rewrite andb_true_r in S2.
    destruct (IH S1) as [K ND]. now apply keys_addTransaction.
Qed.

Lemma buildCategoryMap_count (ts : list TransactionData) (k : jsstring) :
  countAt (buildCategoryMap ts) k = sumZ (map (levelsAt k) ts).
Proof.
  apply (transactions_ind (fun ts m => countAt m k = sumZ (map (levelsAt k) ts))).
  - reflexivity.
  - clear ts. intros ts t m IH.
    rewrite count_addTransaction, IH, map_app, sumZ_app. simpl. lia.
Qed.

Lemma forallb_isWellFormed_segmentsOk (ts : list TransactionData) :
  forallb isWellFormed ts = true -> forallb segmentsOk ts = true.
Proof.
  rewrite !forallb_forall. intros W t I. now apply isWellFormed_spec, W.
Qed.

Lemma buildCategoryMap_depth1 (kind : TipoCategoria) (ts : list TransactionData) :
  forallb isWellFormed ts = true ->
  Forall nonNegative (buildCategoryMap ts)
  /\ sumOver (depth1Of kind) (buildCategoryMap ts) = sumZ (map (valorOf kind) ts).
Proof.
  intros W.
  enough (G : Forall keyOk (buildCategoryMap ts) /\
              Forall nonNegative (buildCategoryMap ts) /\
              sumOver (depth1Of kind) (buildCategoryMap ts)
              = sumZ (map (valorOf kind) ts)) by tauto.
  revert W.
  apply (transactions_ind (fun ts m =>
    forallb isWellFormed ts = true ->
    Forall keyOk m /\ Forall nonNegative m /\
    sumOver (depth1Of kind) m = sumZ (map (valorOf kind) ts))).
  - intros _. repeat split; constructor.
  - clear ts. intros ts t m IH W. rewrite forallb_app in W.
    apply andb_true_iff in W as [W1 W2]. simpl in W2. rewrite andb_true_r in W2.
    destruct (IH W1) as (K & P & E).
    destruct (isWellFormed_spec t W2) as (V & L & S).
    repeat split.
    + apply (levels_ind t (fun _ m' => Forall keyOk m')); [exact K|].
      intros i m' Li K'. now apply keyOk_addLevel.
    + now apply nonNegative_addTransaction.
    + rewrite depth1_addTransaction by assumption.
      rewrite E, map_app, sumZ_app. simpl. lia.
Qed.

(* ================================================================= *)
(** ** From the map to the entries of the result *)

Lemma In_emitCategory (tE tS : Z) (kv : jsstring * CategoryAcc) (e : CategoryAggregate) :
  In e (emitCategory tE tS kv) ->
  c_categoria e = fst kv
  /\ c_categoriaPath e = a_categoriaPath (snd kv)
  /\ c_transactionCount e = a_transactionCount (snd kv)
  /\ 0 < c_totalCentavos e.
Proof.
  destruct kv as [k v]. unfold emitCategory. intros I.
  apply in_app_or in I as [I|I].
  - destruct (0 <? a_entrada v) eqn:E; [|contradiction].
    apply Z.ltb_lt in E. destruct I as [<-|[]]. now repeat split.
  - destruct (0 <? a_saida v) eqn:E; [|contradiction].
    apply Z.ltb_lt in E. destruct I as [<-|[]]. now repeat split.
Qed.

Lemma In_aggregateByCategory (ts : list TransactionData) (tE tS : Z)
    (e : CategoryAggregate) :
  In e (aggregateByCategory ts tE tS) ->
  exists kv, In kv (buildCategoryMap ts) /\ In e (emitCategory tE tS kv).
Proof.
  unfold aggregateByCategory. intros I.
  apply sortBy_In in I. apply in_flat_map in I. exact I.
Qed.

(** The sum over the emitted entries of one kind and a single segment is
    the sum over the map: an entry that is not emitted holds 0. *)
Lemma sumDepth1_emit (kind : TipoCategoria) (tE tS : Z)
    (m : list (jsstring * CategoryAcc)) :
  Forall nonNegative m ->
  sumZ (map c_totalCentavos
          (filter (fun c => (length (c_categoriaPath c) =? 1)%nat
                            && sameTipo (c_tipo c) kind)
             (flat_map (emitCategory tE tS) m)))
  = sumOver (depth1Of kind) m.
Proof.
  unfold sumOver. induction 1 as [|[k v] m [Pe Ps] F IH]; [reflexivity|].
  cbn [flat_map map]. rewrite filter_app, map_app, sumZ_app, IH.
  cbn [sumZ fold_right snd]. f_equal.
  unfold emitCategory, depth1Of. simpl in Pe, Ps.
  destruct (0 <? a_entrada v) eqn:Ee; destruct (0 <? a_saida v) eqn:Es;
    try apply Z.ltb_ge in Ee; try apply Z.ltb_ge in Es;
    cbn; destruct (length (a_categoriaPath v) =? 1)%nat; destruct kind; cbn; lia.
Qed.

Lemma sumDepth1_aggregateByCategory (kind : TipoCategoria) (ts : list TransactionData)
    (tE tS : Z) :
  forallb isWellFormed ts = true ->
  sumDepth1 kind (aggregateByCategory ts tE tS) = sumZ (map (valorOf kind) ts).
Proof.
  intros W. destruct (buildCategoryMap_depth1 kind ts W) as [P E].
  unfold sumDepth1. rewrite fold_left_sum, Z.add_0_l.
  unfold aggregateByCategory.
  rewrite (sumZ_perm _ _ (Permutation_map _ (filter_perm _ _ _ (sortBy_perm _ _)))).
  rewrite sumDepth1_emit by exact P. exact E.
Qed.

Lemma total_of_kind (ts : list TransactionData) :
  fold_left (fun sum t => sum + t_valorCentavos t) (filter isEntrada ts) 0
  = sumZ (map (valorOf entrada) ts)
  /\ fold_left (fun sum t => sum + t_valorCentavos t) (filter isSaida ts) 0
    = sumZ (map (valorOf saida) ts).
Proof.
  rewrite !fold_left_sum, !Z.add_0_l.
  induction ts as [|t ts [IHe IHs]]; [now split|].
  unfold isEntrada, isSaida, valorOf in *. simpl.
  destruct (t_tipo t); simpl; split; lia.
Qed.

(** In the integers, for transactions that satisfy the invariants of the
    data model, the totals of the entries of one kind whose path has a
    single segment add up to the grand total of that kind. *)
Lemma depth1_totals_in_the_integers (H : Host) (transactions : list TransactionData) :
  forallb isWellFormed transactions = true ->
  let r := aggregateTransactions transactions in
  sumDepth1 entrada (r_categorias r) = r_totalEntradasCentavos r
  /\ sumDepth1 saida (r_categorias r) = r_totalSaidasCentavos r.
Proof.
  intros W r.
  destruct (aggregateTransactions_fields H transactions) as (Ee & Es & _ & Ec & _).
  fold r in Ee, Es, Ec. rewrite Ee, Es, Ec.
  destruct (total_of_kind transactions) as [-> ->].
  split; now apply sumDepth1_aggregateByCategory.
Qed.

(* ================================================================= *)
(** ** The count of an entry *)

Lemma count_level_eq (n a len : nat) :
  length (filter (fun i => (i + 1 =? n)%nat) (seq a len))
  = if ((a + 1 <=? n) && (n <=? a + len))%nat then 1%nat else 0%nat.
Proof.
  revert a; induction len as [|len IH]; intros a.
  - cbn [seq filter length].
    destruct (Nat.leb_spec (a + 1) n), (Nat.leb_spec n (a + 0)); simpl;
      try reflexivity; lia.
  - cbn [seq filter]. specialize (IH (S a)).
    destruct (Nat.eqb_spec (a + 1) n) as [E|E]; cbn [length]; rewrite IH;
      destruct (Nat.leb_spec (S a + 1) n), (Nat.leb_spec n (S a + len)),
               (Nat.leb_spec (a + 1) n), (Nat.leb_spec n (a + S len));
      simpl; try reflexivity; lia.
Qed.

Lemma isPrefixOf_spec (p path : list jsstring) :
  isPrefixOf p path = true <-> p = firstn (length p) path.
Proof. apply path_eqb_eq. Qed.

(** Among the levels of a path, a prefix is met once, and what is not a
    prefix is not met. *)
Lemma levelsAt_prefix (p : list jsstring) (t : TransactionData) :
  p <> [] -> forallb noSeparator p = true -> segmentsOk t = true ->
  levelsAt (keyOf p) t = if isPrefixOf p (t_categoriaPath t) then 1 else 0.
Proof.
  intros Np Fp S. unfold levelsAt.
  set (path := t_categoriaPath t).
  rewrite (filter_ext_in _
             (fun i => (i + 1 =? length p)%nat && isPrefixOf p path)%bool).
  - destruct (isPrefixOf p path) eqn:E.
    + rewrite (filter_ext _ (fun i => (i + 1 =? length p)%nat))
        by (intros i; apply andb_true_r).
      rewrite count_level_eq.
      apply isPrefixOf_spec in E.
      assert (length p <= length path)%nat.
      { rewrite E, length_firstn. lia. }
      assert (1 <= length p)%nat by (destruct p; [contradiction | simpl; lia]).
      replace (0 + 1 <=? length p)%nat with true by (symmetry; apply Nat.leb_le; lia).
      replace (length p <=? 0 + length path)%nat with true
        by (symmetry; apply Nat.leb_le; lia).
      reflexivity.
    + rewrite (filter_ext _ (fun _ => false)) by (intros i; apply andb_false_r).
      clear. induction (seq 0 (length path)); simpl; auto.
  - intros i Ii. apply in_seq in Ii. destruct Ii as [_ Li]. simpl in Li.
    destruct (String_eqb (keyOf p) (keyOf (firstn (i + 1) path))) eqn:E.
    + apply String_eqb_eq in E. apply keyOf_inj in E; try assumption.
      * symmetry. apply andb_true_iff. split.
        -- apply Nat.eqb_eq. rewrite E. now rewrite length_firstn_level.
        -- apply isPrefixOf_spec. rewrite E at 2.
           rewrite length_firstn_level by exact Li. exact E.
      * now apply firstn_level_nonempty.
      * now apply forallb_firstn.
    + symmetry. apply andb_false_iff.
      destruct (i + 1 =? length p)%nat eqn:El; [right | now left].
      apply Nat.eqb_eq in El.
      destruct (isPrefixOf p path) eqn:Ep; [|reflexivity].
      apply isPrefixOf_spec in Ep. rewrite <- El in Ep.
      rewrite <- Ep, String_eqb_refl in E. discriminate E.
Qed.

Lemma countWithPrefix_levels (p : list jsstring) (ts : list TransactionData) :
  p <> [] -> forallb noSeparator p = true -> forallb segmentsOk ts = true ->
  sumZ (map (levelsAt (keyOf p)) ts) = countWithPrefix p ts.
Proof.
  intros Np Fp. unfold countWithPrefix.
  induction ts as [|t ts IH]; intros S; [reflexivity|].
  simpl in S. apply andb_true_iff in S as [St S].
  cbn [map sumZ fold_right filter]. fold (sumZ (map (levelsAt (keyOf p)) ts)).
  rewrite IH by exact S. rewrite levelsAt_prefix by assumption.
  destruct (isPrefixOf p (t_categoriaPath t)); simpl length; lia.
Qed.

(* ================================================================= *)
(** ** The builder of transactions *)

(** The builder of [services/openai.ts].  A transaction that
    [convertToTransactionData] returns comes from a record that is not a
    payment of the bill; its [valorCentavos] is the
    absolute value of the parsed amount, so it is not negative; its [tipo]
    is [Entrada] exactly when the parsed amount is negative and [Saida]
    otherwise; and the parsed amount is recovered from [tipo] and
    [valorCentavos]. *)
Theorem convertToTransactionData_sign (H : Host) (rawTransactions : list RawTransaction)
    (t : TransactionData) :
  In t (convertToTransactionData rawTransactions) ->
  exists raw,
    In raw rawTransactions /\ isPagamentoFatura raw = false
    /\ t = toTransactionData raw
    /\ 0 <= t_valorCentavos t
    /\ t_valorCentavos t = Z.abs (parseValorBrasileiro (raw_valorOriginal raw))
    /\ (t_tipo t = Entrada <-> parseValorBrasileiro (raw_valorOriginal raw) < 0)
    /\ (t_tipo t = Saida <-> 0 <= parseValorBrasileiro (raw_valorOriginal raw))
    /\ signedValor t = parseValorBrasileiro (raw_valorOriginal raw).
Proof.
  unfold convertToTransactionData. intros I.
  apply in_map_iff in I as (raw & <- & I). apply filter_In in I as [I F].
  apply negb_true_iff in F. exists raw.
  repeat split; try assumption; try reflexivity.
  - simpl. apply Z.abs_nonneg.
  - simpl. destruct (Z.ltb_spec (parseValorBrasileiro (raw_valorOriginal raw)) 0);
      [intros _; assumption | discriminate].
  - simpl. intros L. apply Z.ltb_lt in L. now rewrite L.
  - simpl. destruct (Z.ltb_spec (parseValorBrasileiro (raw_valorOriginal raw)) 0);
      [discriminate | intros _; assumption].
  - simpl. intros L. apply Z.ltb_ge in L. now rewrite L.
  - unfold signedValor. simpl.
    destruct (Z.ltb_spec (parseValorBrasileiro (raw_valorOriginal raw)) 0); lia.
Qed.

Lemma convertToTransactionData_sign_witness :
  exists raw,
    In raw loteComFatura /\ raw_id raw = 2
    /\ t_tipo (@toTransactionData hostLatin1 raw) = Entrada
    /\ t_valorCentavos (@toTransactionData hostLatin1 raw) = 2000
    /\ signedValor (@toTransactionData hostLatin1 raw) = -2000.
Proof.
  destruct (convertToTransactionData_sign hostLatin1 loteComFatura
              (@toTransactionData hostLatin1
                 (rawDe 2 (js "-20.00") (js "Extra") (js "Estorno produto")
                    (js "16/01/2024"))))
    as (raw & I & _ & E & _ & _ & _ & _ & S).
  - vm_compute. right. left. reflexivity.
  - exists raw. rewrite <- E. split; [exact I|].
    assert (Eid : raw_id raw = 2) by (apply (f_equal t_id) in E; simpl in E; now symmetry).
    repeat split; try reflexivity. exact Eid.
Defined.








(* ================================================================= *)
(** ** Categories *)

Lemma splitOn_no_separator (sep : N -> bool) (s : jsstring) :
  forallb (fun c => negb (sep c)) s = true -> splitOn sep s = [s].
Proof.
  induction s as [|c s IH]; simpl; [reflexivity|].
  intros F. apply andb_true_iff in F as [Fc F]. apply negb_true_iff in Fc.
  now rewrite Fc, IH.
Qed.

(** C6, as the code has it.  When the chain of normalization of a string
    gives the empty string, [normalizeCategoria] returns ["outros"] if the
    string is itself empty, and the empty string if it is not; for such a
    string without separators it is [parseCategoriaPath] that falls back
    on the path [["outros"]]. *)
Theorem normalizeCategoria_empty_normalization (H : Host) (categoria : jsstring) :
  normalizeChain categoria = [] ->
  (categoria = [] -> normalizeCategoria categoria = js "outros")
  /\ (categoria <> [] ->
      normalizeCategoria categoria = []
      /\ (forallb (fun c => negb (isPathSeparator c)) categoria = true ->
          parseCategoriaPath categoria = [js "outros"])).
Proof.
  intros E. split.
  - intros ->. reflexivity.
  - intros N.
    assert (En : normalizeCategoria categoria = []).
    { unfold normalizeCategoria. destruct categoria; [contradiction | exact E]. }
    split; [exact En|].
    intros F. unfold parseCategoriaPath.
    destruct categoria as [|c r]; [contradiction|].
    cbn [isEmpty]. rewrite splitOn_no_separator by exact F.
    cbn [map]. rewrite En. reflexivity.
Qed.

Lemma normalizeCategoria_empty_normalization_witness :
  @normalizeChain hostLatin1 (js "!!") = []
  /\ @normalizeCategoria hostLatin1 (js "!!") = []
  /\ @parseCategoriaPath hostLatin1 (js "!!") = [js "outros"].
Proof.
  split; [reflexivity|].
  destruct (normalizeCategoria_empty_normalization hostLatin1 (js "!!") eq_refl)
    as [_ G].
  destruct G as [En Ep]; [discriminate|].
  split; [exact En | apply Ep; reflexivity].
Defined.

(** C6 (the claim as stated fails).  The claim: whenever the normalization
    of the input gives the empty string, [normalizeCategoria] returns
    ["outros"].  The normalization of ["!!"] is empty and
    [normalizeCategoria] returns the empty string for it. *)
Lemma normalizeCategoria_returns_empty :
  ~ (forall categoria,
       @normalizeChain hostLatin1 categoria = [] ->
       @normalizeCategoria hostLatin1 categoria = js "outros").
Proof.
  intros Hc. specialize (Hc (js "!!") eq_refl). vm_compute in Hc. discriminate Hc.
Qed.

(* ================================================================= *)
(** ** Dates *)

Lemma isDigit_cases (c : N) :
  isDigit c = true ->
  (c = 48 \/ c = 49 \/ c = 50 \/ c = 51 \/ c = 52
   \/ c = 53 \/ c = 54 \/ c = 55 \/ c = 56 \/ c = 57)%N.
Proof.
  unfold isDigit. intros D. apply andb_true_iff in D as [D1 D2].
  apply N.leb_le in D1, D2. lia.
Qed.

Lemma isDigit_facts (c : N) :
  isDigit c = true ->
  isWhiteSpace c = false
  /\ N.eqb c (ch "-") = false /\ N.eqb c (ch "+") = false
  /\ N.eqb c (ch "/") = false
  /\ N.eqb c (ch "x") = false /\ N.eqb c (ch "X") = false
  /\ decDigit c = Some (Z.of_N c - 48).
Proof.
  intros D. apply isDigit_cases in D.
  repeat destruct D as [D|D]; subst c; repeat split; reflexivity.
Qed.

Lemma trim_fixed (s : jsstring) :
  isWhiteSpace (hd 32%N s) = false -> isWhiteSpace (last s 32%N) = false ->
  trim s = s.
Proof.
  intros Hh Hl. destruct s as [|c r]; [discriminate Hh|].
  unfold trim. simpl in Hh. cbn [trimStart]. rewrite Hh.
  unfold trimEnd.
  assert (N : c :: r <> []) by discriminate.
  rewrite (app_removelast_last 32%N N) at 1.
  rewrite rev_app_distr. cbn [rev app trimStart]. rewrite Hl.
  change (last (c :: r) 32%N :: rev (removelast (c :: r)))
    with (rev [last (c :: r) 32%N] ++ rev (removelast (c :: r))).
  rewrite <- rev_app_distr, rev_involutive.
  symmetry. now apply app_removelast_last.
Qed.

Lemma isISODate_shape (s : jsstring) :
  isISODate s = true ->
  isDigit (hd 32%N s) = true /\ isDigit (last s 32%N) = true
  /\ forallb (fun c => isDigit c || N.eqb c (ch "-")) s = true.
Proof.
  unfold isISODate.
  do 11 (destruct s as [|? s]; try discriminate).
  intros E. repeat (apply andb_true_iff in E as [E ?]).
  match goal with
  | A : N.leb 48 ?x = true, B : N.leb ?x 57 = true |- _ =>
      assert (isDigit x = true) by (unfold isDigit; now rewrite A, B)
  end.
  cbn [hd last forallb]. repeat split; try assumption.
  repeat (apply andb_true_iff; split); try reflexivity;
    match goal with
    | D : isDigit ?x = true |- (isDigit ?x || _) = true => now rewrite D
    | D : N.eqb ?x _ = true |- (_ || N.eqb ?x _) = true =>
        rewrite D; apply orb_true_r
    end.
Qed.

Lemma spanDigits_app (d rest : jsstring) :
  forallb isDigit d = true -> isDigit (hd 32%N rest) = false ->
  spanDigits (d ++ rest) = (d, rest).
Proof.
  intros D R. induction d as [|c d IH]; cbn [app spanDigits].
  - destruct rest as [|x rest]; [reflexivity|]. cbn [hd] in R.
    cbn [spanDigits]. now rewrite R.
  - cbn [forallb] in D. apply andb_true_iff in D as [Dc D].
    now rewrite Dc, IH.
Qed.

Lemma spanDigits_all (d : jsstring) :
  forallb isDigit d = true -> spanDigits d = (d, []).
Proof.
  intros D. rewrite <- (app_nil_r d) at 1. now apply spanDigits_app.
Qed.

Lemma matchDate_day_first (ylo yhi : nat) (d m y : jsstring) :
  forallb isDigit d = true -> forallb isDigit m = true -> forallb isDigit y = true ->
  lengthIn 1 2 d = true -> lengthIn 1 2 m = true ->
  matchDate ylo yhi (d ++ js "/" ++ m ++ js "/" ++ y)
  = if lengthIn ylo yhi y then Some (d, m, y) else None.
Proof.
  intros Dd Dm Dy Ld Lm. unfold matchDate.
  change (js "/") with [ch "/"]. cbn [app].
  rewrite (spanDigits_app d) by (assumption || reflexivity).
  rewrite Ld. cbn [negb]. rewrite N.eqb_refl. cbn [negb].
  rewrite (spanDigits_app m) by (assumption || reflexivity).
  rewrite Lm. cbn [negb]. rewrite N.eqb_refl. cbn [negb].
  rewrite (spanDigits_all y) by assumption.
  cbn [isEmpty]. now rewrite andb_true_r.
Qed.

Lemma parseDigits_all (r : jsstring) (a : Z) :
  forallb isDigit r = true ->
  parseDigits decDigit 10 (Some a) r
  = Some (fold_left (fun acc c => acc * 10 + (Z.of_N c - 48)) r a).
Proof.
  revert a; induction r as [|c r IH]; intros a D; [reflexivity|].
  simpl in D. apply andb_true_iff in D as [Dc D].
  destruct (isDigit_facts c Dc) as (_ & _ & _ & _ & _ & _ & Ed).
  cbn [parseDigits fold_left]. rewrite Ed. now apply IH.
Qed.

Lemma parseInt_digits (s : jsstring) :
  s <> [] -> forallb isDigit s = true -> parseInt s = Some (decimalValue s).
Proof.
  intros N D. destruct s as [|c r]; [contradiction|].
  simpl in D. apply andb_true_iff in D as [Dc D].
  destruct (isDigit_facts c Dc) as (Ws & Em & Ep & _ & _ & _ & Ed).
  unfold parseInt. cbn [trimStart]. rewrite Ws, Em, Ep.
  assert (G : parseDigits decDigit 10 None (c :: r) = Some (decimalValue (c :: r))).
  { cbn [parseDigits]. rewrite Ed. rewrite parseDigits_all by exact D.
    unfold decimalValue. cbn [fold_left]. reflexivity. }
  destruct r as [|x r'].
  - now rewrite G.
  - simpl in D. apply andb_true_iff in D as [Dx _].
    destruct (isDigit_facts x Dx) as (_ & _ & _ & _ & Ex & EX & _).
    rewrite Ex, EX, andb_false_r. now rewrite G.
Qed.

Lemma lengthIn_nonempty (hi : nat) (s : jsstring) (lo : nat) :
  lengthIn (S lo) hi s = true -> s <> [].
Proof.
  unfold lengthIn. intros L ->. simpl in L. discriminate L.
Qed.

Lemma last_digit (s : jsstring) :
  s <> [] -> forallb isDigit s = true -> isDigit (last s 32%N) = true.
Proof.
  intros N D. destruct (exists_last N) as (r & l & ->).
  rewrite last_last. rewrite forallb_app in D.
  apply andb_true_iff in D as [_ D]. simpl in D. now rewrite andb_true_r in D.
Qed.

Lemma last_app_nonempty (a b : jsstring) :
  b <> [] -> last (a ++ b) 32%N = last b 32%N.
Proof.
  intros N. destruct (exists_last N) as (r & l & ->).
  now rewrite app_assoc, !last_last.
Qed.

(** The shape of a day-first date: not empty, untouched by [trim], and not
    an ISO date. *)
Lemma day_first_shape (d m y : jsstring) :
  forallb isDigit d = true -> forallb isDigit y = true ->
  lengthIn 1 2 d = true -> lengthIn 2 4 y = true ->
  let s := d ++ js "/" ++ m ++ js "/" ++ y in
  isEmpty s = false /\ trim s = s /\ isISODate s = false.
Proof.
  intros Dd Dy Ld Ly s.
  pose proof (lengthIn_nonempty _ _ _ Ld) as Nd.
  pose proof (lengthIn_nonempty _ _ _ Ly) as Ny.
  destruct d as [|c d']; [contradiction|].
  cbn [forallb] in Dd. apply andb_true_iff in Dd as [Dc Dd].
  repeat split.
  - subst s. apply trim_fixed.
    + cbn [app hd]. now apply isDigit_facts.
    + rewrite !app_assoc. rewrite last_app_nonempty by exact Ny.
      apply isDigit_facts. now apply last_digit.
  - destruct (isISODate s) eqn:E; [|reflexivity].
    apply isISODate_shape in E as (_ & _ & F).
    rewrite forallb_forall in F.
    assert (I : In (ch "/") s).
    { subst s. right. apply in_or_app. right. now left. }
    specialize (F _ I). discriminate F.
Qed.

(** C9.  [parseDateBrasileira] returns a date of the shape [YYYY-MM-DD] as
    it is.  For a day, a month and a year made of digits, of one or two,
    one or two, and two to four digits, it returns the year, the month and
    the day joined by hyphens, day and month padded with a zero to two
    digits, and a year of two digits [y] turned into [19y] when [y >= 50]
    and into [20y] otherwise.  ["15/01/2024"] gives ["2024-01-15"] and
    ["01/12/23"] gives ["2023-12-01"]. *)
Theorem parseDateBrasileira_iso_and_day_first (H : Host) :
  (forall data, isISODate data = true -> parseDateBrasileira data = data)
  /\ (forall d m y,
        forallb isDigit d = true -> forallb isDigit m = true ->
        forallb isDigit y = true ->
        lengthIn 1 2 d = true -> lengthIn 1 2 m = true -> lengthIn 2 4 y = true ->
        parseDateBrasileira (d ++ js "/" ++ m ++ js "/" ++ y)
        = expandYear y ++ js "-" ++ padStart 2 (ch "0") m
            ++ js "-" ++ padStart 2 (ch "0") d)
  /\ parseDateBrasileira (js "15/01/2024") = js "2024-01-15"
  /\ parseDateBrasileira (js "01/12/23") = js "2023-12-01".
Proof.
  assert (DayFirst : forall d m y,
        forallb isDigit d = true -> forallb isDigit m = true ->
        forallb isDigit y = true ->
        lengthIn 1 2 d = true -> lengthIn 1 2 m = true -> lengthIn 2 4 y = true ->
        parseDateBrasileira (d ++ js "/" ++ m ++ js "/" ++ y)
        = expandYear y ++ js "-" ++ padStart 2 (ch "0") m
            ++ js "-" ++ padStart 2 (ch "0") d).
  { intros d m y Dd Dm Dy Ld Lm Ly.
    destruct (day_first_shape d m y Dd Dy Ld Ly) as (Ee & Et & Ei).
    unfold parseDateBrasileira. rewrite Ee, Et, Ei.
    rewrite matchDate_day_first by assumption. rewrite Ly.
    f_equal. unfold expandYear.
    destruct (length y =? 2)%nat; [|reflexivity].
    rewrite parseInt_digits by (assumption || exact (lengthIn_nonempty _ _ _ Ly)).
    destruct (Z.ltb_spec (decimalValue y) 50), (Z.leb_spec 50 (decimalValue y));
      try reflexivity; lia. }
  split; [|split; [exact DayFirst|split]].
  - intros data E.
    destruct (isISODate_shape data E) as (Dh & Dl & _).
    unfold parseDateBrasileira.
    rewrite (trim_fixed data) by (now apply isDigit_facts).
    rewrite E. destruct data; [discriminate E | reflexivity].
  - apply (DayFirst (js "15") (js "01") (js "2024")); reflexivity.
  - apply (DayFirst (js "01") (js "12") (js "23")); reflexivity.
Qed.

Lemma parseDateBrasileira_iso_and_day_first_witness :
  @parseDateBrasileira hostLatin1 (js "2024-01-15") = js "2024-01-15"
  /\ @parseDateBrasileira hostLatin1 (js "1/2/99") = js "1999-02-01"
  /\ @parseDateBrasileira hostLatin1 (js "7/11/49") = js "2049-11-07".
Proof.
  destruct (parseDateBrasileira_iso_and_day_first hostLatin1) as (Iso & DayFirst & _).
  split; [apply Iso; reflexivity|]. split.
  - apply (DayFirst (js "1") (js "2") (js "99")); reflexivity.
  - apply (DayFirst (js "7") (js "11") (js "49")); reflexivity.
Defined.

(* ================================================================= *)
(** ** The transactions of the builder satisfy the invariants *)

Lemma In_trimStart (c : N) (s : jsstring) : In c (trimStart s) -> In c s.
Proof.
  induction s as [|x s IH]; simpl; [tauto|].
  destruct (isWhiteSpace x); [intros I; right; now apply IH | tauto].
Qed.

Lemma In_trim (c : N) (s : jsstring) : In c (trim s) -> In c s.
Proof.
  unfold trim, trimEnd. intros I.
  apply in_rev, In_trimStart, in_rev in I. now apply In_trimStart.
Qed.

Lemma In_collapseSpaces (c : N) (s : jsstring) :
  In c (collapseSpaces s) -> c = ch " " \/ In c s.
Proof.
  induction s as [|x s IH]; cbn [collapseSpaces]; [tauto|].
  destruct (isWhiteSpace x).
  - destruct s as [|d s'].
    + intros [<-|[]]. now left.
    + destruct (isWhiteSpace d).
      * intros I. destruct (IH I) as [E|I']; [now left | right; now right].
      * intros [<-|I]; [now left|].
        destruct (IH I) as [E|I']; [now left | right; now right].
  - intros [<-|I]; [right; now left|].
    destruct (IH I) as [E|I']; [now left | right; now right].
Qed.

Lemma noSeparator_normalizeCategoria (H : Host) (categoria : jsstring) :
  noSeparator (normalizeCategoria categoria) = true.
Proof.
  unfold normalizeCategoria. destruct (isEmpty categoria); [reflexivity|].
  unfold normalizeChain, noSeparator. apply forallb_forall. intros c I.
  apply In_trim, In_collapseSpaces in I. destruct I as [->|I]; [reflexivity|].
  apply filter_In in I as [_ K].
  destruct (N.eqb_spec c (ch ">")) as [->|]; [discriminate K | reflexivity].
Qed.

Lemma parseCategoriaPath_wellFormed (H : Host) (categoria : jsstring) :
  (0 < length (parseCategoriaPath categoria))%nat
  /\ forallb noSeparator (parseCategoriaPath categoria) = true.
Proof.
  unfold parseCategoriaPath. destruct (isEmpty categoria); [split; [simpl; lia | reflexivity]|].
  set (partes := filter _ _).
  destruct (0 <? length partes)%nat eqn:E; [|split; [simpl; lia | reflexivity]].
  apply Nat.ltb_lt in E. split; [exact E|].
  apply forallb_forall. intros p I. subst partes.
  apply filter_In in I as [I _]. apply in_map_iff in I as (piece & <- & _).
  apply noSeparator_normalizeCategoria.
Qed.

(** Every transaction that the builder returns has an amount that is not
    negative and a path of at least one segment, whose segments are free
    of the separator: the hypotheses of the properties of the aggregation
    hold for the batches that the application aggregates. *)
Lemma convertToTransactionData_wellFormed (H : Host) (raws : list RawTransaction) :
  forallb isWellFormed (convertToTransactionData raws) = true.
Proof.
  apply forallb_forall. intros t I. unfold convertToTransactionData in I.
  apply in_map_iff in I as (raw & <- & _).
  destruct (parseCategoriaPath_wellFormed H (raw_categoria raw)) as [L F].
  unfold isWellFormed. cbn [t_valorCentavos t_categoriaPath toTransactionData].
  rewrite F, andb_true_r. apply andb_true_iff. split.
  - apply Z.leb_le, Z.abs_nonneg.
  - now apply Nat.ltb_lt.
Qed.

(* ================================================================= *)
(** ** The trend after the months were sorted by outflow *)

Lemma addToMonth_nonNegative (m : list (jsstring * MonthAcc)) (t : TransactionData) :
  Forall (fun kv => 0 <= ma_saidas (snd kv)) m -> 0 <= t_valorCentavos t ->
  Forall (fun kv => 0 <= ma_saidas (snd kv)) (addToMonth m t).
Proof.
  intros P V. unfold addToMonth. apply Forall_map_set; [exact P|].
  set (existing := match map_get (substring0 7 (t_data t)) m with
                   | Some e => e
                   | None => {| ma_entradas := 0; ma_saidas := 0; ma_count := 0 |}
                   end).
  assert (E : 0 <= ma_saidas existing).
  { subst existing. destruct (map_get _ m) as [e|] eqn:G; [|simpl; lia].
    apply map_get_In in G. rewrite Forall_forall in P. now apply (P _ G). }
  clearbody existing. destruct (t_tipo t); cbn [snd ma_saidas]; lia.
Qed.

Lemma aggregateByMonth_nonNegative (H : Host) (ts : list TransactionData) :
  forallb isWellFormed ts = true ->
  Forall (fun m => 0 <= m_saidasCentavos m) (aggregateByMonth ts).
Proof.
  intros W. unfold aggregateByMonth.
  eapply Permutation_Forall; [symmetry; apply sortBy_perm|].
  apply Forall_map.
  assert (G : forall m0, Forall (fun kv => 0 <= ma_saidas (snd kv)) m0 ->
              Forall (fun kv => 0 <= ma_saidas (snd kv)) (fold_left addToMonth ts m0)).
  { induction ts as [|t ts IH]; intros m0 P; [exact P|].
    simpl in W. apply andb_true_iff in W as [Wt W].
    simpl. apply IH; [exact W|].
    apply addToMonth_nonNegative; [exact P | now apply isWellFormed_spec]. }
  eapply Forall_impl; [|apply G; constructor].
  intros [k v]. simpl. tauto.
Qed.

Lemma crescimento_not_above (ultimo penultimo : Z) :
  0 <= ultimo <= penultimo -> numGt (crescimento ultimo penultimo) 15 = false.
Proof.
  intros [L0 L1]. unfold crescimento.
  destruct (Z.eqb_spec penultimo 0) as [->|Np].
  - assert (ultimo = 0) by lia. subst. reflexivity.
  - unfold numGt. apply negb_false_iff, Qle_bool_iff.
    destruct penultimo as [|pp|pp]; try lia.
    unfold Qle, Qmult, Qdiv, Qinv, inject_Z. simpl. lia.
Qed.

(** With amounts that are not negative, the recommendations computed from
    a result of [aggregateTransactions] never hold the warning of growth:
    the trend rule reads the two months of lowest outflow, and the last is
    not above the one before it. *)
Lemma trend_never_reports_growth (H : Host) (ts : list TransactionData) :
  forallb isWellFormed ts = true ->
  ~ In {| rec_tipo := alerta; rec_titulo := tituloCrescimento |}
       (generateRecommendations (aggregateTransactions ts)).
Proof.
  intros W I. unfold generateRecommendations in I.
  set (r := aggregateTransactions ts) in *.
  assert (In {| rec_tipo := alerta; rec_titulo := tituloCrescimento |}
            (tendenciaMensal (r_meses r))) as It.
  { match type of I with In _ (firstn 3 ?l) =>
      assert (Il : In {| rec_tipo := alerta; rec_titulo := tituloCrescimento |} l)
        by (rewrite <- (firstn_skipn 3 l); apply in_or_app; now left)
    end.
    clear I. apply in_app_or in Il as [Il|Il]; [|exact Il]. exfalso.
    destruct (0 <? r_saldoCentavos r);
      apply in_app_or in Il as [Il|Il];
      try (destruct Il as [Il|[]]; discriminate Il);
      destruct (r_topCategorias r) as [|g ?]; try contradiction;
      destruct (negb (Qle_bool (c_percentual g) 40)); try contradiction;
      destruct Il as [Il|[]]; discriminate Il. }
  subst r.
  destruct (aggregateTransactions_fields H ts) as (_ & _ & _ & _ & _ & Em).
  rewrite Em in It. clear Em.
  set (l := sortBy bySaidasDesc (aggregateByMonth ts)) in *.
  assert (S : StronglySorted (fun a b => m_saidasCentavos b <= m_saidasCentavos a) l).
  { apply sortBy_sorted; unfold bySaidasDesc; intros; lia. }
  assert (P : Forall (fun m => 0 <= m_saidasCentavos m) l).
  { eapply Permutation_Forall; [symmetry; apply sortBy_perm|].
    now apply aggregateByMonth_nonNegative. }
  unfold tendenciaMensal in It.
  destruct (2 <=? length l)%nat eqn:L2; [|contradiction].
  apply Nat.leb_le in L2.
  destruct (nth_error l (length l - 1)) as [u|] eqn:Eu; [|contradiction].
  destruct (nth_error l (length l - 2)) as [p|] eqn:Ep; [|contradiction].
  assert (Lup : m_saidasCentavos u <= m_saidasCentavos p).
  { apply (StronglySorted_nth _ _ S (length l - 2)%nat (length l - 1)%nat p u);
      [lia | assumption | assumption]. }
  assert (Pu : 0 <= m_saidasCentavos u).
  { rewrite Forall_forall in P. eapply P, nth_error_In, Eu. }
  rewrite crescimento_not_above in It by lia.
  destruct (numLt _ _); [|contradiction].
  destruct It as [It|[]]. discriminate It.
Qed.

(* ================================================================= *)
(** ** The test tables of the source, on the embedding *)

(** The amounts of [testesParseFunctions], but for ["1,234.56"]. *)
Example testesValores :
  map parseValorBrasileiro
    [js "1.234,56"; js "R$ 99,90"; js "(100,00)"; js "-500,75"; js "1234";
     js "R$ 1.500"; js "69.99"; js "15.99"; js "379.00"; js "-20.50"]
  = [123456; 9990; -10000; -50075; 123400; 150000; 6999; 1599; 37900; -2050].
Proof. vm_compute. reflexivity. Qed.

(** The dates of [testesParseFunctions]. *)
Example testesDatas :
  map (@parseDateBrasileira hostLatin1)
    [js "15/01/2024"; js "2024-01-15"; js "01/12/23"]
  = [js "2024-01-15"; js "2024-01-15"; js "2023-12-01"].
Proof. vm_compute. reflexivity. Qed.

(** The categories of [testesParseFunctions]. *)
Example testesCategorias :
  @normalizeCategoria hostLatin1 alimentacaoRaw = js "alimentacao"
  /\ @parseCategoriaPath hostLatin1 (js "Transporte > Apps > Uber")
     = [js "transporte"; js "apps"; js "uber"]
  /\ @normalizeCategoria hostLatin1 (js "  MORADIA  ") = js "moradia".
Proof. repeat split; vm_compute; reflexivity. Qed.

(** The expectations of [testeAgregacaoCompleta]. *)
Example testeAgregacaoCompleta :
  let aggregation := @aggregateTransactions hostLatin1 transacoesMistas in
  r_totalEntradasCentavos aggregation = 2000
  /\ r_totalSaidasCentavos aggregation = 130000
  /\ r_saldoCentavos aggregation = -128000
  /\ map (fun c => (c_categoria c, c_tipo c, c_totalCentavos c, c_transactionCount c))
       (r_categorias aggregation)
     = [ (js "moradia", saida, 120000, 1);
         (js "alimentacao", saida, 10000, 2);
         (js "alimentacao", entrada, 2000, 2) ].
Proof. vm_compute. repeat split; reflexivity. Qed.

(* ================================================================= *)
(** ** A comma that is not followed by one or two characters *)

Lemma filter_all {A : Type} (f : A -> bool) (l : list A) :
  forallb f l = true -> filter f l = l.
Proof.
  induction l as [|x l IH]; simpl; [reflexivity|].
  intros F. apply andb_true_iff in F as [Fx F]. now rewrite Fx, IH.
Qed.

Lemma removeCurrency_plain (s : jsstring) :
  forallb isPlainValorChar s = true -> removeCurrency s = s.
Proof.
  induction s as [|c s IH]; [reflexivity|].
  cbn [forallb removeCurrency]. intros F. apply andb_true_iff in F as [Fc F].
  destruct (N.eqb_spec c (ch "R")) as [->|_]; [discriminate Fc|].
  now rewrite IH.
Qed.

Lemma isPlainValorChar_isValorChar (s : jsstring) :
  forallb isPlainValorChar s = true -> forallb isValorChar s = true.
Proof.
  rewrite !forallb_forall. intros F c I. specialize (F c I).
  unfold isPlainValorChar in F. unfold isValorChar.
  destruct (isDigit c); [reflexivity|].
  destruct (N.eqb c (ch ".")); destruct (N.eqb c (ch ",")); simpl in *;
    try reflexivity; try discriminate; now rewrite ?orb_true_r.
Qed.

Lemma includes_In (c : N) (s : jsstring) : In c s -> includes [c] s = true.
Proof.
  induction s as [|x s IH]; [contradiction|].
  intros [->|I]; cbn [includes startsWith].
  - now rewrite N.eqb_refl.
  - rewrite (IH I). apply orb_true_r.
Qed.

Lemma splitOn_app (sep : N -> bool) (a r : jsstring) (c : N) :
  forallb (fun x => negb (sep x)) a = true -> sep c = true ->
  splitOn sep (a ++ c :: r) = a :: splitOn sep r.
Proof.
  intros Fa Sc. induction a as [|x a IH]; cbn [app splitOn].
  - now rewrite Sc.
  - cbn [forallb] in Fa. apply andb_true_iff in Fa as [Fx Fa].
    apply negb_true_iff in Fx. now rewrite Fx, IH.
Qed.

(** An amount written with digits and periods around one comma, the comma
    followed by more than two characters, is parsed as 0: such are the
    amounts with a comma for the thousands, ["1,234.56"] and ["1,234"]. *)
Lemma comma_before_long_group_yields_zero (a b : jsstring) :
  forallb (fun c => isDigit c || N.eqb c (ch ".")) a = true ->
  forallb (fun c => isDigit c || N.eqb c (ch ".")) b = true ->
  isDigit (hd 32%N a) = true -> isDigit (last b 32%N) = true ->
  (2 < length b)%nat ->
  parseValorBrasileiro (a ++ js "," ++ b) = 0.
Proof.
  intros Fa Fb Ha Hb Lb.
  assert (Nb : b <> []) by (intros ->; simpl in Lb; lia).
  destruct a as [|c a']; [discriminate Ha|]. cbn [hd] in Ha.
  destruct (isDigit_facts c Ha) as (Wc & Mc & _).
  assert (NoComma : forall l,
            forallb (fun c => isDigit c || N.eqb c (ch ".")) l = true ->
            forallb (fun x => negb (N.eqb (ch ",") x)) l = true
            /\ forallb isPlainValorChar l = true).
  { intros l F. rewrite !forallb_forall in *. split; intros x I;
      specialize (F x I); unfold isPlainValorChar.
    - destruct (N.eqb_spec (ch ",") x) as [<-|]; [discriminate F | reflexivity].
    - now rewrite F. }
  destruct (NoComma _ Fa) as [Ca Pa]. destruct (NoComma _ Fb) as [Cb Pb].
  set (s := (c :: a') ++ js "," ++ b).
  assert (Plain : forallb isPlainValorChar s = true).
  { subst s. rewrite !forallb_app, Pa, Pb. reflexivity. }
  assert (Trim : trim s = s).
  { apply trim_fixed.
    - exact Wc.
    - subst s. rewrite app_assoc, last_app_nonempty by exact Nb.
      now apply isDigit_facts. }
  assert (Split : split (ch ",") s = [c :: a'; b]).
  { subst s. unfold split. change (js ",") with [ch ","]. cbn [app].
    change (c :: a' ++ ch "," :: b) with ((c :: a') ++ ch "," :: b).
    rewrite splitOn_app by (exact Ca || apply N.eqb_refl).
    now rewrite splitOn_no_separator. }
  assert (Inc : includes (js ",") s = true).
  { apply includes_In. subst s. apply in_or_app. right. now left. }
  assert (Paren : startsWith (js "(") s = false).
  { subst s. change (js "(") with [40%N]. cbn -[N.eqb].
    destruct (N.eqb_spec 40 c) as [<-|]; [discriminate Ha | reflexivity]. }
  assert (Minus : startsWith (js "-") s = false).
  { subst s. change (js "-") with [45%N]. cbn -[N.eqb].
    destruct (N.eqb_spec 45 c) as [<-|]; [discriminate Ha | reflexivity]. }
  unfold parseValorBrasileiro. fold s.
  replace (isEmpty s) with false by reflexivity.
  rewrite Trim, Paren. cbn [andb].
  rewrite removeCurrency_plain by exact Plain.
  rewrite filter_all by (now apply isPlainValorChar_isValorChar).
  rewrite Trim, Minus. cbn [orb]. rewrite Inc, Split.
  replace (length b <=? 2)%nat with false by (symmetry; apply Nat.leb_gt; lia).
  reflexivity.
Qed.

(* ================================================================= *)
(** ** The total of an entry of [categorias] *)

Lemma amountAt_addLevel (kind : TipoCategoria) (t : TransactionData)
    (m : list (jsstring * CategoryAcc)) (i : nat) (k : jsstring) :
  amountAt kind (addLevel t m i) k =
  amountAt kind m k
  + if String_eqb k (keyOf (firstn (i + 1) (t_categoriaPath t)))
    then valorOf kind t else 0.
Proof.
  destruct (addLevel_spec t m i) as (v' & -> & _ & _ & Ee & Es).
  unfold amountAt.
  destruct (String_eqb k _) eqn:E.
  - apply String_eqb_eq in E. subst k. rewrite map_get_set_same.
    unfold amountOf. destruct kind; [rewrite Ee | rewrite Es];
      destruct (map_get _ m); reflexivity.
  - apply String_eqb_neq in E. rewrite map_get_set_other by exact E. lia.
Qed.

Lemma amountAt_addTransaction (kind : TipoCategoria) (t : TransactionData)
    (m : list (jsstring * CategoryAcc)) (k : jsstring) :
  amountAt kind (addTransaction m t) k
  = amountAt kind m k + valorOf kind t * levelsAt k t.
Proof.
  unfold levelsAt.
  apply (levels_ind t (fun n m' =>
    amountAt kind m' k = amountAt kind m k
      + valorOf kind t * Z.of_nat (length (filter
          (fun i => String_eqb k (keyOf (firstn (i + 1) (t_categoriaPath t))))
          (seq 0 n))))).
  - simpl. lia.
  - intros i m' L E. rewrite amountAt_addLevel, E, seq_S, filter_app, length_app.
    simpl. destruct (String_eqb k _); simpl length; lia.
Qed.

Lemma amountAt_buildCategoryMap (kind : TipoCategoria) (ts : list TransactionData)
    (k : jsstring) :
  amountAt kind (buildCategoryMap ts) k
  = sumZ (map (fun t => valorOf kind t * levelsAt k t) ts).
Proof.
  apply (transactions_ind (fun ts m =>
    amountAt kind m k = sumZ (map (fun t => valorOf kind t * levelsAt k t) ts))).
  - reflexivity.
  - clear ts. intros ts t m IH.
    rewrite amountAt_addTransaction, IH, map_app, sumZ_app. simpl. lia.
Qed.

Lemma valorWithPrefix_levels (kind : TipoCategoria) (p : list jsstring)
    (ts : list TransactionData) :
  p <> [] -> forallb noSeparator p = true -> forallb segmentsOk ts = true ->
  sumZ (map (fun t => valorOf kind t * levelsAt (keyOf p) t) ts)
  = valorWithPrefix kind p ts.
Proof.
  intros Np Fp. unfold valorWithPrefix.
  induction ts as [|t ts IH]; intros S; [reflexivity|].
  cbn [forallb] in S. apply andb_true_iff in S as [St S].
  cbn [map sumZ fold_right].
  fold (sumZ (map (fun t => valorOf kind t * levelsAt (keyOf p) t) ts)).
  fold (sumZ (map (fun t => if isPrefixOf p (t_categoriaPath t)
                            then valorOf kind t else 0) ts)).
  rewrite IH by exact S. rewrite levelsAt_prefix by assumption.
  destruct (isPrefixOf p (t_categoriaPath t)); lia.
Qed.

(** What [categoryMap.forEach] pushes, read from the entry pushed. *)
Lemma In_emitCategory_amount (tE tS : Z) (kv : jsstring * CategoryAcc)
    (e : CategoryAggregate) :
  In e (emitCategory tE tS kv) ->
  c_totalCentavos e = amountOf (c_tipo e) (snd kv)
  /\ c_percentual e
     = percentualOf (c_totalCentavos e)
         (match c_tipo e with entrada => tE | saida => tS end).
Proof.
  destruct kv as [k v]. unfold emitCategory. intros I.
  apply in_app_or in I as [I|I].
  - destruct (0 <? a_entrada v); [|contradiction].
    destruct I as [<-|[]]. now split.
  - destruct (0 <? a_saida v); [|contradiction].
    destruct I as [<-|[]]. now split.
Qed.

(** The entries of [categorias], read back to the map they come from. *)
Lemma categorias_from_map (H : Host) (ts : list TransactionData) (e : CategoryAggregate) :
  forallb segmentsOk ts = true ->
  In e (r_categorias (aggregateTransactions ts)) ->
  c_categoria e = keyOf (c_categoriaPath e)
  /\ c_categoriaPath e <> []
  /\ forallb noSeparator (c_categoriaPath e) = true
  /\ 0 < c_totalCentavos e
  /\ c_totalCentavos e = valorWithPrefix (c_tipo e) (c_categoriaPath e) ts.
Proof.
  intros S Ie.
  destruct (aggregateTransactions_fields H ts) as (_ & _ & _ & Ec & _).
  rewrite Ec in Ie. clear Ec.
  apply In_aggregateByCategory in Ie as ([k v] & Im & Ie).
  pose proof (In_emitCategory_amount _ _ _ _ Ie) as [Et _].
  apply In_emitCategory in Ie as (Ek & Ep & _ & Pos). simpl in Ek, Ep, Et.
  destruct (buildCategoryMap_keys ts S) as [K ND].
  rewrite Forall_forall in K. destruct (K _ Im) as (Ekey & Nv & Fv). simpl in *.
  rewrite Ep, Ek. repeat split; try assumption.
  rewrite Et, <- valorWithPrefix_levels by assumption.
  rewrite <- amountAt_buildCategoryMap, <- Ekey. unfold amountAt.
  now rewrite (In_map_get _ _ _ ND Im).
Qed.



Lemma valorWithPrefix_positive (kind : TipoCategoria) (p : list jsstring)
    (ts : list TransactionData) :
  0 < valorWithPrefix kind p ts ->
  exists t, In t ts /\ isPrefixOf p (t_categoriaPath t) = true.
Proof.
  unfold valorWithPrefix. induction ts as [|t ts IH]; simpl; [lia|].
  destruct (isPrefixOf p (t_categoriaPath t)) eqn:E.
  - intros _. exists t. split; [now left | exact E].
  - intros P. destruct IH as (t' & I & E'); [unfold sumZ in *; lia|].
    exists t'. split; [now right | exact E'].
Qed.

Lemma In_emitCategory_of_kind (tE tS : Z) (k : jsstring) (v : CategoryAcc)
    (kind : TipoCategoria) :
  0 < amountOf kind v ->
  exists e, In e (emitCategory tE tS (k, v))
            /\ c_categoriaPath e = a_categoriaPath v /\ c_tipo e = kind
            /\ c_totalCentavos e = amountOf kind v
            /\ forall e', In e' (emitCategory tE tS (k, v)) -> c_tipo e' = kind -> e' = e.
Proof.
  intros P. unfold emitCategory. destruct kind; simpl in P.
  - apply Z.ltb_lt in P. rewrite P. eexists. split; [left; reflexivity|].
    repeat split. intros e' [<-|I] T; [reflexivity|]. exfalso.
    destruct (0 <? a_saida v); [|contradiction].
    destruct I as [<-|[]]. discriminate T.
  - apply Z.ltb_lt in P. rewrite P. eexists. split.
    { apply in_or_app. right. left. reflexivity. }
    repeat split. intros e' I T. apply in_app_or in I as [I|I].
    + exfalso. destruct (0 <? a_entrada v); [|contradiction].
      destruct I as [<-|[]]. discriminate T.
    + destruct I as [<-|[]]. reflexivity.
Qed.



Lemma isPrefixOf_trans (p q r : list jsstring) :
  isPrefixOf p q = true -> isPrefixOf q r = true -> isPrefixOf p r = true.
Proof.
  rewrite !isPrefixOf_spec. intros Epq Eqr.
  assert (L : (length p <= length q)%nat).
  { rewrite Epq, length_firstn. lia. }
  rewrite Epq at 1. rewrite Eqr at 1.
  rewrite firstn_firstn. f_equal. lia.
Qed.

Lemma valorWithPrefix_antitone (kind : TipoCategoria) (p q : list jsstring)
    (ts : list TransactionData) :
  forallb isWellFormed ts = true -> isPrefixOf p q = true ->
  valorWithPrefix kind q ts <= valorWithPrefix kind p ts.
Proof.
  intros W Epq. unfold valorWithPrefix.
  induction ts as [|t ts IH]; [simpl; lia|].
  cbn [forallb] in W. apply andb_true_iff in W as [Wt W].
  cbn [map sumZ fold_right]. specialize (IH W). unfold sumZ in IH.
  destruct (isWellFormed_spec t Wt) as (V & _ & _).
  assert (0 <= valorOf kind t) by (unfold valorOf; destruct kind, (t_tipo t); lia).
  destruct (isPrefixOf q (t_categoriaPath t)) eqn:Eq.
  - rewrite (isPrefixOf_trans _ _ _ Epq Eq). lia.
  - destruct (isPrefixOf p (t_categoriaPath t)); lia.
Qed.

(** X3.  For transactions that satisfy the invariants of the data model,
    the total of an entry is at least the total of every entry of the same
    kind further down its path: a category is never below one of its
    subcategories. *)
Theorem ancestor_total_at_least_descendant (H : Host)
    (transactions : list TransactionData) (e1 e2 : CategoryAggregate) :
  forallb isWellFormed transactions = true ->
  In e1 (r_categorias (aggregateTransactions transactions)) ->
  In e2 (r_categorias (aggregateTransactions transactions)) ->
  c_tipo e1 = c_tipo e2 ->
  isPrefixOf (c_categoriaPath e1) (c_categoriaPath e2) = true ->
  c_totalCentavos e2 <= c_totalCentavos e1.
Proof.
  intros W I1 I2 T P.
  pose proof (forallb_isWellFormed_segmentsOk _ W) as S.
  destruct (categorias_from_map H transactions e1 S I1) as (_ & _ & _ & _ & ->).
  destruct (categorias_from_map H transactions e2 S I2) as (_ & _ & _ & _ & ->).
  rewrite T. now apply valorWithPrefix_antitone.
Qed.

Lemma ancestor_total_at_least_descendant_witness :
  exists e1 e2,
    c_categoriaPath e1 = [js "transporte"]
    /\ c_categoriaPath e2 = [js "transporte"; js "apps"; js "uber"]
    /\ c_totalCentavos e2 <= c_totalCentavos e1.
Proof.
  destruct (nth_error (r_categorias (@aggregateTransactions hostLatin1 transacoesTeste)) 2)
    as [e1|] eqn:N1; [|vm_compute in N1; discriminate N1].
  destruct (nth_error (r_categorias (@aggregateTransactions hostLatin1 transacoesTeste)) 4)
    as [e2|] eqn:N2; [|vm_compute in N2; discriminate N2].
  exists e1, e2.
  assert (P1 : c_categoriaPath e1 = [js "transporte"] /\ c_tipo e1 = saida).
  { vm_compute in N1. injection N1 as <-. split; reflexivity. }
  assert (P2 : c_categoriaPath e2 = [js "transporte"; js "apps"; js "uber"]
               /\ c_tipo e2 = saida).
  { vm_compute in N2. injection N2 as <-. split; reflexivity. }
  destruct P1 as [P1 T1]. destruct P2 as [P2 T2].
  split; [exact P1|]. split; [exact P2|].
  apply (ancestor_total_at_least_descendant hostLatin1 transacoesTeste e1 e2).
  - reflexivity.
  - eapply nth_error_In, N1.
  - eapply nth_error_In, N2.
  - now rewrite T1, T2.
  - rewrite P1, P2. reflexivity.
Defined.

(** X4.  Whatever the transactions, [categorias] is in descending order
    of [totalCentavos] and holds no entry with a total of zero or below:
    a kind without amount under a key gets no entry. *)
Theorem categorias_descending_and_positive (H : Host)
    (transactions : list TransactionData) :
  StronglySorted (fun a b => c_totalCentavos b <= c_totalCentavos a)
    (r_categorias (aggregateTransactions transactions))
  /\ Forall (fun e => 0 < c_totalCentavos e)
       (r_categorias (aggregateTransactions transactions)).
Proof.
  destruct (aggregateTransactions_fields H transactions) as (_ & _ & _ & -> & _).
  split.
  - unfold aggregateByCategory. apply byTotalDesc_sorted.
  - apply Forall_forall. intros e Ie.
    apply In_aggregateByCategory in Ie as (kv & _ & Ie).
    now apply In_emitCategory in Ie.
Qed.

Lemma valorWithPrefix_le_total (kind : TipoCategoria) (p : list jsstring)
    (ts : list TransactionData) :
  forallb isWellFormed ts = true ->
  valorWithPrefix kind p ts <= sumZ (map (valorOf kind) ts).
Proof.
  intros W. unfold valorWithPrefix.
  induction ts as [|t ts IH]; [simpl; lia|].
  cbn [forallb] in W. apply andb_true_iff in W as [Wt W].
  cbn [map sumZ fold_right]. specialize (IH W). unfold sumZ in IH.
  destruct (isWellFormed_spec t Wt) as (V & _ & _).
  assert (0 <= valorOf kind t) by (unfold valorOf; destruct kind, (t_tipo t); lia).
  destruct (isPrefixOf p (t_categoriaPath t)); lia.
Qed.

Lemma percentualOf_bounds (part total : Z) :
  0 < part <= total ->
  (0 < percentualOf part total)%Q /\ (percentualOf part total <= 100)%Q.
Proof.
  intros [P L]. unfold percentualOf.
  replace (0 <? total) with true by (symmetry; apply Z.ltb_lt; lia).
  destruct total as [|tp|tp]; try lia.
  unfold Qlt, Qle, Qmult, Qdiv, Qinv, inject_Z. simpl. split; nia.
Qed.

(** X5.  For transactions that satisfy the invariants of the data model,
    the [percentual] of every entry of [categorias], taken as an exact
    quotient, is above 0 and at most 100. *)
Theorem percentual_between_0_and_100 (H : Host) (transactions : list TransactionData) :
  forallb isWellFormed transactions = true ->
  Forall (fun e => (0 < c_percentual e)%Q /\ (c_percentual e <= 100)%Q)
    (r_categorias (aggregateTransactions transactions)).
Proof.
  intros W. pose proof (forallb_isWellFormed_segmentsOk _ W) as S.
  apply Forall_forall. intros e Ie.
  destruct (categorias_from_map H transactions e S Ie) as (_ & _ & _ & Pos & Et).
  destruct (aggregateTransactions_fields H transactions) as (_ & _ & _ & Ec & _).
  rewrite Ec in Ie. clear Ec.
  apply In_aggregateByCategory in Ie as (kv & _ & Ie).
  apply In_emitCategory_amount in Ie as [_ ->].
  apply percentualOf_bounds. split; [exact Pos|].
  rewrite Et. destruct (total_of_kind transactions) as [-> ->].
  destruct (c_tipo e); now apply valorWithPrefix_le_total.
Qed.

Lemma percentual_between_0_and_100_witness :
  forallb isWellFormed transacoesMistas = true
  /\ Forall (fun e => (0 < c_percentual e)%Q /\ (c_percentual e <= 100)%Q)
       (r_categorias (@aggregateTransactions hostLatin1 transacoesMistas)).
Proof.
  split; [reflexivity|].
  apply (percentual_between_0_and_100 hostLatin1 transacoesMistas). reflexivity.
Defined.

(* ================================================================= *)
(** ** The months of the aggregation *)

Lemma sumValues_map_set {V : Type} (f : V -> Z) (m : list (jsstring * V))
    (k : jsstring) (v' : V) :
  sumValues f (map_set k v' m)
  = sumValues f m + f v' - match map_get k m with Some v => f v | None => 0 end.
Proof.
  unfold sumValues. induction m as [|[k0 v0] m IH]; simpl; [lia|].
  destruct (String_eqb k k0); simpl; lia.
Qed.

Lemma sumValues_addToMonth (m : list (jsstring * MonthAcc)) (t : TransactionData) :
  sumValues ma_entradas (addToMonth m t) = sumValues ma_entradas m + valorOf entrada t
  /\ sumValues ma_saidas (addToMonth m t) = sumValues ma_saidas m + valorOf saida t
  /\ sumValues ma_count (addToMonth m t) = sumValues ma_count m + 1.
Proof.
  unfold addToMonth. rewrite !sumValues_map_set. unfold valorOf.
  destruct (map_get _ m) as [e|]; destruct (t_tipo t); simpl; repeat split; lia.
Qed.

Lemma sumValues_monthMap (ts : list TransactionData) (m0 : list (jsstring * MonthAcc)) :
  sumValues ma_entradas (fold_left addToMonth ts m0)
  = sumValues ma_entradas m0 + sumZ (map (valorOf entrada) ts)
  /\ sumValues ma_saidas (fold_left addToMonth ts m0)
     = sumValues ma_saidas m0 + sumZ (map (valorOf saida) ts)
  /\ sumValues ma_count (fold_left addToMonth ts m0)
     = sumValues ma_count m0 + Z.of_nat (length ts).
Proof.
  revert m0; induction ts as [|t ts IH]; intros m0.
  - simpl. repeat split; lia.
  - cbn [fold_left]. destruct (IH (addToMonth m0 t)) as (-> & -> & ->).
    destruct (sumValues_addToMonth m0 t) as (-> & -> & ->).
    cbn [map sumZ fold_right length]. unfold sumZ. repeat split; lia.
Qed.

Lemma sums_of_aggregateByMonth (H : Host) (ts : list TransactionData)
    (f : MonthlyAggregate -> Z) (g : MonthAcc -> Z) :
  (forall kv, f (toMonthlyAggregate kv) = g (snd kv)) ->
  sumZ (map f (sortBy bySaidasDesc (aggregateByMonth ts)))
  = sumValues g (fold_left addToMonth ts []).
Proof.
  intros E. unfold aggregateByMonth.
  rewrite (sumZ_perm _ _ (Permutation_map f (sortBy_perm _ _))).
  rewrite (sumZ_perm _ _ (Permutation_map f (sortBy_perm _ _))).
  rewrite map_map. unfold sumValues. f_equal. apply map_ext. exact E.
Qed.

(** In the integers the months of the result reconcile with its totals. *)
Lemma months_reconcile_in_the_integers (H : Host) (transactions : list TransactionData) :
  let r := aggregateTransactions transactions in
  sumZ (map m_entradasCentavos (r_meses r)) = r_totalEntradasCentavos r
  /\ sumZ (map m_saidasCentavos (r_meses r)) = r_totalSaidasCentavos r
  /\ sumZ (map m_transactionCount (r_meses r)) = Z.of_nat (length transactions)
  /\ Forall (fun m => m_saldoCentavos m = m_entradasCentavos m - m_saidasCentavos m)
       (r_meses r).
Proof.
  intros r. subst r.
  destruct (aggregateTransactions_fields H transactions) as (-> & -> & _ & _ & _ & ->).
  destruct (total_of_kind transactions) as [-> ->].
  destruct (sumValues_monthMap transactions []) as (Ee & Es & Ec).
  repeat split.
  - rewrite (sums_of_aggregateByMonth H transactions _ ma_entradas)
      by (now intros [k v]).
    rewrite Ee. reflexivity.
  - rewrite (sums_of_aggregateByMonth H transactions _ ma_saidas)
      by (now intros [k v]).
    rewrite Es. reflexivity.
  - rewrite (sums_of_aggregateByMonth H transactions _ ma_count)
      by (now intros [k v]).
    rewrite Ec. reflexivity.
  - apply Forall_forall. intros m Im.
    apply sortBy_In in Im. unfold aggregateByMonth in Im.
    apply sortBy_In in Im. apply in_map_iff in Im as ([k v] & <- & _). reflexivity.
Qed.

Lemma In_keys_map_set {V : Type} (m : list (jsstring * V)) (k k' : jsstring) (v : V) :
  In k' (map fst (map_set k v m)) <-> k' = k \/ In k' (map fst m).
Proof.
  destruct (map_get k m) as [v0|] eqn:G.
  - rewrite (keys_map_set_present _ _ _ _ G). split; [tauto|].
    intros [->|I]; [|exact I].
    apply map_get_In in G. change k with (fst (k, v0)). now apply in_map.
  - rewrite (keys_map_set_absent _ _ _ G), in_app_iff. simpl.
    intuition (subst; auto).
Qed.

Lemma keys_of_monthMap (ts : list TransactionData) (m0 : list (jsstring * MonthAcc))
    (k : jsstring) :
  In k (map fst (fold_left addToMonth ts m0)) <->
  In k (map fst m0) \/ exists t, In t ts /\ k = substring0 7 (t_data t).
Proof.
  revert m0; induction ts as [|t ts IH]; intros m0; cbn [fold_left].
  - split; [tauto|]. intros [I|(t & [] & _)]. exact I.
  - rewrite IH. unfold addToMonth at 1. rewrite In_keys_map_set. split.
    + intros [[->|I]|(t' & It' & E)].
      * right. exists t. split; [now left | reflexivity].
      * now left.
      * right. exists t'. split; [now right | exact E].
    + intros [I|(t' & [<-|It'] & E)].
      * left. now right.
      * left. now left.
      * right. exists t'. now split.
Qed.

Lemma keys_of_aggregateByMonth (H : Host) (ts : list TransactionData) (k : jsstring) :
  In k (map m_mes (aggregateByMonth ts)) <->
  exists t, In t ts /\ k = substring0 7 (t_data t).
Proof.
  unfold aggregateByMonth.
  assert (E : forall l : list (jsstring * MonthAcc),
             map m_mes (map toMonthlyAggregate l) = map fst l).
  { intros l. rewrite map_map. apply map_ext. now intros [a b]. }
  split.
  - intros I. apply (Permutation_in _ (Permutation_map m_mes (sortBy_perm _ _))) in I.
    rewrite E in I. apply keys_of_monthMap in I as [I|I]; [destruct I | exact I].
  - intros I.
    apply (Permutation_in _ (Permutation_sym (Permutation_map m_mes (sortBy_perm _ _)))).
    rewrite E. apply keys_of_monthMap. now right.
Qed.

(** X7.  The months of the result are the months of the transactions: no
    key occurs twice, every key is the first seven characters of the date
    of some transaction, and the month of every transaction is there. *)
Theorem months_are_those_of_the_transactions (H : Host)
    (transactions : list TransactionData) :
  NoDup (map m_mes (r_meses (aggregateTransactions transactions)))
  /\ forall key,
       In key (map m_mes (r_meses (aggregateTransactions transactions))) <->
       exists t, In t transactions /\ key = substring0 7 (t_data t).
Proof.
  destruct (aggregateTransactions_fields H transactions) as (_ & _ & _ & _ & _ & ->).
  split.
  - eapply Permutation_NoDup;
      [apply Permutation_map; symmetry; apply sortBy_perm|].
    apply aggregateByMonth_keys_NoDup.
  - intros key. rewrite <- keys_of_aggregateByMonth. split;
      apply Permutation_in; [|symmetry]; apply Permutation_map, sortBy_perm.
Qed.

Lemma mesMaisCaro_field (H : Host) (ts : list TransactionData) :
  r_mesMaisCaro (aggregateTransactions ts)
  = match sortBy bySaidasDesc (aggregateByMonth ts) with
    | m :: _ => m_mes m
    | [] => substring0 7 nowISO
    end.
Proof.
  unfold aggregateTransactions, sort_in_place. cbv zeta.
  destruct (aggregateByMonth ts) as [|m l] eqn:E; [reflexivity|].
  cbn -[sortBy]. destruct (sortBy bySaidasDesc (m :: l)) as [|m' l'] eqn:Es.
  - apply (f_equal (@length _)) in Es. rewrite sortBy_length in Es. discriminate Es.
  - reflexivity.
Qed.

(** X8.  Without transactions [mesMaisCaro] is the first seven characters
    of the clock and there is no month.  With transactions it is the key
    of the first month of [meses], and no month of the result has a larger
    outflow than that one. *)
Theorem mesMaisCaro_has_largest_outflow (H : Host) (transactions : list TransactionData) :
  let r := aggregateTransactions transactions in
  (transactions = [] -> r_mesMaisCaro r = substring0 7 nowISO /\ r_meses r = [])
  /\ (transactions <> [] ->
      exists m rest,
        r_meses r = m :: rest /\ r_mesMaisCaro r = m_mes m
        /\ Forall (fun m' => m_saidasCentavos m' <= m_saidasCentavos m) (r_meses r)).
Proof.
  intros r. subst r. split.
  - intros ->. split; reflexivity.
  - intros N. rewrite mesMaisCaro_field.
    destruct (aggregateTransactions_fields H transactions) as (_ & _ & _ & _ & _ & ->).
    assert (S : StronglySorted
                  (fun a b => m_saidasCentavos b <= m_saidasCentavos a)
                  (sortBy bySaidasDesc (aggregateByMonth transactions))).
    { apply sortBy_sorted; unfold bySaidasDesc; intros; lia. }
    destruct (sortBy bySaidasDesc (aggregateByMonth transactions)) as [|m rest] eqn:E.
    + exfalso. destruct transactions as [|t ts]; [contradiction|].
      assert (I : In (substring0 7 (t_data t)) (map m_mes (aggregateByMonth (t :: ts)))).
      { apply keys_of_aggregateByMonth. exists t. split; [now left | reflexivity]. }
      apply (Permutation_in _ (Permutation_sym (Permutation_map m_mes (sortBy_perm bySaidasDesc _)))) in I.
      rewrite E in I. exact I.
    + exists m, rest. repeat split.
      inversion S as [|? ? _ F]; subst. constructor; [lia | exact F].
Qed.

Lemma mesMaisCaro_has_largest_outflow_witness :
  exists m rest,
    r_meses (@aggregateTransactions hostLatin1 doisMeses) = m :: rest
    /\ r_mesMaisCaro (@aggregateTransactions hostLatin1 doisMeses) = m_mes m
    /\ Forall (fun m' => m_saidasCentavos m' <= m_saidasCentavos m)
         (r_meses (@aggregateTransactions hostLatin1 doisMeses)).
Proof.
  apply (proj2 (mesMaisCaro_has_largest_outflow hostLatin1 doisMeses)).
  discriminate.
Defined.

(** X9.  On a host whose [localeCompare] is transitive and total,
    [aggregateByMonth] returns the months in the order of that collation,
    each key once. *)
Theorem aggregateByMonth_sorted_by_collation (H : Host)
    (transactions : list TransactionData) :
  (forall a b c, localeCompare a b <= 0 -> localeCompare b c <= 0 ->
                 localeCompare a c <= 0) ->
  (forall a b, 0 < localeCompare a b -> localeCompare b a <= 0) ->
  StronglySorted (fun a b => localeCompare (m_mes a) (m_mes b) <= 0)
    (aggregateByMonth transactions)
  /\ NoDup (map m_mes (aggregateByMonth transactions)).
Proof.
  intros Tr To. split; [|apply aggregateByMonth_keys_NoDup].
  unfold aggregateByMonth. apply sortBy_sorted.
  - intros x y z. apply Tr.
  - tauto.
  - intros x y. apply To.
Qed.

Lemma aggregateByMonth_sorted_by_collation_witness :
  StronglySorted (fun a b => compareCodeUnits (m_mes a) (m_mes b) <= 0)
    (@aggregateByMonth hostLatin1 (rev doisMeses))
  /\ map m_mes (@aggregateByMonth hostLatin1 (rev doisMeses))
     = [js "2024-01"; js "2024-02"].
Proof.
  split; [|reflexivity].
  apply (aggregateByMonth_sorted_by_collation hostLatin1 (rev doisMeses)).
  - exact compareCodeUnits_trans.
  - intros a b G. change (0 < compareCodeUnits a b) in G.
    change (compareCodeUnits b a <= 0).
    apply compareCodeUnits_flip in G. lia.
Defined.

(* ================================================================= *)
(** ** Recommendations and insights *)

Lemma tendenciaMensal_length (meses : list MonthlyAggregate) :
  (length (tendenciaMensal meses) <= 1)%nat.
Proof.
  unfold tendenciaMensal.
  destruct (2 <=? length meses)%nat; [|simpl; lia].
  destruct (nth_error meses (length meses - 1)); [|simpl; lia].
  destruct (nth_error meses (length meses - 2)); [|simpl; lia].
  destruct (numGt _ _); [simpl; lia|].
  destruct (numLt _ _); simpl; lia.
Qed.

(** X10.  Whatever the aggregation, [generateRecommendations] returns one,
    two or three recommendations, and one of them is about the balance:
    the opportunity when the balance is above zero, the alert of a
    negative balance otherwise, a balance of zero included. *)
Theorem recommendations_always_report_balance (aggregation : AggregationResult) :
  (1 <= length (generateRecommendations aggregation) <= 3)%nat
  /\ (0 < r_saldoCentavos aggregation ->
      In {| rec_tipo := oportunidade; rec_titulo := tituloControle |}
        (generateRecommendations aggregation))
  /\ (r_saldoCentavos aggregation <= 0 ->
      In {| rec_tipo := alerta; rec_titulo := tituloSaldoNegativo |}
        (generateRecommendations aggregation)).
Proof.
  unfold generateRecommendations.
  set (r1 := match r_topCategorias aggregation with
             | [] => []
             | maiorGasto :: _ =>
                 if negb (Qle_bool (c_percentual maiorGasto) 40)
                 then [] ++ [{| rec_tipo := otimizacao;
                                rec_titulo := tituloGastosElevados (c_categoria maiorGasto) |}]
                 else []
             end).
  assert (L1 : (length r1 <= 1)%nat).
  { subst r1. destruct (r_topCategorias aggregation) as [|g ?]; [simpl; lia|].
    destruct (negb _); simpl; lia. }
  pose proof (tendenciaMensal_length (r_meses aggregation)) as L3.
  clearbody r1.
  destruct (Z.ltb_spec 0 (r_saldoCentavos aggregation)) as [P|P];
    rewrite firstn_all2 by (rewrite !length_app; simpl; lia);
    (split; [rewrite !length_app; simpl; lia|]);
    split; intros G; try lia;
    apply in_or_app; left; apply in_or_app; right; now left.
Qed.

Lemma recommendations_always_report_balance_witness :
  In {| rec_tipo := alerta; rec_titulo := tituloSaldoNegativo |}
    (generateRecommendations (@aggregateTransactions hostLatin1 doisMeses)).
Proof.
  apply (proj2 (proj2 (recommendations_always_report_balance
                         (@aggregateTransactions hostLatin1 doisMeses)))).
  vm_compute. discriminate.
Defined.

Lemma firstn_sorted_by_total (n : nat) (l : list CategoryAggregate) :
  StronglySorted (fun a b => (cd_valor b <= cd_valor a)%Q)
    (map toCategoryData (firstn n (sortBy byTotalDesc l))).
Proof.
  assert (G : forall l' : list CategoryAggregate,
            StronglySorted (fun a b => c_totalCentavos b <= c_totalCentavos a) l' ->
            StronglySorted (fun a b => (cd_valor b <= cd_valor a)%Q)
              (map toCategoryData l')).
  { induction 1 as [|x l' S IH F]; simpl; constructor; [exact IH|].
    apply Forall_map. eapply Forall_impl; [|exact F].
    intros y L. cbv beta in L. unfold toCategoryData. simpl.
    unfold Qle, Qdiv, Qmult, Qinv, inject_Z. simpl. lia. }
  apply G, StronglySorted_firstn, byTotalDesc_sorted.
Qed.

(** X11.  The categories of the insights are at most ten outflow entries
    followed by at most ten inflow entries, each group in descending order
    of value; what lies beyond the tenth entry of a kind is left out.  The
    value of each is its total in centavos divided by 100, and the
    recommendations are those of [generateRecommendations]. *)
Theorem insights_hold_ten_categories_of_each_kind (aggregation : AggregationResult) :
  exists saidas entradas,
    fi_categorias (generateFinancialInsights aggregation) = saidas ++ entradas
    /\ (length saidas <= 10)%nat /\ (length entradas <= 10)%nat
    /\ Forall (fun c => cd_tipo c = saida) saidas
    /\ Forall (fun c => cd_tipo c = entrada) entradas
    /\ StronglySorted (fun a b => (cd_valor b <= cd_valor a)%Q) saidas
    /\ StronglySorted (fun a b => (cd_valor b <= cd_valor a)%Q) entradas
    /\ Forall (fun c => exists cat, In cat (r_categorias aggregation)
                                    /\ cd_nome c = c_categoria cat
                                    /\ (cd_valor c * 100 == inject_Z (c_totalCentavos cat))%Q)
         (fi_categorias (generateFinancialInsights aggregation))
    /\ fi_recomendacoes (generateFinancialInsights aggregation)
       = generateRecommendations aggregation.
Proof.
  set (ss := firstn 10 (sortBy byTotalDesc
                          (filter isSaidaCategoria (r_categorias aggregation)))).
  set (es := firstn 10 (sortBy byTotalDesc
                          (filter isEntradaCategoria (r_categorias aggregation)))).
  assert (Sub : forall f x, In x (firstn 10 (sortBy byTotalDesc
                            (filter f (r_categorias aggregation)))) ->
                In x (r_categorias aggregation) /\ f x = true).
  { intros f x I. apply filter_In, (sortBy_In byTotalDesc).
    rewrite <- (firstn_skipn 10). apply in_or_app. now left. }
  exists (map toCategoryData ss), (map toCategoryData es).
  repeat split.
  - unfold generateFinancialInsights. cbn. fold ss es. apply map_app.
  - rewrite length_map. subst ss. rewrite length_firstn. lia.
  - rewrite length_map. subst es. rewrite length_firstn. lia.
  - apply Forall_map, Forall_forall. intros x I. apply Sub in I as [_ T].
    unfold isSaidaCategoria in T. simpl. destruct (c_tipo x); [discriminate | reflexivity].
  - apply Forall_map, Forall_forall. intros x I. apply Sub in I as [_ T].
    unfold isEntradaCategoria in T. simpl. destruct (c_tipo x); [reflexivity | discriminate].
  - apply firstn_sorted_by_total.
  - apply firstn_sorted_by_total.
  - unfold generateFinancialInsights. cbn [fi_categorias]. fold ss es.
    apply Forall_map, Forall_forall. intros x I. exists x.
    split; [|split; [reflexivity|]].
    + apply in_app_or in I as [I|I]; now apply Sub in I.
    + unfold toCategoryData. simpl. unfold Qeq, Qdiv, Qmult, Qinv, inject_Z. simpl. lia.
Qed.

(* ================================================================= *)
(** ** Reading an amount that is written plainly *)

Lemma parseValorBrasileiro_unfold (valor : jsstring) :
  parseValorBrasileiro valor =
  if isEmpty valor then 0 else
  let valorLimpo := trim valor in
  let isNegativeParentheses :=
    startsWith (js "(") valorLimpo && endsWith (js ")") valorLimpo in
  let valorLimpo :=
    if isNegativeParentheses then slice_1_m1 valorLimpo else valorLimpo in
  let valorLimpo := trim (filter isValorChar (removeCurrency valorLimpo)) in
  let isNegative := startsWith (js "-") valorLimpo || isNegativeParentheses in
  let valorLimpo :=
    if isNegative then removeFirst (ch "-") valorLimpo else valorLimpo in
  if isNegative then - valorDasPartes valorLimpo else valorDasPartes valorLimpo.
Proof.
  unfold parseValorBrasileiro, valorDasPartes.
  destruct (isEmpty valor); [reflexivity|]. cbv zeta.
  match goal with
  | |- (let '(pa, ce) := ?X in _) = _ => destruct X as [pa ce]
  end.
  destruct (_ || _); reflexivity.
Qed.

Lemma isPlainValorChar_facts (c : N) :
  isPlainValorChar c = true ->
  isWhiteSpace c = false /\ N.eqb c (ch "-") = false /\ isValorChar c = true.
Proof.
  unfold isPlainValorChar. intros P.
  apply orb_true_iff in P as [P|P]; [apply orb_true_iff in P as [P|P]|].
  - destruct (isDigit_facts c P) as (W & M & _). repeat split; try assumption.
    unfold isValorChar. now rewrite P.
  - apply N.eqb_eq in P. subst c. repeat split; reflexivity.
  - apply N.eqb_eq in P. subst c. repeat split; reflexivity.
Qed.

Lemma last_In {A : Type} (l : list A) (d : A) : l <> [] -> In (last l d) l.
Proof.
  intros N. destruct (exists_last N) as (r & a & ->).
  rewrite last_last. apply in_or_app. right. now left.
Qed.

Lemma trim_plain (s : jsstring) : forallb isPlainValorChar s = true -> trim s = s.
Proof.
  intros P. destruct s as [|c r]; [reflexivity|].
  rewrite forallb_forall in P. apply trim_fixed.
  - apply isPlainValorChar_facts, P. now left.
  - apply isPlainValorChar_facts, P, last_In. discriminate.
Qed.

Lemma removeFirst_absent (c : N) (s : jsstring) :
  forallb (fun x => negb (N.eqb x c)) s = true -> removeFirst c s = s.
Proof.
  induction s as [|x s IH]; [reflexivity|]. cbn [forallb removeFirst].
  intros F. apply andb_true_iff in F as [Fx F]. apply negb_true_iff in Fx.
  now rewrite Fx, IH.
Qed.

(** The cleaning steps leave a plain amount as it is. *)
Lemma clean_plain (s : jsstring) :
  forallb isPlainValorChar s = true ->
  trim (filter isValorChar (removeCurrency s)) = s
  /\ startsWith (js "-") s = false
  /\ startsWith (js "(") s = false.
Proof.
  intros P. rewrite removeCurrency_plain by exact P.
  rewrite filter_all by (now apply isPlainValorChar_isValorChar).
  rewrite trim_plain by exact P. split; [reflexivity|].
  destruct s as [|c r]; [split; reflexivity|].
  cbn [forallb] in P. apply andb_true_iff in P as [Pc _].
  change (js "-") with [45%N]. change (js "(") with [40%N]. cbn -[N.eqb].
  split.
  - destruct (N.eqb_spec 45 c) as [<-|]; [discriminate Pc | reflexivity].
  - destruct (N.eqb_spec 40 c) as [<-|]; [discriminate Pc | reflexivity].
Qed.

Lemma parse_plain (s : jsstring) :
  forallb isPlainValorChar s = true -> s <> [] ->
  parseValorBrasileiro s = valorDasPartes s.
Proof.
  intros P N. destruct (clean_plain s P) as (C & M & Pa).
  rewrite parseValorBrasileiro_unfold. cbv zeta.
  rewrite (trim_plain s P), Pa. cbn [andb]. rewrite C, M. cbn [orb].
  destruct s; [contradiction | reflexivity].
Qed.

Lemma parse_minus (s : jsstring) :
  forallb isPlainValorChar s = true -> s <> [] ->
  parseValorBrasileiro (js "-" ++ s) = - valorDasPartes s.
Proof.
  intros P N. destruct (clean_plain s P) as (C & M & Pa).
  rewrite parseValorBrasileiro_unfold. cbv zeta.
  change (js "-" ++ s) with (45%N :: s).
  assert (T : trim (45%N :: s) = 45%N :: s).
  { apply trim_fixed; [reflexivity|].
    change (45%N :: s) with ([45%N] ++ s). rewrite last_app_nonempty by exact N.
    rewrite forallb_forall in P. apply isPlainValorChar_facts, P, last_In, N. }
  rewrite T. cbn [isEmpty]. change (startsWith (js "(") (45%N :: s)) with false.
  cbn [andb].
  assert (Cl : trim (filter isValorChar (removeCurrency (45%N :: s))) = 45%N :: s).
  { cbn -[trim]. rewrite removeCurrency_plain by exact P.
    rewrite filter_all by (now apply isPlainValorChar_isValorChar). exact T. }
  rewrite Cl. change (startsWith (js "-") (45%N :: s)) with true. cbn [orb].
  reflexivity.
Qed.

Lemma parse_parentheses (s : jsstring) :
  forallb isPlainValorChar s = true -> s <> [] ->
  parseValorBrasileiro (js "(" ++ s ++ js ")") = - valorDasPartes s.
Proof.
  intros P N. destruct (clean_plain s P) as (C & M & Pa).
  rewrite parseValorBrasileiro_unfold. cbv zeta.
  change (js "(" ++ s ++ js ")") with (40%N :: s ++ [41%N]).
  assert (T : trim (40%N :: s ++ [41%N]) = 40%N :: s ++ [41%N]).
  { apply trim_fixed; [reflexivity|].
    change (40%N :: s ++ [41%N]) with ((40%N :: s) ++ [41%N]).
    now rewrite last_last. }
  rewrite T. cbn [isEmpty].
  assert (Pr : startsWith (js "(") (40%N :: s ++ [41%N])
               && endsWith (js ")") (40%N :: s ++ [41%N]) = true).
  { unfold endsWith. change (40%N :: s ++ [41%N]) with ((40%N :: s) ++ [41%N]).
    rewrite rev_app_distr. reflexivity. }
  rewrite Pr. unfold slice_1_m1. cbn [tl]. rewrite removelast_last.
  rewrite C, M. cbn [orb]. rewrite removeFirst_absent; [reflexivity|].
  rewrite forallb_forall in *. intros x I.
  destruct (isPlainValorChar_facts x (P x I)) as (_ & -> & _). reflexivity.
Qed.

Lemma parse_currency (s : jsstring) :
  forallb isPlainValorChar s = true -> s <> [] ->
  parseValorBrasileiro (js "R$ " ++ s) = valorDasPartes s
  /\ parseValorBrasileiro (js "-R$ " ++ s) = - valorDasPartes s.
Proof.
  intros P N. destruct (clean_plain s P) as (C & M & Pa).
  assert (Ls : isWhiteSpace (last s 32%N) = false).
  { rewrite forallb_forall in P. apply isPlainValorChar_facts, P, last_In, N. }
  assert (F : filter isValorChar s = s)
    by (now apply filter_all, isPlainValorChar_isValorChar).
  split; rewrite parseValorBrasileiro_unfold; cbv zeta.
  - change (js "R$ " ++ s) with ([82; 36; 32]%N ++ s).
    assert (T : trim ([82; 36; 32]%N ++ s) = [82; 36; 32]%N ++ s).
    { apply trim_fixed; [reflexivity|]. now rewrite last_app_nonempty. }
    rewrite T. cbn [isEmpty app].
    change (startsWith (js "(") (82%N :: 36%N :: 32%N :: s)) with false. cbn [andb].
    assert (Cl : trim (filter isValorChar (removeCurrency (82%N :: 36%N :: 32%N :: s))) = s).
    { cbn -[trim]. rewrite removeCurrency_plain by exact P.
      rewrite F. now apply trim_plain. }
    rewrite Cl, M. reflexivity.
  - change (js "-R$ " ++ s) with ([45; 82; 36; 32]%N ++ s).
    assert (T : trim ([45; 82; 36; 32]%N ++ s) = [45; 82; 36; 32]%N ++ s).
    { apply trim_fixed; [reflexivity|]. now rewrite last_app_nonempty. }
    rewrite T. cbn [isEmpty app].
    change (startsWith (js "(") (45%N :: 82%N :: 36%N :: 32%N :: s)) with false.
    cbn [andb].
    assert (Cl : trim (filter isValorChar
                   (removeCurrency (45%N :: 82%N :: 36%N :: 32%N :: s))) = 45%N :: s).
    { cbn -[trim]. rewrite removeCurrency_plain by exact P. rewrite F.
      apply trim_fixed; [reflexivity|].
      change (45%N :: s) with ([45%N] ++ s). now rewrite last_app_nonempty. }
    rewrite Cl. change (startsWith (js "-") (45%N :: s)) with true. cbn [orb].
    reflexivity.
Qed.

(** X12.  For an amount written with digits, periods and commas only, a
    minus sign in front and a pair of parentheses around both give the
    opposite of the amount, and the currency mark ["R$ "] in front changes
    nothing. *)
Theorem sign_and_currency_conventions (s : jsstring) :
  forallb isPlainValorChar s = true ->
  parseValorBrasileiro (js "-" ++ s) = - parseValorBrasileiro s
  /\ parseValorBrasileiro (js "(" ++ s ++ js ")") = - parseValorBrasileiro s
  /\ parseValorBrasileiro (js "R$ " ++ s) = parseValorBrasileiro s
  /\ parseValorBrasileiro (js "-R$ " ++ s) = - parseValorBrasileiro s.
Proof.
  intros P. destruct s as [|c r] eqn:E; [repeat split; vm_compute; reflexivity|].
  rewrite <- E in *. assert (N : s <> []) by (rewrite E; discriminate).
  rewrite (parse_plain s P N), (parse_minus s P N), (parse_parentheses s P N).
  destruct (parse_currency s P N) as [-> ->]. repeat split.
Qed.

Lemma sign_and_currency_conventions_witness :
  parseValorBrasileiro (js "-1.234,56") = -123456
  /\ parseValorBrasileiro (js "(1.234,56)") = -123456
  /\ parseValorBrasileiro (js "R$ 1.234,56") = 123456.
Proof.
  destruct (sign_and_currency_conventions (js "1.234,56") eq_refl) as (A & B & C & _).
  split; [exact A|]. split; [exact B | exact C].
Defined.











Lemma splitOn_last_piece (sep : N -> bool) (a b : jsstring) (c : N) :
  sep c = true -> forallb (fun x => negb (sep x)) b = true ->
  exists front, front <> [] /\ splitOn sep (a ++ c :: b) = front ++ [b].
Proof.
  intros Sc Fb. induction a as [|x a (front & Nf & IH)]; cbn [app splitOn].
  - rewrite Sc, splitOn_no_separator by exact Fb. exists [[]]. split; [discriminate | reflexivity].
  - rewrite IH. destruct (sep x).
    + exists ([] :: front). split; [discriminate | reflexivity].
    + destruct front as [|p ps]; [contradiction|].
      exists ((x :: p) :: ps). split; [discriminate | reflexivity].
Qed.





(* ================================================================= *)
(** ** formatarValorBrasileiro *)











(* ================================================================= *)
(** ** parseDateBrasileira: the patterns *)

Lemma spanDigits_spec (s : jsstring) : forall g r,
  spanDigits s = (g, r) ->
  s = g ++ r /\ forallb isDigit g = true.
Proof.
  induction s as [|c s IH]; intros g r E; cbn [spanDigits] in E.
  - injection E as <- <-. split; reflexivity.
  - destruct (isDigit c) eqn:D.
    + destruct (spanDigits s) as [g' r'] eqn:S. injection E as <- <-.
      destruct (IH g' r' eq_refl) as (-> & F).
      split; [reflexivity|]. cbn [forallb]. rewrite D, F. reflexivity.
    + injection E as <- <-. split; reflexivity.
Qed.

Lemma matchDate_inv (ylo yhi : nat) (s g1 g2 g3 : jsstring) :
  matchDate ylo yhi s = Some (g1, g2, g3) ->
  s = g1 ++ js "/" ++ g2 ++ js "/" ++ g3
  /\ forallb isDigit g1 = true /\ forallb isDigit g2 = true
  /\ forallb isDigit g3 = true
  /\ lengthIn 1 2 g1 = true /\ lengthIn 1 2 g2 = true
  /\ lengthIn ylo yhi g3 = true.
Proof.
  unfold matchDate.
  destruct (spanDigits s) as [a r1] eqn:S1.
  destruct (lengthIn 1 2 a) eqn:La; cbn [negb]; [|discriminate].
  destruct r1 as [|c1 r2]; [discriminate|].
  destruct (N.eqb c1 (ch "/")) eqn:E1; cbn [negb]; [|discriminate].
  destruct (spanDigits r2) as [b r3] eqn:S2.
  destruct (lengthIn 1 2 b) eqn:Lb; cbn [negb]; [|discriminate].
  destruct r3 as [|c2 r4]; [discriminate|].
  destruct (N.eqb c2 (ch "/")) eqn:E2; cbn [negb]; [|discriminate].
  destruct (spanDigits r4) as [c r5] eqn:S3.
  destruct (lengthIn ylo yhi c) eqn:Lc; cbn [andb]; [|discriminate].
  destruct r5; cbn [isEmpty]; [|discriminate].
  intros E. injection E as <- <- <-.
  apply N.eqb_eq in E1, E2. subst c1 c2.
  destruct (spanDigits_spec _ _ _ S1) as (-> & F1).
  destruct (spanDigits_spec _ _ _ S2) as (-> & F2).
  destruct (spanDigits_spec _ _ _ S3) as (-> & F3).
  rewrite app_nil_r. repeat split; assumption.
Qed.

Lemma matchDate_month_first_included (s : jsstring) :
  matchDate 2 4 s = None -> matchDate 4 4 s = None.
Proof.
  intros E. destruct (matchDate 4 4 s) as [[[g1 g2] g3]|] eqn:M; [|reflexivity].
  destruct (matchDate_inv _ _ _ _ _ _ M) as (-> & F1 & F2 & F3 & L1 & L2 & L3).
  rewrite matchDate_day_first in E by assumption.
  unfold lengthIn in *. apply andb_true_iff in L3 as [A B].
  apply Nat.leb_le in A, B.
  replace (2 <=? length g3)%nat with true in E by (symmetry; apply Nat.leb_le; lia).
  replace (length g3 <=? 4)%nat with true in E by (symmetry; apply Nat.leb_le; lia).
  discriminate E.
Qed.

Lemma padStart_two_digits (g : jsstring) :
  forallb isDigit g = true -> lengthIn 1 2 g = true ->
  forallb isDigit (padStart 2 (ch "0") g) = true
  /\ length (padStart 2 (ch "0") g) = 2%nat.
Proof.
  intros F L. unfold padStart.
  destruct g as [|a [|b [|c g]]]; try discriminate L; cbn [length Nat.sub repeat app].
  - cbn [forallb] in *. rewrite F. split; reflexivity.
  - split; [exact F | reflexivity].
Qed.

Lemma isISODate_build (y m d : jsstring) :
  length y = 4%nat -> length m = 2%nat -> length d = 2%nat ->
  forallb isDigit y = true -> forallb isDigit m = true -> forallb isDigit d = true ->
  isISODate (y ++ js "-" ++ m ++ js "-" ++ d) = true.
Proof.
  intros Ly Lm Ld Fy Fm Fd.
  destruct y as [|y1 [|y2 [|y3 [|y4 [|]]]]]; try discriminate Ly.
  destruct m as [|m1 [|m2 [|]]]; try discriminate Lm.
  destruct d as [|d1 [|d2 [|]]]; try discriminate Ld.
  cbn [forallb] in Fy, Fm, Fd.
  repeat match goal with
         | H : _ && _ = true |- _ => apply andb_true_iff in H as [? H]
         end.
  change (isISODate ([y1; y2; y3; y4] ++ js "-" ++ [m1; m2] ++ js "-" ++ [d1; d2]))
    with (isDigit y1 && isDigit y2 && isDigit y3 && isDigit y4
          && true && isDigit m1 && isDigit m2 && true
          && isDigit d1 && isDigit d2).
  repeat match goal with
         | H : isDigit _ = true |- _ => rewrite H; clear H
         end.
  reflexivity.
Qed.

(** X16.  The month-first pattern of the last branch matches nothing that
    the day-first pattern rejects, so no input is read month first: an
    input that is not of the shape [YYYY-MM-DD] and that the day-first
    pattern rejects gives the date of the clock, and an input of the
    month-first shape [MM/DD/YYYY] is read day first, its first group put
    in the place of the day and its second in the place of the month. *)
Theorem no_date_is_read_month_first (H : Host) (data : jsstring) :
  (isISODate (trim data) = false -> matchDate 2 4 (trim data) = None ->
   parseDateBrasileira data = todayISO)
  /\ (forall g1 g2 g3,
        matchDate 4 4 (trim data) = Some (g1, g2, g3) ->
        parseDateBrasileira data
        = g3 ++ js "-" ++ padStart 2 (ch "0") g2 ++ js "-" ++ padStart 2 (ch "0") g1).
Proof.
  split.
  - intros I M. unfold parseDateBrasileira.
    rewrite I, M, (matchDate_month_first_included _ M).
    destruct (isEmpty data); reflexivity.
  - intros g1 g2 g3 M.
    destruct (matchDate_inv _ _ _ _ _ _ M) as (E & F1 & F2 & F3 & L1 & L2 & L3).
    assert (L4 : length g3 = 4%nat).
    { unfold lengthIn in L3. apply andb_true_iff in L3 as [A B].
      apply Nat.leb_le in A, B. lia. }
    assert (L3' : lengthIn 2 4 g3 = true) by (unfold lengthIn; rewrite L4; reflexivity).
    destruct (day_first_shape g1 g2 g3 F1 F3 L1 L3') as (_ & _ & I).
    unfold parseDateBrasileira.
    destruct data as [|c data]; [discriminate M|]. cbn [isEmpty].
    rewrite E, I, matchDate_day_first, L3' by assumption.
    rewrite L4. reflexivity.
Qed.

Lemma no_date_is_read_month_first_witness :
  @parseDateBrasileira hostLatin1 (js "2024/01/15") = @todayISO hostLatin1
  /\ @parseDateBrasileira hostLatin1 (js " 12/25/2024 ") = js "2024-25-12".
Proof.
  split.
  - apply (no_date_is_read_month_first hostLatin1 (js "2024/01/15")); reflexivity.
  - apply (proj2 (no_date_is_read_month_first hostLatin1 (js " 12/25/2024 "))
             (js "12") (js "25") (js "2024")).
    reflexivity.
Defined.

(** X17.  Whatever the input, [parseDateBrasileira] returns the date of the
    clock or a string of the shape [YYYY-MM-DD], unless the input is a
    day-first date with a year of three digits: that year is kept as it
    is, so ["1/2/123"] gives ["123-02-01"]. *)
Theorem parseDateBrasileira_result_shape (H : Host) (data : jsstring) :
  (parseDateBrasileira data = todayISO
   \/ isISODate (parseDateBrasileira data) = true
   \/ exists dia mes ano,
        matchDate 2 4 (trim data) = Some (dia, mes, ano) /\ length ano = 3%nat
        /\ parseDateBrasileira data
           = ano ++ js "-" ++ padStart 2 (ch "0") mes
               ++ js "-" ++ padStart 2 (ch "0") dia)
  /\ parseDateBrasileira (js "1/2/123") = js "123-02-01".
Proof.
  split; [|reflexivity].
  unfold parseDateBrasileira.
  destruct (isEmpty data); [now left|].
  destruct (isISODate (trim data)) eqn:I; [right; left; exact I|].
  destruct (matchDate 2 4 (trim data)) as [[[dia mes] ano]|] eqn:M.
  - destruct (matchDate_inv _ _ _ _ _ _ M) as (_ & F1 & F2 & F3 & L1 & L2 & L3).
    destruct (padStart_two_digits dia F1 L1) as (Fd & Ld).
    destruct (padStart_two_digits mes F2 L2) as (Fm & Lm).
    assert (L : length ano = 2%nat \/ length ano = 3%nat \/ length ano = 4%nat).
    { unfold lengthIn in L3. apply andb_true_iff in L3 as [A B].
      apply Nat.leb_le in A, B. lia. }
    destruct L as [L|[L|L]]; rewrite L; cbn [Nat.eqb].
    + right; left.
      destruct (match parseInt ano with Some n => n <? 50 | None => false end);
        (apply isISODate_build;
         [rewrite length_app, L; reflexivity | assumption | assumption
         | rewrite forallb_app, F3; reflexivity | assumption | assumption]).
    + right; right. exists dia, mes, ano. repeat split. exact L.
    + right; left. apply isISODate_build; assumption.
  - rewrite (matchDate_month_first_included _ M). now left.
Qed.

(* ================================================================= *)
(** ** The segments of a parsed path *)

Lemma trimStart_spec (s : jsstring) :
  (exists pre, s = pre ++ trimStart s)
  /\ (trimStart s <> [] -> isWhiteSpace (hd (ch " ") (trimStart s)) = false).
Proof.
  induction s as [|c s ((pre & E) & Hd)]; cbn [trimStart].
  - split; [exists []; reflexivity | intros N; contradiction].
  - destruct (isWhiteSpace c) eqn:W.
    + split; [exists (c :: pre); cbn [app]; now rewrite <- E | exact Hd].
    + split; [exists []; reflexivity | intros _; exact W].
Qed.

Lemma hd_rev_last (s : jsstring) (d : N) : hd d (rev s) = last s d.
Proof.
  induction s as [|c s IH] using rev_ind; [reflexivity|].
  rewrite rev_app_distr, last_last. reflexivity.
Qed.

Lemma trim_spec (s : jsstring) :
  (exists pre post, s = pre ++ trim s ++ post)
  /\ (trim s <> [] ->
      isWhiteSpace (hd (ch " ") (trim s)) = false
      /\ isWhiteSpace (last (trim s) (ch " ")) = false).
Proof.
  unfold trim, trimEnd.
  destruct (trimStart_spec s) as ((pre & E1) & H1).
  destruct (trimStart_spec (rev (trimStart s))) as ((pre' & E2) & H2).
  assert (E3 : trimStart s = rev (trimStart (rev (trimStart s))) ++ rev pre').
  { rewrite <- rev_app_distr, <- E2, rev_involutive. reflexivity. }
  split.
  - exists pre, (rev pre'). rewrite <- E3. exact E1.
  - intros N. split.
    + assert (N1 : trimStart s <> []).
      { rewrite E3. intros A. apply app_eq_nil in A as [A _]. contradiction. }
      specialize (H1 N1). rewrite E3 in H1.
      destruct (rev (trimStart (rev (trimStart s)))); [contradiction | exact H1].
    + rewrite <- hd_rev_last, rev_involutive. apply H2.
      intros A. rewrite A in N. contradiction.
Qed.

Lemma space_is_whiteSpace (c : N) : N.eqb c (ch " ") = true -> isWhiteSpace c = true.
Proof. intros E. apply N.eqb_eq in E. subst c. reflexivity. Qed.

Lemma isSegmentChar_of_categoriaChar (c : N) :
  isCategoriaChar c = true -> isWhiteSpace c = false -> isSegmentChar c = true.
Proof.
  unfold isCategoriaChar, isSegmentChar, isAlphaNumeric. intros C W.
  rewrite W, orb_false_r in C. rewrite C. reflexivity.
Qed.

Lemma collapseSpaces_chars (s : jsstring) :
  forallb isCategoriaChar s = true ->
  forallb isSegmentChar (collapseSpaces s) = true.
Proof.
  induction s as [|c s IH]; [reflexivity|].
  cbn [forallb]. intros F. apply andb_true_iff in F as [Fc F].
  specialize (IH F). cbn [collapseSpaces].
  destruct (isWhiteSpace c) eqn:W.
  - destruct s as [|d s]; [reflexivity|].
    destruct (isWhiteSpace d); [exact IH|].
    cbn [forallb]. rewrite IH. reflexivity.
  - cbn [forallb]. rewrite IH, (isSegmentChar_of_categoriaChar c Fc W). reflexivity.
Qed.

Lemma singleSpaced_cons (c : N) (s : jsstring) :
  N.eqb c (ch " ") = false -> singleSpaced s = true -> singleSpaced (c :: s) = true.
Proof.
  intros E S. cbn [singleSpaced]. destruct s; [reflexivity|].
  rewrite E. exact S.
Qed.

Lemma collapseSpaces_singleSpaced (s : jsstring) :
  singleSpaced (collapseSpaces s) = true.
Proof.
  induction s as [|c s IH]; [reflexivity|].
  cbn [collapseSpaces].
  destruct (isWhiteSpace c) eqn:W.
  - destruct s as [|d s]; [reflexivity|].
    destruct (isWhiteSpace d) eqn:Wd; [exact IH|].
    cbn [collapseSpaces] in *. rewrite Wd in *.
    cbn [singleSpaced] in *.
    destruct (N.eqb d (ch " ")) eqn:E;
      [apply space_is_whiteSpace in E; congruence|].
    rewrite andb_false_r. exact IH.
  - apply singleSpaced_cons; [|exact IH].
    destruct (N.eqb c (ch " ")) eqn:E; [|reflexivity].
    apply space_is_whiteSpace in E. congruence.
Qed.

Lemma singleSpaced_app (a b : jsstring) :
  singleSpaced (a ++ b) = true -> singleSpaced a = true /\ singleSpaced b = true.
Proof.
  induction a as [|x a IH]; [intros S; split; [reflexivity | exact S]|].
  destruct a as [|y a].
  - cbn [app singleSpaced]. destruct b; [split; reflexivity|].
    intros S. apply andb_true_iff in S as [_ S]. split; [reflexivity | exact S].
  - change (singleSpaced ((x :: y :: a) ++ b))
      with (negb (N.eqb x (ch " ") && N.eqb y (ch " ")) && singleSpaced ((y :: a) ++ b)).
    intros S. apply andb_true_iff in S as [S1 S].
    destruct (IH S) as (Sa & Sb). split; [|exact Sb].
    change (singleSpaced (x :: y :: a))
      with (negb (N.eqb x (ch " ") && N.eqb y (ch " ")) && singleSpaced (y :: a)).
    rewrite S1, Sa. reflexivity.
Qed.

Lemma isAlphaNumeric_of_segmentChar (c : N) :
  isSegmentChar c = true -> isWhiteSpace c = false -> isAlphaNumeric c = true.
Proof.
  unfold isSegmentChar. intros S W.
  destruct (isAlphaNumeric c); [reflexivity|]. cbn [orb] in S.
  apply space_is_whiteSpace in S. congruence.
Qed.

Lemma normalized_segment (x : jsstring) :
  let s := trim (collapseSpaces (filter isCategoriaChar x)) in
  s <> [] -> isNormalSegment s = true.
Proof.
  intros s N. subst s.
  set (l := collapseSpaces (filter isCategoriaChar x)) in *.
  assert (C : forallb isSegmentChar l = true).
  { apply collapseSpaces_chars. apply forallb_forall.
    intros c I. apply filter_In in I. tauto. }
  pose proof (collapseSpaces_singleSpaced (filter isCategoriaChar x)) as S.
  fold l in S.
  destruct (trim_spec l) as ((pre & post & E) & Hd).
  destruct (Hd N) as (W1 & W2).
  rewrite E in C, S.
  rewrite !forallb_app in C. apply andb_true_iff in C as [_ C].
  apply andb_true_iff in C as [C _].
  apply singleSpaced_app in S as [_ S]. apply singleSpaced_app in S as [S _].
  unfold isNormalSegment. rewrite C, S.
  rewrite !isAlphaNumeric_of_segmentChar; try assumption; try reflexivity.
  - rewrite forallb_forall in C. apply C.
    destruct (@exists_last _ (trim l) N) as (a & b & ->).
    rewrite last_last. apply in_or_app. right. now left.
  - rewrite forallb_forall in C. apply C.
    destruct (trim l); [contradiction | now left].
Qed.

(** X18.  Whatever the host and the input, every segment of a parsed path
    is in normal form: it is made of the letters [a-z], digits and single
    spaces, and it begins and ends with a letter or a digit (so it is not
    empty). *)
Theorem parseCategoriaPath_segments_normal (H : Host) (categoria : jsstring) :
  forallb isNormalSegment (parseCategoriaPath categoria) = true.
Proof.
  unfold parseCategoriaPath.
  destruct (isEmpty categoria); [reflexivity|].
  match goal with
  | |- context [if (0 <? length ?p)%nat then _ else _] => set (partes := p)
  end.
  destruct (0 <? length partes)%nat; [|reflexivity].
  apply forallb_forall. intros s I. subst partes.
  apply filter_In in I as [I L]. apply in_map_iff in I as (piece & <- & _).
  unfold normalizeCategoria in *.
  destruct (isEmpty piece); [reflexivity|].
  unfold normalizeChain in *. apply normalized_segment.
  intros A. rewrite A in L. discriminate L.
Qed.

Lemma splitOn_empty_piece (sep : N -> bool) (a b : jsstring) (c1 c2 : N) :
  sep c1 = true -> sep c2 = true ->
  exists front back,
    front <> [] /\ splitOn sep (a ++ c1 :: c2 :: b) = front ++ [] :: back.
Proof.
  intros S1 S2. induction a as [|x a (front & back & Nf & IH)]; cbn [app splitOn].
  - rewrite S1, S2. exists [[]], (splitOn sep b). split; [discriminate | reflexivity].
  - rewrite IH. destruct (sep x).
    + exists ([] :: front), back. split; [discriminate | reflexivity].
    + destruct front as [|p ps]; [contradiction|].
      exists ((x :: p) :: ps), back. split; [discriminate | reflexivity].
Qed.

Lemma parseCategoriaPath_partes (H : Host) (categoria : jsstring) (s : jsstring) :
  categoria <> [] ->
  In s (filter (fun parte => (0 <? length parte)%nat)
          (map normalizeCategoria (splitOn isPathSeparator categoria))) ->
  parseCategoriaPath categoria
  = filter (fun parte => (0 <? length parte)%nat)
      (map normalizeCategoria (splitOn isPathSeparator categoria)).
Proof.
  intros N I. unfold parseCategoriaPath.
  destruct categoria; [contradiction|]. cbn [isEmpty].
  destruct (filter _ _); [destruct I | reflexivity].
Qed.

(** X19.  A piece of the input that is empty, because a separator stands
    at the very start, at the very end or right after another separator,
    is not dropped: it yields the segment ["outros"] at its place in the
    path. *)
Theorem empty_piece_yields_outros (H : Host) (a b : jsstring) (c1 c2 : N) :
  isPathSeparator c1 = true -> isPathSeparator c2 = true ->
  In (js "outros") (parseCategoriaPath (a ++ c1 :: c2 :: b))
  /\ hd [] (parseCategoriaPath (c1 :: b)) = js "outros"
  /\ last (parseCategoriaPath (a ++ [c1])) [] = js "outros".
Proof.
  intros S1 S2. split; [|split].
  - destruct (splitOn_empty_piece isPathSeparator a b c1 c2 S1 S2)
      as (front & back & _ & E).
    assert (I : In (js "outros")
                  (filter (fun parte => (0 <? length parte)%nat)
                     (map normalizeCategoria
                        (splitOn isPathSeparator (a ++ c1 :: c2 :: b))))).
    { apply filter_In. split; [|reflexivity].
      rewrite E. apply in_map_iff. exists []. split; [reflexivity|].
      apply in_or_app. right. now left. }
    rewrite (parseCategoriaPath_partes H _ (js "outros"));
      [exact I | destruct a; discriminate | exact I].
  - unfold parseCategoriaPath. cbn [isEmpty splitOn]. rewrite S1.
    cbn [map filter]. reflexivity.
  - destruct (splitOn_last_piece isPathSeparator a [] c1 S1 eq_refl)
      as (front & _ & E).
    assert (P : filter (fun parte => (0 <? length parte)%nat)
                  (map normalizeCategoria (splitOn isPathSeparator (a ++ [c1])))
                = filter (fun parte => (0 <? length parte)%nat)
                    (map normalizeCategoria front) ++ [js "outros"]).
    { rewrite E, map_app, filter_app. reflexivity. }
    rewrite (parseCategoriaPath_partes H _ (js "outros")).
    + rewrite P. apply last_last.
    + destruct a; discriminate.
    + rewrite P. apply in_or_app. right. now left.
Qed.

Lemma empty_piece_yields_outros_witness :
  In (js "outros") (@parseCategoriaPath hostLatin1 (js "casa" ++ ch "/" :: ch ">" :: js "luz"))
  /\ hd [] (@parseCategoriaPath hostLatin1 (ch "/" :: js "luz")) = js "outros"
  /\ last (@parseCategoriaPath hostLatin1 (js "casa" ++ [ch "/"])) [] = js "outros".
Proof.
  apply (empty_piece_yields_outros hostLatin1 (js "casa") (js "luz") (ch "/") (ch ">"));
    reflexivity.
Defined.

(* ================================================================= *)
(** ** createBatches and parseCSVContent *)

Lemma batchLoop_spec (headers : list jsstring) (dataRows : list (list jsstring))
    (batchSize : nat) (fuel : nat) : forall i batches,
  (1 <= batchSize)%nat -> (length dataRows - i <= fuel)%nat ->
  exists bl,
    batchLoop fuel headers dataRows batchSize i batches = Some (batches ++ bl)
    /\ concat (map (@tl _) bl) = skipn i dataRows
    /\ Forall (fun b => hd_error b = Some headers
                        /\ (1 <= length (tl b) <= batchSize)%nat) bl
    /\ (length dataRows - i <= batchSize * length bl
        < length dataRows - i + batchSize)%nat
    /\ (forall pre b post, bl = pre ++ b :: post -> post <> [] ->
                           length (tl b) = batchSize).
Proof.
  induction fuel as [|fuel IH]; intros i batches B F.
  - exists []. cbn [batchLoop].
    replace (i <? length dataRows)%nat with false by (symmetry; apply Nat.ltb_ge; lia).
    rewrite app_nil_r, skipn_all2 by lia. cbn [length].
    repeat split; try constructor; try lia.
    intros [|? ?] ? ? E; discriminate E.
  - cbn [batchLoop]. destruct (Nat.ltb_spec i (length dataRows)) as [Lt|Ge].
    + destruct (IH (i + batchSize)%nat
                  (batches ++ [headers :: slice i (i + batchSize) dataRows]) B
                  ltac:(lia)) as (bl & E & C & A & N & Full).
      exists ((headers :: slice i (i + batchSize) dataRows) :: bl).
      assert (S : slice i (i + batchSize) dataRows = firstn batchSize (skipn i dataRows)).
      { unfold slice. f_equal. lia. }
      assert (L : length (slice i (i + batchSize) dataRows)
                  = Nat.min batchSize (length dataRows - i)).
      { rewrite S, length_firstn, length_skipn. reflexivity. }
      split; [rewrite E, <- app_assoc; reflexivity|].
      split; [|split; [|split]].
      * cbn [map concat tl]. rewrite C, S.
        rewrite (Nat.add_comm i batchSize), <- skipn_skipn.
        apply firstn_skipn.
      * constructor; [|exact A]. cbn [hd_error tl]. split; [reflexivity | lia].
      * cbn [length]. rewrite Nat.mul_succ_r.
        destruct bl as [|b' bl]; cbn [length] in N |- *;
          rewrite ?Nat.mul_0_r, ?Nat.mul_succ_r in *; lia.
      * intros pre b post Eq Np. destruct pre as [|p pre].
        -- cbn [app] in Eq. injection Eq as <- <-. cbn [tl]. rewrite L.
           destruct bl as [|b' bl]; [contradiction|]. cbn [length] in N.
           rewrite Nat.mul_succ_r in N. lia.
        -- cbn [app] in Eq. injection Eq as _ Eq. exact (Full pre b post Eq Np).
    + exists []. rewrite app_nil_r, skipn_all2 by lia. cbn [length].
      repeat split; try constructor; try lia.
      intros [|? ?] ? ? E; discriminate E.
Qed.

Lemma batchLoop_size_zero (headers : list jsstring) (dataRows : list (list jsstring))
    (fuel : nat) : forall batches,
  dataRows <> [] -> batchLoop fuel headers dataRows 0 0 batches = None.
Proof.
  intros batches N. revert batches.
  assert (L : (0 <? length dataRows)%nat = true)
    by (destruct dataRows; [contradiction | reflexivity]).
  induction fuel as [|fuel IH]; intros batches; cbn [batchLoop]; rewrite L.
  - reflexivity.
  - rewrite Nat.add_0_r. apply IH.
Qed.

(** X20.  For a batch size of at least 1 the loop of [createBatches] ends
    (fuel for one turn per row suffices) and its batches partition the
    rows after the first: the rows of the batches, put end to end, are the
    data rows in their order; every batch begins with the header row and
    holds between 1 and [batchSize] data rows; every batch but the last is
    full; and there are as many batches as the number of data rows divided
    by [batchSize], rounded up. *)
Theorem createBatches_partitions_data_rows (fuel : nat)
    (rows : list (list jsstring)) (batchSize : nat) :
  (1 <= batchSize)%nat -> (length rows <= fuel)%nat ->
  exists batches,
    createBatches fuel rows batchSize = Some batches
    /\ concat (map (@tl _) batches) = tl rows
    /\ Forall (fun b => hd_error b = hd_error rows
                        /\ (1 <= length (tl b) <= batchSize)%nat) batches
    /\ (forall pre b post, batches = pre ++ b :: post -> post <> [] ->
                           length (tl b) = batchSize)
    /\ (length (tl rows) <= batchSize * length batches
        < length (tl rows) + batchSize)%nat.
Proof.
  intros B F. destruct rows as [|headers dataRows].
  - exists []. cbn [createBatches map concat tl length].
    repeat split; try constructor; try lia.
    intros [|? ?] ? ? E; discriminate E.
  - cbn [length] in F.
    destruct (batchLoop_spec headers dataRows batchSize fuel 0 [] B ltac:(lia))
      as (bl & E & C & A & N & Full).
    exists bl. cbn [createBatches tl hd_error]. cbn [app] in E.
    rewrite Nat.sub_0_r in N. cbn [skipn] in C.
    repeat split; try assumption; try lia.
Qed.

Lemma createBatches_partitions_data_rows_witness :
  exists batches,
    createBatches 4 [[js "h"]; [js "1"]; [js "2"]; [js "3"]] 2 = Some batches
    /\ concat (map (@tl _) batches) = [[js "1"]; [js "2"]; [js "3"]]
    /\ length batches = 2%nat.
Proof.
  destruct (createBatches_partitions_data_rows 4
              [[js "h"]; [js "1"]; [js "2"]; [js "3"]] 2 ltac:(lia) ltac:(simpl; lia))
    as (batches & E & C & _ & _ & N).
  exists batches. split; [exact E|]. split; [exact C|].
  cbn [tl length] in N. lia.
Defined.

(** X21.  With a batch size of 0 and at least one data row the loop of
    [createBatches] never ends: its index stays at 0, and no number of
    turns gives a result. *)
Theorem createBatches_size_zero_never_ends (fuel : nat) (rows : list (list jsstring)) :
  (2 <= length rows)%nat -> createBatches fuel rows 0 = None.
Proof.
  intros L. destruct rows as [|headers [|r dataRows]]; cbn [length] in L; try lia.
  apply batchLoop_size_zero. discriminate.
Qed.

Lemma createBatches_size_zero_never_ends_witness :
  createBatches 1000 [[js "h"]; [js "1"]] 0 = None.
Proof.
  apply (createBatches_size_zero_never_ends 1000 [[js "h"]; [js "1"]]).
  simpl. lia.
Defined.

Lemma length_splitOn (sep : N -> bool) (s : jsstring) :
  length (splitOn sep s) = S (length (filter sep s)).
Proof.
  induction s as [|c s IH]; [reflexivity|].
  cbn [splitOn filter]. destruct (sep c).
  - cbn [length]. rewrite IH. reflexivity.
  - destruct (splitOn sep s) as [|p ps]; [discriminate IH | exact IH].
Qed.

Lemma splitOn_In (sep : N -> bool) (c : N) (s : jsstring) : forall p,
  In p (splitOn sep s) -> In c p -> In c s /\ sep c = false.
Proof.
  induction s as [|x s IH]; intros p Ip Ic; cbn [splitOn] in Ip.
  - destruct Ip as [<-|[]]. destruct Ic.
  - destruct (sep x) eqn:Sx.
    + destruct Ip as [<-|Ip]; [destruct Ic|].
      destruct (IH p Ip Ic) as (I & S). split; [now right | exact S].
    + destruct (splitOn sep s) as [|q qs].
      * destruct Ip as [<-|[]]. destruct Ic as [<-|[]]. split; [now left | exact Sx].
      * destruct Ip as [<-|Ip].
        -- destruct Ic as [<-|Ic]; [split; [now left | exact Sx]|].
           destruct (IH q (or_introl eq_refl) Ic) as (I & S).
           split; [now right | exact S].
        -- destruct (IH p (or_intror Ip) Ic) as (I & S).
           split; [now right | exact S].
Qed.

Lemma In_removelast (c : N) (s : jsstring) : In c (removelast s) -> In c s.
Proof.
  induction s as [|x s IH]; [intros []|].
  cbn [removelast]. destruct s as [|y s]; [intros []|].
  intros [<-|I]; [now left | right; now apply IH].
Qed.

Lemma In_stripQuotes (c : N) (cell : jsstring) : In c (stripQuotes cell) -> In c cell.
Proof.
  unfold stripQuotes.
  set (rest := match cell with
               | x :: r => if N.eqb x quote then r else cell
               | [] => []
               end).
  assert (R : In c rest -> In c cell).
  { subst rest. destruct cell as [|x r]; [intros []|].
    destruct (N.eqb x quote); [intros I; now right | intros I; exact I]. }
  destruct (N.eqb (last rest 0%N) quote); intros I; apply R;
    [now apply In_removelast | exact I].
Qed.

(** X22.  [parseCSVContent] gives one row more than the trimmed content
    has line feeds (so one row for an empty content), and each row has
    one cell more than its line has commas: quotation marks do not
    protect a comma, and the cell ["b,c"] written between quotation marks
    becomes the two cells [b] and [c].  No cell holds a comma or a line
    feed. *)
Theorem parseCSVContent_rows_and_cells (csvContent : jsstring) :
  length (parseCSVContent csvContent) = S (countOf lineFeed (trim csvContent))
  /\ map (@length _) (parseCSVContent csvContent)
     = map (fun line => S (countOf (ch ",") line))
         (split lineFeed (trim csvContent))
  /\ Forall (Forall (fun cell => ~ In (ch ",") cell /\ ~ In lineFeed cell))
       (parseCSVContent csvContent)
  /\ parseCSVContent (js "a," ++ [quote] ++ js "b,c" ++ [quote])
     = [[js "a"; js "b"; js "c"]].
Proof.
  unfold parseCSVContent, split, countOf.
  split; [|split; [|split; [|reflexivity]]].
  - rewrite length_map. apply length_splitOn.
  - rewrite map_map. apply map_ext. intros line.
    rewrite length_map. apply length_splitOn.
  - apply Forall_forall. intros row Ir.
    apply in_map_iff in Ir as (line & <- & Il).
    apply Forall_forall. intros cell Ic.
    apply in_map_iff in Ic as (piece & <- & Ip).
    split; intros I; apply In_stripQuotes, In_trim in I.
    + destruct (splitOn_In _ _ _ _ Ip I) as (_ & S).
      rewrite N.eqb_refl in S. discriminate S.
    + destruct (splitOn_In _ _ _ _ Ip I) as (I' & _).
      destruct (splitOn_In _ _ _ _ Il I') as (_ & S).
      rewrite N.eqb_refl in S. discriminate S.
Qed.

(** X23.  A content without line feed once trimmed, a header line alone or
    nothing at all, gives a single row and therefore no batch, whatever
    the batch size. *)
Theorem content_of_one_line_gives_no_batch (csvContent : jsstring)
    (fuel batchSize : nat) :
  countOf lineFeed (trim csvContent) = 0%nat ->
  length (parseCSVContent csvContent) = 1%nat
  /\ createBatches fuel (parseCSVContent csvContent) batchSize = Some [].
Proof.
  intros Z.
  assert (L : length (parseCSVContent csvContent) = 1%nat).
  { unfold parseCSVContent, split. rewrite length_map, length_splitOn.
    unfold countOf in Z. rewrite Z. reflexivity. }
  split; [exact L|].
  destruct (parseCSVContent csvContent) as [|headers [|r rows]]; try discriminate L.
  cbn [createBatches]. destruct fuel; reflexivity.
Qed.

Lemma content_of_one_line_gives_no_batch_witness :
  length (parseCSVContent (js "data,valor,descricao ")) = 1%nat
  /\ createBatches 0 (parseCSVContent (js "data,valor,descricao ")) 30 = Some [].
Proof.
  apply (content_of_one_line_gives_no_batch (js "data,valor,descricao ") 0 30).
  reflexivity.
Defined.

(* ================================================================= *)
(** ** The entries do not depend on the order of the transactions *)

Lemma entry_is_entryOf (H : Host) (ts : list TransactionData) (e : CategoryAggregate) :
  forallb segmentsOk ts = true ->
  In e (r_categorias (aggregateTransactions ts)) ->
  c_categoriaPath e <> []
  /\ 0 < valorWithPrefix (c_tipo e) (c_categoriaPath e) ts
  /\ e = entryOf (c_tipo e) (c_categoriaPath e) ts.
Proof.
  intros S Ie.
  destruct (categorias_from_map H ts e S Ie) as (Ek & Np & Fp & Pos & Et).
  destruct (aggregateTransactions_fields H ts) as (_ & _ & _ & Ec & _).
  rewrite Ec in Ie. clear Ec.
  apply In_aggregateByCategory in Ie as ([k v] & Im & Ie).
  pose proof (In_emitCategory_amount _ _ _ _ Ie) as [_ Epc].
  apply In_emitCategory in Ie as (_ & Ep & Ecount & _). simpl in Ep, Ecount.
  destruct (buildCategoryMap_keys ts S) as [K ND].
  rewrite Forall_forall in K. destruct (K _ Im) as (Ekey & _ & _). simpl in Ekey.
  assert (Ecnt : c_transactionCount e = countWithPrefix (c_categoriaPath e) ts).
  { rewrite Ecount, <- countWithPrefix_levels by assumption.
    rewrite <- buildCategoryMap_count, Ep, <- Ekey. unfold countAt.
    now rewrite (In_map_get _ _ _ ND Im). }
  destruct (total_of_kind ts) as [TE TS].
  split; [exact Np|]. split; [lia|].
  destruct e as [cat path tot kind cnt pct].
  cbn [c_categoria c_categoriaPath c_totalCentavos c_tipo c_transactionCount
       c_percentual] in *.
  rewrite Epc, Et, Ecnt, Ek. unfold entryOf.
  destruct kind; [rewrite TE | rewrite TS]; reflexivity.
Qed.

Lemma entryOf_present (H : Host) (ts : list TransactionData) (kind : TipoCategoria)
    (p : list jsstring) :
  forallb segmentsOk ts = true -> p <> [] ->
  0 < valorWithPrefix kind p ts ->
  In (entryOf kind p ts) (r_categorias (aggregateTransactions ts)).
Proof.
  intros S Np P.
  destruct (valorWithPrefix_positive _ _ _ P) as (t & It & Et).
  assert (Fp : forallb noSeparator p = true).
  { apply isPrefixOf_spec in Et. rewrite Et. apply forallb_firstn.
    rewrite forallb_forall in S. exact (S _ It). }
  destruct (buildCategoryMap_keys ts S) as [K ND].
  rewrite Forall_forall in K.
  pose proof (amountAt_buildCategoryMap kind ts (keyOf p)) as A.
  rewrite valorWithPrefix_levels in A by assumption.
  unfold amountAt in A.
  destruct (map_get (keyOf p) (buildCategoryMap ts)) as [v|] eqn:G; [|lia].
  pose proof (map_get_In _ _ _ G) as Im.
  destruct (K _ Im) as (Ek & Nv & Fv). simpl in Ek, Nv, Fv.
  assert (Ep : a_categoriaPath v = p) by (symmetry; now apply keyOf_inj).
  set (tE := fold_left (fun sum t => sum + t_valorCentavos t) (filter isEntrada ts) 0).
  set (tS := fold_left (fun sum t => sum + t_valorCentavos t) (filter isSaida ts) 0).
  destruct (In_emitCategory_of_kind tE tS (keyOf p) v kind) as (e & Ie & Epe & Te & _);
    [lia|].
  assert (I : In e (r_categorias (aggregateTransactions ts))).
  { destruct (aggregateTransactions_fields H ts) as (_ & _ & _ & -> & _).
    unfold aggregateByCategory. apply sortBy_In, in_flat_map.
    exists (keyOf p, v). now split. }
  destruct (entry_is_entryOf H ts e S I) as (_ & _ & E).
  rewrite Te, Epe, Ep in E. rewrite <- E. exact I.
Qed.

Lemma entryOf_perm (kind : TipoCategoria) (p : list jsstring)
    (ts ts' : list TransactionData) :
  Permutation ts ts' ->
  valorWithPrefix kind p ts = valorWithPrefix kind p ts'
  /\ sumZ (map (valorOf kind) ts) = sumZ (map (valorOf kind) ts')
  /\ entryOf kind p ts = entryOf kind p ts'.
Proof.
  intros P.
  assert (V : valorWithPrefix kind p ts = valorWithPrefix kind p ts')
    by (apply sumZ_perm, Permutation_map, P).
  assert (T : sumZ (map (valorOf kind) ts) = sumZ (map (valorOf kind) ts'))
    by (apply sumZ_perm, Permutation_map, P).
  assert (C : countWithPrefix p ts = countWithPrefix p ts').
  { unfold countWithPrefix. f_equal. apply Permutation_length, filter_perm, P. }
  repeat split; try assumption.
  unfold entryOf. rewrite V, T, C. reflexivity.
Qed.

(** In the integers the result does not depend on the order of the
    transactions. *)
Lemma order_independence_in_the_integers (H : Host)
    (transactions transactions' : list TransactionData) :
  forallb segmentsOk transactions = true ->
  Permutation transactions transactions' ->
  let r := aggregateTransactions transactions in
  let r' := aggregateTransactions transactions' in
  r_totalEntradasCentavos r = r_totalEntradasCentavos r'
  /\ r_totalSaidasCentavos r = r_totalSaidasCentavos r'
  /\ r_saldoCentavos r = r_saldoCentavos r'
  /\ forall e, In e (r_categorias r) <-> In e (r_categorias r').
Proof.
  intros S P r r'.
  assert (S' : forallb segmentsOk transactions' = true).
  { apply forallb_forall. intros t I. rewrite forallb_forall in S.
    apply S. apply Permutation_in with (l := transactions'); [now symmetry | exact I]. }
  assert (Half : forall ts ts', forallb segmentsOk ts = true ->
            forallb segmentsOk ts' = true -> Permutation ts ts' ->
            forall e, In e (r_categorias (aggregateTransactions ts)) ->
                      In e (r_categorias (aggregateTransactions ts'))).
  { intros ts ts' Sa Sb Pab e Ie.
    destruct (entry_is_entryOf H ts e Sa Ie) as (Np & Pos & E).
    destruct (entryOf_perm (c_tipo e) (c_categoriaPath e) ts ts' Pab) as (V & _ & Eq).
    rewrite E, Eq. apply entryOf_present; try assumption. lia. }
  destruct (aggregateTransactions_fields H transactions) as (E1 & E2 & E3 & _).
  destruct (aggregateTransactions_fields H transactions') as (E1' & E2' & E3' & _).
  destruct (total_of_kind transactions) as [TE TS].
  destruct (total_of_kind transactions') as [TE' TS'].
  destruct (entryOf_perm entrada [] _ _ P) as (_ & Ve & _).
  destruct (entryOf_perm saida [] _ _ P) as (_ & Vs & _).
  subst r r'. rewrite E1, E2, E3, E1', E2', E3', TE, TS, TE', TS', Ve, Vs.
  repeat split; try reflexivity.
  - now apply Half.
  - apply Half; try assumption. now symmetry.
Qed.

(* ================================================================= *)
(** ** parseValorBrasileiro: text without digits *)

Lemma In_removeFirst (c x : N) (s : jsstring) : In x (removeFirst c s) -> In x s.
Proof.
  induction s as [|y s IH]; [intros []|]. cbn [removeFirst].
  destruct (N.eqb y c); [intros I; now right|].
  intros [<-|I]; [now left | right; now apply IH].
Qed.

Lemma In_removeCurrency_bounded (x : N) (n : nat) : forall s,
  (length s <= n)%nat -> In x (removeCurrency s) -> In x s.
Proof.
  induction n as [|n IH]; intros s L.
  - destruct s; [intros [] | cbn in L; lia].
  - destruct s as [|c r]; [intros []|]. cbn [length] in L. cbn [removeCurrency].
    destruct (N.eqb c (ch "R")).
    + destruct r as [|d r']; [intros []|]. cbn [length] in L.
      destruct (N.eqb d (ch "$")); intros I; right.
      * right. apply IH; [lia | exact I].
      * apply IH; [cbn [length]; lia | exact I].
    + intros [<-|I]; [now left | right; apply IH; [lia | exact I]].
Qed.

Lemma In_removeCurrency (x : N) (s : jsstring) : In x (removeCurrency s) -> In x s.
Proof. apply (In_removeCurrency_bounded x (length s)). apply le_n. Qed.

Lemma In_slice_1_m1 (x : N) (s : jsstring) : In x (slice_1_m1 s) -> In x s.
Proof.
  unfold slice_1_m1. intros I. apply In_removelast in I.
  destruct s; [destruct I | now right].
Qed.

Lemma isValorChar_not_x (c : N) :
  isValorChar c = true -> N.eqb c (ch "x") = false /\ N.eqb c (ch "X") = false.
Proof.
  unfold isValorChar, isDigit. intros V.
  repeat (apply orb_true_iff in V as [V|V]).
  - apply andb_true_iff in V as [A B]. apply N.leb_le in A, B.
    split; apply N.eqb_neq; cbn; lia.
  - apply N.eqb_eq in V. subst c. split; reflexivity.
  - apply N.eqb_eq in V. subst c. split; reflexivity.
  - apply N.eqb_eq in V. subst c. split; reflexivity.
Qed.

Lemma parseDigits_zeroish (s : jsstring) : forall acc,
  zeroish s -> acc = None \/ acc = Some 0 ->
  parseDigits decDigit 10 acc s = None \/ parseDigits decDigit 10 acc s = Some 0.
Proof.
  induction s as [|c s IH]; intros acc Z A; cbn [parseDigits]; [exact A|].
  unfold decDigit. destruct (isDigit c) eqn:D; [|exact A].
  destruct (Z c (or_introl eq_refl)) as (_ & E). rewrite (E D).
  apply IH.
  - intros x I. apply Z. now right.
  - right. destruct A as [->| ->]; reflexivity.
Qed.

Lemma parseInt_zeroish (s : jsstring) : zeroish s -> orZero (parseInt s) = 0.
Proof.
  intros Z. unfold parseInt.
  assert (Z1 : zeroish (trimStart s)) by (intros x I; apply Z, In_trimStart, I).
  set (sign := match trimStart s with
               | c :: r =>
                   if N.eqb c (ch "-") then (true, r)
                   else if N.eqb c (ch "+") then (false, r)
                   else (false, trimStart s)
               | [] => (false, [])
               end).
  assert (Z2 : zeroish (snd sign)).
  { subst sign. destruct (trimStart s) as [|c r]; [intros x []|].
    assert (Zr : zeroish r) by (intros x I; apply Z1; now right).
    destruct (N.eqb c (ch "-")); [exact Zr|].
    destruct (N.eqb c (ch "+")); [exact Zr | exact Z1]. }
  destruct sign as [neg s2]. cbn [snd] in Z2.
  assert (M : forall mag, mag = None \/ mag = Some 0 ->
            orZero (match mag with
                    | Some m => Some (if neg then - m else m)
                    | None => None
                    end) = 0).
  { intros mag [->| ->]; [reflexivity | destruct neg; reflexivity]. }
  apply M.
  destruct s2 as [|z [|x r]]; try (apply parseDigits_zeroish; [exact Z2 | now left]).
  destruct (Z2 x (or_intror (or_introl eq_refl))) as (Vx & _).
  destruct (isValorChar_not_x x Vx) as (E1 & E2).
  rewrite E1, E2, andb_false_r.
  apply parseDigits_zeroish; [exact Z2 | now left].
Qed.

Lemma zeroish_padded (p : jsstring) :
  zeroish p -> zeroish (substring0 2 (padEnd 2 (ch "0") p)).
Proof.
  intros Z c I. unfold substring0, padEnd in I.
  assert (I' : In c (p ++ repeat (ch "0") (2 - length p)))
    by (rewrite <- (firstn_skipn 2 _); apply in_or_app; now left).
  clear I. apply in_app_or in I' as [I|I]; [now apply Z|].
  apply repeat_spec in I. subst c. split; [reflexivity | intros _; reflexivity].
Qed.

Lemma valorDasPartes_zero (v : jsstring) :
  (forall c, In c v -> isValorChar c = true /\ isDigit c = false) ->
  valorDasPartes v = 0.
Proof.
  intros ND.
  assert (Zv : zeroish v).
  { intros c I. destruct (ND c I) as (V & D). split; [exact V|]. congruence. }
  assert (Zp : forall sep p, In p (splitOn sep v) -> zeroish p).
  { intros sep p Ip c Ic. apply Zv. exact (proj1 (splitOn_In sep c v p Ip Ic)). }
  assert (Zr : forall x s, zeroish s -> zeroish (removeAll x s)).
  { intros x s Z c I. apply Z. unfold removeAll in I. apply filter_In in I. tauto. }
  assert (Z0 : zeroish []) by (intros c []).
  assert (Z00 : zeroish (js "00")).
  { intros c [<-|[<-|[]]]; split; reflexivity || (intros _; reflexivity). }
  assert (R : forall pi ce, zeroish pi -> zeroish ce ->
            orZero (parseInt pi) * 100 + orZero (parseInt ce) = 0).
  { intros pi ce A B. rewrite (parseInt_zeroish pi A), (parseInt_zeroish ce B).
    reflexivity. }
  unfold valorDasPartes, split.
  destruct (includes (js ",") v).
  - assert (Zs := Zp (N.eqb (ch ","))).
    destruct (splitOn (N.eqb (ch ",")) v) as [|p0 [|p1 [|p2 ps]]]; try (now apply R).
    destruct (length p1 <=? 2)%nat; [|now apply R].
    apply R; [apply Zr | apply zeroish_padded]; apply Zs; cbn; tauto.
  - destruct (includes (js ".") v); [|now apply R].
    assert (Zs := Zp (N.eqb (ch "."))).
    destruct (splitOn (N.eqb (ch ".")) v) as [|p0 [|p1 [|p2 ps]]];
      try (apply R; [now apply Zr | exact Z00]).
    destruct (length p1 <=? 2)%nat; [|apply R; [now apply Zr | exact Z00]].
    apply R; [apply Zr | apply zeroish_padded]; apply Zs; cbn; tauto.
Qed.

(** X25.  A text without any digit is read as the amount 0: whatever else
    it holds, signs, separators, parentheses or the currency mark
    included, nothing is rejected. *)
Theorem amount_without_digit_is_zero (valor : jsstring) :
  forallb (fun c => negb (isDigit c)) valor = true ->
  parseValorBrasileiro valor = 0.
Proof.
  intros F. rewrite parseValorBrasileiro_unfold.
  destruct (isEmpty valor); [reflexivity|]. cbv zeta.
  assert (ND : forall c, In c (trim valor) -> isDigit c = false).
  { intros c I. apply In_trim in I. rewrite forallb_forall in F.
    apply negb_true_iff. now apply F. }
  set (paren := startsWith (js "(") (trim valor) && endsWith (js ")") (trim valor)).
  set (x := if paren then slice_1_m1 (trim valor) else trim valor).
  assert (NDx : forall c, In c x -> isDigit c = false).
  { intros c I. subst x. destruct paren; [apply In_slice_1_m1 in I|]; now apply ND. }
  set (vl := trim (filter isValorChar (removeCurrency x))).
  assert (NDl : forall c, In c vl -> isValorChar c = true /\ isDigit c = false).
  { intros c I. subst vl. apply In_trim, filter_In in I as [I V].
    split; [exact V|]. apply NDx. now apply In_removeCurrency. }
  set (neg := startsWith (js "-") vl || paren).
  assert (Z : valorDasPartes (if neg then removeFirst (ch "-") vl else vl) = 0).
  { apply valorDasPartes_zero. intros c I. apply NDl.
    destruct neg; [now apply In_removeFirst in I | exact I]. }
  rewrite Z. destruct neg; reflexivity.
Qed.

Lemma amount_without_digit_is_zero_witness :
  parseValorBrasileiro (js "(R$ a combinar, -.)") = 0.
Proof.
  apply (amount_without_digit_is_zero (js "(R$ a combinar, -.)")). reflexivity.
Defined.

(* ================================================================= *)
(** ** A path, joined and parsed again *)

Ltac outside_ranges :=
  repeat match goal with
         | |- (_ || _) = false => apply orb_false_iff; split
         | |- N.eqb _ _ = false => apply N.eqb_neq; lia
         | |- (N.leb _ _ && N.leb _ _) = false =>
             apply andb_false_iff;
             first [left; apply N.leb_gt; lia | right; apply N.leb_gt; lia]
         end.

Lemma isAlphaNumeric_cases (c : N) :
  isAlphaNumeric c = true -> (97 <= c <= 122 \/ 48 <= c <= 57)%N.
Proof.
  unfold isAlphaNumeric, isLowerAZ, isDigit. intros A.
  apply orb_true_iff in A as [A|A]; apply andb_true_iff in A as [L U];
    apply N.leb_le in L, U; lia.
Qed.

Lemma isSegmentChar_cases (c : N) :
  isSegmentChar c = true -> (97 <= c <= 122 \/ 48 <= c <= 57 \/ c = 32)%N.
Proof.
  unfold isSegmentChar. intros S. apply orb_true_iff in S as [A|E].
  - apply isAlphaNumeric_cases in A. lia.
  - apply N.eqb_eq in E. right; right. exact E.
Qed.

Lemma isAlphaNumeric_facts (c : N) :
  isAlphaNumeric c = true ->
  isWhiteSpace c = false /\ N.eqb c (ch " ") = false /\ isSegmentChar c = true.
Proof.
  intros A. pose proof (isAlphaNumeric_cases c A) as R.
  unfold isSegmentChar. rewrite A. repeat split.
  - unfold isWhiteSpace. outside_ranges.
  - change (ch " ") with 32%N. outside_ranges.
Qed.

Lemma isSegmentChar_facts (c : N) :
  isSegmentChar c = true ->
  isCategoriaChar c = true /\ isCombiningMark c = false
  /\ isPathSeparator c = false
  /\ (N.eqb c (ch " ") = false -> isAlphaNumeric c = true).
Proof.
  intros S. pose proof (isSegmentChar_cases c S) as R.
  repeat split.
  - unfold isSegmentChar, isAlphaNumeric in S. unfold isCategoriaChar.
    apply orb_true_iff in S as [S|S]; [now rewrite S|].
    apply space_is_whiteSpace in S. rewrite S. apply orb_true_r.
  - unfold isCombiningMark. outside_ranges.
  - unfold isPathSeparator.
    change (ch ">") with 62%N. change (ch "/") with 47%N. change (ch ":") with 58%N.
    outside_ranges.
  - intros E. unfold isSegmentChar in S. rewrite E, orb_false_r in S. exact S.
Qed.

Lemma singleSpaced_tail (c : N) (s : jsstring) :
  singleSpaced (c :: s) = true -> singleSpaced s = true.
Proof. intros S. exact (proj2 (singleSpaced_app [c] s S)). Qed.

Lemma collapseSpaces_fixed (s : jsstring) :
  forallb isSegmentChar s = true -> singleSpaced s = true ->
  collapseSpaces s = s.
Proof.
  induction s as [|c s IH]; [reflexivity|].
  intros F S. cbn [forallb] in F. apply andb_true_iff in F as [Fc F].
  specialize (IH F (singleSpaced_tail _ _ S)).
  cbn [collapseSpaces]. rewrite IH.
  destruct (N.eqb c (ch " ")) eqn:E.
  - rewrite (space_is_whiteSpace c E). apply N.eqb_eq in E. subst c.
    destruct s as [|d s]; [reflexivity|].
    cbn [singleSpaced] in S. cbn [forallb] in F.
    apply andb_true_iff in F as [Fd _]. apply andb_true_iff in S as [S _].
    change (N.eqb (ch " ") (ch " ")) with true in S. cbn [andb] in S.
    apply negb_true_iff in S.
    destruct (isSegmentChar_facts d Fd) as (_ & _ & _ & A).
    destruct (isAlphaNumeric_facts d (A S)) as (W & _). rewrite W. reflexivity.
  - destruct (isSegmentChar_facts c Fc) as (_ & _ & _ & A).
    destruct (isAlphaNumeric_facts c (A E)) as (W & _). rewrite W. reflexivity.
Qed.

Lemma isNormalSegment_spec (s : jsstring) :
  isNormalSegment s = true ->
  forallb isSegmentChar s = true /\ singleSpaced s = true
  /\ s <> []
  /\ isWhiteSpace (hd (ch " ") s) = false
  /\ isWhiteSpace (last s (ch " ")) = false.
Proof.
  unfold isNormalSegment. intros N.
  apply andb_true_iff in N as [N S]. apply andb_true_iff in N as [N L].
  apply andb_true_iff in N as [F Hd].
  repeat split; try assumption.
  - intros ->. discriminate Hd.
  - exact (proj1 (isAlphaNumeric_facts _ Hd)).
  - exact (proj1 (isAlphaNumeric_facts _ L)).
Qed.

Lemma normalizeChain_normal (H : Host) (s : jsstring) :
  hostKeepsNormalText H -> isNormalSegment s = true -> normalizeChain s = s.
Proof.
  intros K N. destruct (isNormalSegment_spec s N) as (F & S & _ & Wh & Wl).
  destruct (K s F) as (Lo & Nf).
  assert (T : trim s = s) by (now apply trim_fixed).
  unfold normalizeChain. rewrite T, Lo, Nf.
  rewrite (filter_all (fun c => negb (isCombiningMark c))).
  2:{ apply forallb_forall. intros c I. rewrite forallb_forall in F.
      destruct (isSegmentChar_facts c (F c I)) as (_ & M & _). now rewrite M. }
  rewrite (filter_all isCategoriaChar).
  2:{ apply forallb_forall. intros c I. rewrite forallb_forall in F.
      exact (proj1 (isSegmentChar_facts c (F c I))). }
  rewrite collapseSpaces_fixed by assumption. exact T.
Qed.

Lemma trimStart_fixed (s : jsstring) :
  s <> [] -> isWhiteSpace (hd (ch " ") s) = false -> trimStart s = s.
Proof.
  destruct s as [|c s]; [contradiction|]. cbn [hd trimStart]. now intros _ ->.
Qed.

Lemma trim_padded (pre post s : jsstring) :
  pre = [] \/ pre = js " " -> post = [] \/ post = js " " ->
  s <> [] -> isWhiteSpace (hd (ch " ") s) = false ->
  isWhiteSpace (last s (ch " ")) = false ->
  trim (pre ++ s ++ post) = s.
Proof.
  intros Pre Post N Wh Wl.
  assert (Ts : trimStart (pre ++ s ++ post) = s ++ post).
  { assert (T : trimStart (s ++ post) = s ++ post).
    { apply trimStart_fixed; [destruct s; [contradiction | discriminate]|].
      destruct s; [contradiction | exact Wh]. }
    destruct Pre as [->| ->]; [exact T|].
    change (js " " ++ s ++ post) with (ch " " :: (s ++ post)).
    cbn [trimStart]. change (isWhiteSpace (ch " ")) with true. cbv iota. exact T. }
  assert (Tr : trimStart (rev s) = rev s).
  { apply trimStart_fixed.
    - intros E. apply (f_equal (@rev _)) in E. rewrite rev_involutive in E.
      contradiction.
    - rewrite hd_rev_last. exact Wl. }
  unfold trim, trimEnd. rewrite Ts, rev_app_distr.
  destruct Post as [->| ->].
  - cbn [rev app]. rewrite Tr. apply rev_involutive.
  - change (rev (js " ") ++ rev s) with (ch " " :: rev s).
    cbn [trimStart]. change (isWhiteSpace (ch " ")) with true. cbv iota.
    rewrite Tr. apply rev_involutive.
Qed.

Lemma normalizeCategoria_padded (H : Host) (pre post s : jsstring) :
  hostKeepsNormalText H -> isNormalSegment s = true ->
  pre = [] \/ pre = js " " -> post = [] \/ post = js " " ->
  normalizeCategoria (pre ++ s ++ post) = s.
Proof.
  intros K N Pre Post.
  destruct (isNormalSegment_spec s N) as (_ & _ & Ne & Wh & Wl).
  pose proof (normalizeChain_normal H s K N) as C.
  assert (T : trim s = s) by (now apply trim_fixed).
  unfold normalizeCategoria.
  replace (isEmpty (pre ++ s ++ post)) with false.
  2:{ destruct pre; [destruct s; [contradiction | reflexivity] | reflexivity]. }
  unfold normalizeChain in *. rewrite trim_padded by assumption.
  rewrite <- T at 1. exact C.
Qed.

Lemma pieces_of_joined_path (H : Host) (path : list jsstring) : forall pre,
  hostKeepsNormalText H -> path <> [] ->
  forallb isNormalSegment path = true ->
  pre = [] \/ pre = js " " ->
  filter (fun parte => (0 <? length parte)%nat)
    (map normalizeCategoria (splitOn isPathSeparator (pre ++ keyOf path)))
  = path.
Proof.
  induction path as [|s path IH]; intros pre K Np F Pre; [contradiction|].
  cbn [forallb] in F. apply andb_true_iff in F as [Ns F].
  destruct (isNormalSegment_spec s Ns) as (Fs & _ & Ne & _).
  assert (Free : forall post, post = [] \/ post = js " " ->
            forallb (fun x => negb (isPathSeparator x)) (pre ++ s ++ post) = true).
  { intros post Post. rewrite !forallb_app.
    assert (Fsep : forallb (fun x => negb (isPathSeparator x)) s = true).
    { apply forallb_forall. intros c I. rewrite forallb_forall in Fs.
      destruct (isSegmentChar_facts c (Fs c I)) as (_ & _ & P & _). now rewrite P. }
    rewrite Fsep. destruct Pre as [->| ->], Post as [->| ->]; reflexivity. }
  assert (Keep : (0 <? length s)%nat = true)
    by (destruct s; [contradiction | reflexivity]).
  destruct path as [|q path].
  - change (keyOf [s]) with s.
    pose proof (Free [] (or_introl eq_refl)) as Fr. rewrite app_nil_r in Fr.
    rewrite splitOn_no_separator by exact Fr. cbn [map filter].
    pose proof (normalizeCategoria_padded H pre [] s K Ns Pre (or_introl eq_refl)) as E.
    rewrite app_nil_r in E. rewrite E, Keep. reflexivity.
  - rewrite keyOf_cons2.
    change (js " > " ++ keyOf (q :: path))
      with (js " " ++ ch ">" :: (js " " ++ keyOf (q :: path))).
    replace (pre ++ s ++ js " " ++ ch ">" :: js " " ++ keyOf (q :: path))
      with ((pre ++ s ++ js " ") ++ ch ">" :: (js " " ++ keyOf (q :: path)))
      by (now rewrite <- !app_assoc).
    rewrite splitOn_app; [|apply Free; now right | reflexivity].
    cbn [map filter].
    rewrite (normalizeCategoria_padded H pre (js " ") s K Ns Pre (or_intror eq_refl)).
    rewrite Keep.
    rewrite (IH (js " ") K ltac:(discriminate) F (or_intror eq_refl)).
    reflexivity.
Qed.

Lemma parseCategoriaPath_normal (H : Host) (categoria s : jsstring) :
  In s (parseCategoriaPath categoria) -> isNormalSegment s = true.
Proof.
  unfold parseCategoriaPath.
  destruct (isEmpty categoria); [intros [<-|[]]; reflexivity|].
  match goal with
  | |- context [if (0 <? length ?p)%nat then _ else _] => set (partes := p)
  end.
  destruct (0 <? length partes)%nat; [|intros [<-|[]]; reflexivity].
  subst partes. intros I.
  apply filter_In in I as [I L]. apply in_map_iff in I as (piece & <- & _).
  unfold normalizeCategoria in *.
  destruct (isEmpty piece); [reflexivity|].
  unfold normalizeChain in *. apply normalized_segment.
  intros A. rewrite A in L. discriminate L.
Qed.

Lemma parse_of_joined_path (H : Host) (path : list jsstring) :
  hostKeepsNormalText H -> path <> [] ->
  forallb isNormalSegment path = true ->
  parseCategoriaPath (keyOf path) = path.
Proof.
  intros K Np F.
  pose proof (pieces_of_joined_path H path [] K Np F (or_introl eq_refl)) as E.
  cbn [app] in E. unfold parseCategoriaPath. rewrite E.
  replace (isEmpty (keyOf path)) with false.
  - destruct path; [contradiction | reflexivity].
  - destruct path as [|s [|q path]]; [contradiction| |].
    + cbn [forallb] in F. apply andb_true_iff in F as [Ns _].
      destruct (isNormalSegment_spec s Ns) as (_ & _ & Ne & _).
      change (keyOf [s]) with s. destruct s; [contradiction | reflexivity].
    + rewrite keyOf_cons2. destruct s; reflexivity.
Qed.

Lemma hostLatin1_keeps_normal_text : hostKeepsNormalText hostLatin1.
Proof.
  intros s F. cbn [toLowerCase normalizeNFD hostLatin1].
  induction s as [|c s IH]; [split; reflexivity|].
  cbn [forallb] in F. apply andb_true_iff in F as [Fc F].
  destruct (IH F) as (Lo & Nf). cbn [map flat_map]. rewrite Lo, Nf.
  pose proof (isSegmentChar_cases c Fc) as R.
  assert (L : lowerLatin1 c = c).
  { unfold lowerLatin1.
    replace (N.leb 65 c && N.leb c 90) with false
      by (symmetry; destruct R as [R|[R|R]]; outside_ranges).
    replace (N.leb 192 c && N.leb c 222 && negb (N.eqb c 215)) with false;
      [reflexivity|].
    symmetry. apply andb_false_iff. left. outside_ranges. }
  assert (D : nfdLatin1 c = [c]).
  { unfold nfdLatin1.
    replace (N.leb 192 c && N.leb c 223) with false by (symmetry; outside_ranges).
    replace (N.leb 224 c && N.leb c 254) with false by (symmetry; outside_ranges).
    replace (N.eqb c 255) with false by (symmetry; outside_ranges).
    reflexivity. }
  rewrite L, D. split; reflexivity.
Qed.

(** X26.  On a host whose lower case and NFD leave letters [a-z], digits
    and spaces as they are, a path of segments in normal form, joined by
    [" > "] as the keys of the aggregation are, parses back to itself; so
    the path that [parseCategoriaPath] gives to any input, joined and
    parsed again, is that same path. *)
Theorem joined_path_parses_back (H : Host) (categoria : jsstring)
    (path : list jsstring) :
  hostKeepsNormalText H -> path <> [] ->
  forallb isNormalSegment path = true ->
  parseCategoriaPath (keyOf path) = path
  /\ parseCategoriaPath (keyOf (parseCategoriaPath categoria))
     = parseCategoriaPath categoria.
Proof.
  intros K Np F. split; [now apply parse_of_joined_path|].
  apply parse_of_joined_path; [exact K | |].
  - destruct (parseCategoriaPath_wellFormed H categoria) as (L & _).
    intros E. rewrite E in L. cbn in L. lia.
  - apply forallb_forall. intros s I. exact (parseCategoriaPath_normal H categoria s I).
Qed.

Lemma joined_path_parses_back_witness :
  @parseCategoriaPath hostLatin1 (js "transporte > apps > uber")
  = [js "transporte"; js "apps"; js "uber"]
  /\ @parseCategoriaPath hostLatin1
       (keyOf (@parseCategoriaPath hostLatin1 (js "Casa / Luz : 2024")))
     = @parseCategoriaPath hostLatin1 (js "Casa / Luz : 2024").
Proof.
  apply (joined_path_parses_back hostLatin1 (js "Casa / Luz : 2024")
           [js "transporte"; js "apps"; js "uber"]).
  - exact hostLatin1_keeps_normal_text.
  - discriminate.
  - reflexivity.
Defined.

(* ================================================================= *)
(** ** The sums of the host within the safe integers

    Where the amounts are not negative and their totals are safe
    integers, no addition of the aggregation is rounded: the aggregation
    with the numbers of the host is the aggregation in the integers. *)

Lemma roundToDouble_exact (z : Z) : Z.abs z <= 2 ^ 53 -> roundToDouble z = z.
Proof.
  intros B. unfold roundToDouble.
  replace (Z.abs z <=? 2 ^ 53) with true by (symmetry; apply Z.leb_le; exact B).
  reflexivity.
Qed.

Lemma numAdd_exact (a b : Z) :
  0 <= a -> 0 <= b -> a + b <= maxSafeInteger -> numAdd a b = a + b.
Proof.
  intros A B S. apply roundToDouble_exact. unfold maxSafeInteger in S. lia.
Qed.

Lemma numSub_exact (a b : Z) :
  0 <= a <= maxSafeInteger -> 0 <= b <= maxSafeInteger -> numSub a b = a - b.
Proof.
  intros A B. apply roundToDouble_exact. unfold maxSafeInteger in *. lia.
Qed.

Lemma safeAmounts_spec (ts : list TransactionData) :
  safeAmounts ts = true ->
  (forall t, In t ts -> 0 <= t_valorCentavos t)
  /\ sumZ (map (valorOf entrada) ts) <= maxSafeInteger
  /\ sumZ (map (valorOf saida) ts) <= maxSafeInteger.
Proof.
  unfold safeAmounts. intros S.
  apply andb_true_iff in S as [S Ss]. apply andb_true_iff in S as [F Se].
  apply Z.leb_le in Se, Ss. rewrite forallb_forall in F.
  repeat split; try assumption. intros t I. apply Z.leb_le. now apply F.
Qed.

Lemma valorOf_bounds (kind : TipoCategoria) (t : TransactionData) :
  0 <= t_valorCentavos t -> 0 <= valorOf kind t <= t_valorCentavos t.
Proof. unfold valorOf. destruct kind, (t_tipo t); lia. Qed.

Lemma sum_valorOf_nonneg (kind : TipoCategoria) (ts : list TransactionData) :
  (forall t, In t ts -> 0 <= t_valorCentavos t) ->
  0 <= sumZ (map (valorOf kind) ts).
Proof.
  induction ts as [|t ts IH]; intros N; cbn [map sumZ fold_right]; [lia|].
  pose proof (valorOf_bounds kind t (N t (or_introl eq_refl))).
  assert (0 <= sumZ (map (valorOf kind) ts)) by (apply IH; intros x I; apply N; now right).
  unfold sumZ in *. lia.
Qed.

Lemma totals_exact (l : list TransactionData) : forall acc,
  0 <= acc -> (forall t, In t l -> 0 <= t_valorCentavos t) ->
  acc + sumZ (map t_valorCentavos l) <= maxSafeInteger ->
  fold_left (fun sum t => numAdd sum (t_valorCentavos t)) l acc
  = fold_left (fun sum t => sum + t_valorCentavos t) l acc.
Proof.
  induction l as [|t l IH]; intros acc A N B; [reflexivity|].
  cbn [fold_left]. cbn [map sumZ fold_right] in B.
  assert (0 <= t_valorCentavos t) by (apply N; now left).
  assert (0 <= sumZ (map t_valorCentavos l)).
  { clear -N. induction l as [|x l IH]; cbn [map sumZ fold_right]; [lia|].
    assert (0 <= t_valorCentavos x) by (apply N; right; now left).
    assert (0 <= sumZ (map t_valorCentavos l)).
    { apply IH. intros y [E|I]; apply N; [now left | right; now right]. }
    unfold sumZ in *. lia. }
  unfold sumZ in *.
  rewrite numAdd_exact by lia.
  apply IH; [lia | intros x I; apply N; now right | unfold sumZ; lia].
Qed.

Lemma join_app (sep : jsstring) (a b : list jsstring) :
  a <> [] -> b <> [] -> join sep (a ++ b) = join sep a ++ sep ++ join sep b.
Proof.
  induction a as [|x a IH]; intros Na Nb; [contradiction|].
  destruct a as [|y a].
  - destruct b as [|z b]; [contradiction | reflexivity].
  - change (join sep ((x :: y :: a) ++ b))
      with (x ++ sep ++ join sep ((y :: a) ++ b)).
    rewrite IH by (discriminate || assumption).
    change (join sep (x :: y :: a)) with (x ++ sep ++ join sep (y :: a)).
    now rewrite <- !app_assoc.
Qed.

Lemma firstn_more {A : Type} (a b : nat) (l : list A) :
  firstn (a + b) l = firstn a l ++ firstn b (skipn a l).
Proof.
  revert l; induction a as [|a IH]; intros l; [reflexivity|].
  destruct l as [|x l]; cbn [Nat.add firstn skipn app].
  - now rewrite firstn_nil.
  - now rewrite IH.
Qed.

Lemma key_length_increasing (p : list jsstring) (i j : nat) :
  (i < j)%nat -> (j < length p)%nat ->
  (length (keyOf (firstn (i + 1) p)) < length (keyOf (firstn (j + 1) p)))%nat.
Proof.
  intros Lt Lj. unfold keyOf.
  replace (j + 1)%nat with ((i + 1) + (j - i))%nat by lia.
  rewrite (firstn_more (i + 1) (j - i)), join_app.
  - rewrite !length_app. change (length (js " > ")) with 3%nat. lia.
  - intros E. apply (f_equal (@length _)) in E. rewrite length_firstn in E.
    cbn [length] in E. lia.
  - intros E. apply (f_equal (@length _)) in E.
    rewrite length_firstn, length_skipn in E. cbn [length] in E. lia.
Qed.

Lemma filter_at_most_one (f : nat -> bool) (l : list nat) :
  NoDup l ->
  (forall i j, In i l -> In j l -> f i = true -> f j = true -> i = j) ->
  (length (filter f l) <= 1)%nat.
Proof.
  induction l as [|x l IH]; intros ND U; [cbn; lia|].
  inversion ND as [|? ? Nx ND']; subst. cbn [filter].
  destruct (f x) eqn:Fx.
  - assert (E : filter f l = []).
    { destruct (filter f l) as [|y r] eqn:Ey; [reflexivity|]. exfalso.
      assert (Iy : In y (filter f l)) by (rewrite Ey; now left).
      apply filter_In in Iy as [Iy Fy].
      assert (x = y) by (apply U; [now left | now right | exact Fx | exact Fy]).
      subst y. contradiction. }
    rewrite E. cbn. lia.
  - apply IH; [exact ND'|]. intros i j Ii Ij. apply U; now right.
Qed.

Lemma levelsAt_bounds (k : jsstring) (t : TransactionData) : 0 <= levelsAt k t <= 1.
Proof.
  unfold levelsAt. split; [lia|].
  apply (Nat2Z.inj_le _ 1). apply filter_at_most_one; [apply seq_NoDup|].
  intros i j Ii Ij Fi Fj. apply in_seq in Ii, Ij.
  apply String_eqb_eq in Fi, Fj.
  destruct (Nat.lt_trichotomy i j) as [L|[E|L]]; [|exact E|]; exfalso.
  - pose proof (key_length_increasing (t_categoriaPath t) i j L ltac:(lia)) as K.
    rewrite <- Fi, <- Fj in K. lia.
  - pose proof (key_length_increasing (t_categoriaPath t) j i L ltac:(lia)) as K.
    rewrite <- Fi, <- Fj in K. lia.
Qed.

Lemma amountAt_bounds (kind : TipoCategoria) (ts : list TransactionData) (k : jsstring) :
  (forall t, In t ts -> 0 <= t_valorCentavos t) ->
  0 <= amountAt kind (buildCategoryMap ts) k <= sumZ (map (valorOf kind) ts).
Proof.
  intros N. rewrite amountAt_buildCategoryMap.
  induction ts as [|t ts IH]; cbn [map sumZ fold_right]; [lia|].
  pose proof (valorOf_bounds kind t (N t (or_introl eq_refl))).
  pose proof (levelsAt_bounds k t).
  assert (B : 0 <= sumZ (map (fun t => valorOf kind t * levelsAt k t) ts)
              <= sumZ (map (valorOf kind) ts))
    by (apply IH; intros x I; apply N; now right).
  unfold sumZ in *. nia.
Qed.

Lemma addLevel_exact (t : TransactionData) (m : list (jsstring * CategoryAcc))
    (i : nat) :
  0 <= t_valorCentavos t ->
  (forall kind,
     0 <= amountAt kind m (keyOf (firstn (i + 1) (t_categoriaPath t)))
     /\ amountAt kind m (keyOf (firstn (i + 1) (t_categoriaPath t)))
        + valorOf kind t <= maxSafeInteger) ->
  Num.addLevel t m i = addLevel t m i.
Proof.
  intros V B.
  pose proof (B entrada) as (Pe & Be). pose proof (B saida) as (Ps & Bs).
  unfold amountAt, amountOf, valorOf, keyOf in Pe, Be, Ps, Bs.
  unfold Num.addLevel, addLevel.
  destruct (map_get (join (js " > ") (firstn (i + 1) (t_categoriaPath t))) m) as [e|];
    destruct (t_tipo t); cbn [a_entrada a_saida] in *;
    rewrite numAdd_exact by lia; reflexivity.
Qed.

Lemma amountAt_levels_mono (kind : TipoCategoria) (t : TransactionData)
    (k : jsstring) (l : list nat) : forall m,
  0 <= t_valorCentavos t ->
  amountAt kind m k <= amountAt kind (fold_left (addLevel t) l m) k.
Proof.
  induction l as [|i l IH]; intros m V; cbn [fold_left]; [lia|].
  specialize (IH (addLevel t m i) V). rewrite amountAt_addLevel in IH.
  pose proof (valorOf_bounds kind t V).
  destruct (String_eqb k (keyOf (firstn (i + 1) (t_categoriaPath t)))); lia.
Qed.

Lemma levels_exact (t : TransactionData) (m : list (jsstring * CategoryAcc)) :
  0 <= t_valorCentavos t ->
  (forall kind k, 0 <= amountAt kind m k) ->
  (forall kind k, amountAt kind (addTransaction m t) k <= maxSafeInteger) ->
  forall i, (i <= length (t_categoriaPath t))%nat ->
    fold_left (Num.addLevel t) (seq 0 i) m = fold_left (addLevel t) (seq 0 i) m.
Proof.
  intros V P B. induction i as [|i IH]; intros L; [reflexivity|].
  rewrite seq_S, !fold_left_app, IH by lia. cbn [fold_left Nat.add].
  set (mi := fold_left (addLevel t) (seq 0 i) m).
  apply addLevel_exact; [exact V|]. intros kind.
  set (key := keyOf (firstn (i + 1) (t_categoriaPath t))).
  pose proof (amountAt_levels_mono kind t key (seq 0 i) m V) as M1. fold mi in M1.
  split; [specialize (P kind key); lia|].
  assert (E : addTransaction m t
              = fold_left (addLevel t) (seq (S i) (length (t_categoriaPath t) - S i))
                  (addLevel t mi i)).
  { unfold addTransaction, mi.
    replace (length (t_categoriaPath t))
      with (S i + (length (t_categoriaPath t) - S i))%nat at 1 by lia.
    rewrite seq_app, seq_S, !fold_left_app. reflexivity. }
  pose proof (amountAt_levels_mono kind t key
                (seq (S i) (length (t_categoriaPath t) - S i)) (addLevel t mi i) V) as M2.
  rewrite <- E in M2. rewrite amountAt_addLevel in M2. fold key in M2.
  rewrite String_eqb_refl in M2. specialize (B kind key). lia.
Qed.

Lemma addTransaction_exact (t : TransactionData) (m : list (jsstring * CategoryAcc)) :
  0 <= t_valorCentavos t ->
  (forall kind k, 0 <= amountAt kind m k) ->
  (forall kind k, amountAt kind (addTransaction m t) k <= maxSafeInteger) ->
  Num.addTransaction m t = addTransaction m t.
Proof.
  intros V P B. unfold Num.addTransaction, addTransaction.
  apply levels_exact; try assumption. apply le_n.
Qed.

Lemma buildCategoryMap_exact (ts : list TransactionData) :
  (forall t, In t ts -> 0 <= t_valorCentavos t) ->
  sumZ (map (valorOf entrada) ts) <= maxSafeInteger ->
  sumZ (map (valorOf saida) ts) <= maxSafeInteger ->
  Num.buildCategoryMap ts = buildCategoryMap ts.
Proof.
  induction ts as [|t ts IH] using rev_ind; intros N Be Bs; [reflexivity|].
  assert (Nt : 0 <= t_valorCentavos t) by (apply N, in_or_app; right; now left).
  assert (Nts : forall x, In x ts -> 0 <= t_valorCentavos x)
    by (intros x I; apply N, in_or_app; now left).
  rewrite !map_app, !sumZ_app in Be, Bs. cbn [map sumZ fold_right] in Be, Bs.
  pose proof (valorOf_bounds entrada t Nt). pose proof (valorOf_bounds saida t Nt).
  unfold Num.buildCategoryMap, buildCategoryMap in *.
  rewrite !fold_left_app. cbn [fold_left].
  rewrite IH by (assumption || lia).
  apply addTransaction_exact; [exact Nt | |].
  - intros kind k. exact (proj1 (amountAt_bounds kind ts k Nts)).
  - intros kind k.
    pose proof (amountAt_bounds kind (ts ++ [t]) k N) as (_ & U).
    unfold buildCategoryMap in U. rewrite fold_left_app in U. cbn [fold_left] in U.
    rewrite map_app, sumZ_app in U. cbn [map sumZ fold_right] in U.
    destruct kind; lia.
Qed.

Lemma addToMonth_amounts_nonNegative (m : list (jsstring * MonthAcc))
    (t : TransactionData) :
  Forall (fun kv => 0 <= ma_entradas (snd kv) /\ 0 <= ma_saidas (snd kv)) m ->
  0 <= t_valorCentavos t ->
  Forall (fun kv => 0 <= ma_entradas (snd kv) /\ 0 <= ma_saidas (snd kv))
    (addToMonth m t).
Proof.
  intros P V. unfold addToMonth. apply Forall_map_set; [exact P|].
  set (existing := match map_get (substring0 7 (t_data t)) m with
                   | Some e => e
                   | None => {| ma_entradas := 0; ma_saidas := 0; ma_count := 0 |}
                   end).
  assert (E : 0 <= ma_entradas existing /\ 0 <= ma_saidas existing).
  { subst existing. destruct (map_get _ m) as [e|] eqn:G; [|simpl; lia].
    apply map_get_In in G. rewrite Forall_forall in P. exact (P _ G). }
  clearbody existing. destruct (t_tipo t); cbn [snd ma_entradas ma_saidas]; lia.
Qed.

Lemma entry_le_sumValues {V : Type} (f : V -> Z) (m : list (jsstring * V))
    (k : jsstring) (e : V) :
  Forall (fun kv => 0 <= f (snd kv)) m -> In (k, e) m ->
  0 <= f e <= sumValues f m.
Proof.
  unfold sumValues. induction m as [|[k' v'] m IH]; intros P I; [destruct I|].
  inversion P as [|? ? Pv Pm]; subst. cbn [snd] in Pv.
  assert (S : 0 <= sumZ (map (fun kv => f (snd kv)) m)).
  { clear -Pm. induction Pm as [|x l Px Pl IHl]; cbn [map sumZ fold_right]; [lia|].
    unfold sumZ in *. lia. }
  cbn [map sumZ fold_right snd]. destruct I as [E|I].
  - injection E as -> ->. unfold sumZ in *. lia.
  - specialize (IH Pm I). unfold sumZ in *. lia.
Qed.

Lemma month_amounts_nonNegative (m : list (jsstring * MonthAcc)) :
  Forall (fun kv => 0 <= ma_entradas (snd kv) /\ 0 <= ma_saidas (snd kv)) m ->
  Forall (fun kv => 0 <= ma_entradas (snd kv)) m
  /\ Forall (fun kv => 0 <= ma_saidas (snd kv)) m.
Proof.
  rewrite !Forall_forall. intros P. split; intros kv I; apply (P kv I).
Qed.

Lemma addToMonth_exact (m : list (jsstring * MonthAcc)) (t : TransactionData) :
  Forall (fun kv => 0 <= ma_entradas (snd kv) /\ 0 <= ma_saidas (snd kv)) m ->
  0 <= t_valorCentavos t ->
  sumValues ma_entradas m + valorOf entrada t <= maxSafeInteger ->
  sumValues ma_saidas m + valorOf saida t <= maxSafeInteger ->
  Num.addToMonth m t = addToMonth m t.
Proof.
  intros P V Be Bs. unfold Num.addToMonth, addToMonth.
  destruct (month_amounts_nonNegative m P) as (Pe & Ps).
  unfold valorOf in Be, Bs.
  destruct (map_get (substring0 7 (t_data t)) m) as [e|] eqn:G.
  - apply map_get_In in G.
    pose proof (entry_le_sumValues ma_entradas m _ e Pe G).
    pose proof (entry_le_sumValues ma_saidas m _ e Ps G).
    destruct (t_tipo t); rewrite numAdd_exact by lia; reflexivity.
  - assert (0 <= sumValues ma_entradas m /\ 0 <= sumValues ma_saidas m).
    { clear -Pe Ps. unfold sumValues. split.
      - induction Pe as [|x l Px Pl IHl]; cbn [map sumZ fold_right]; [lia|].
        inversion Ps; subst. specialize (IHl ltac:(assumption)).
        unfold sumZ in *. lia.
      - induction Ps as [|x l Px Pl IHl]; cbn [map sumZ fold_right]; [lia|].
        inversion Pe; subst. specialize (IHl ltac:(assumption)).
        unfold sumZ in *. lia. }
    destruct (t_tipo t); cbn [ma_entradas ma_saidas];
      rewrite numAdd_exact by lia; reflexivity.
Qed.

Lemma monthMap_exact (ts : list TransactionData) : forall m,
  Forall (fun kv => 0 <= ma_entradas (snd kv) /\ 0 <= ma_saidas (snd kv)) m ->
  (forall t, In t ts -> 0 <= t_valorCentavos t) ->
  sumValues ma_entradas m + sumZ (map (valorOf entrada) ts) <= maxSafeInteger ->
  sumValues ma_saidas m + sumZ (map (valorOf saida) ts) <= maxSafeInteger ->
  fold_left Num.addToMonth ts m = fold_left addToMonth ts m
  /\ Forall (fun kv => 0 <= ma_entradas (snd kv) /\ 0 <= ma_saidas (snd kv))
       (fold_left addToMonth ts m).
Proof.
  induction ts as [|t ts IH]; intros m P N Be Bs; [split; [reflexivity | exact P]|].
  cbn [fold_left]. cbn [map sumZ fold_right] in Be, Bs.
  assert (Nt : 0 <= t_valorCentavos t) by (apply N; now left).
  assert (Nts : forall x, In x ts -> 0 <= t_valorCentavos x)
    by (intros x I; apply N; now right).
  pose proof (sum_valorOf_nonneg entrada ts Nts).
  pose proof (sum_valorOf_nonneg saida ts Nts).
  pose proof (valorOf_bounds entrada t Nt). pose proof (valorOf_bounds saida t Nt).
  unfold sumZ in *.
  rewrite addToMonth_exact by (assumption || lia).
  destruct (sumValues_addToMonth m t) as (Se & Ss & _).
  apply IH; [now apply addToMonth_amounts_nonNegative | exact Nts | |];
    unfold sumZ; lia.
Qed.

Lemma toMonthlyAggregate_exact (m : list (jsstring * MonthAcc)) :
  Forall (fun kv => 0 <= ma_entradas (snd kv) /\ 0 <= ma_saidas (snd kv)) m ->
  sumValues ma_entradas m <= maxSafeInteger ->
  sumValues ma_saidas m <= maxSafeInteger ->
  map Num.toMonthlyAggregate m = map toMonthlyAggregate m.
Proof.
  intros P Be Bs. apply map_ext_in. intros [k e] I.
  destruct (month_amounts_nonNegative m P) as (Pe & Ps).
  pose proof (entry_le_sumValues ma_entradas m k e Pe I).
  pose proof (entry_le_sumValues ma_saidas m k e Ps I).
  unfold Num.toMonthlyAggregate, toMonthlyAggregate.
  rewrite numSub_exact by lia. reflexivity.
Qed.

(** Within the safe integers the aggregation with the numbers of the host
    is the aggregation in the integers. *)
Lemma aggregateTransactions_exact (H : Host) (ts : list TransactionData) :
  safeAmounts ts = true ->
  Num.aggregateTransactions ts = aggregateTransactions ts.
Proof.
  intros S. destruct (safeAmounts_spec ts S) as (N & Be & Bs).
  destruct (total_of_kind ts) as [TE TS].
  assert (Ee : fold_left (fun sum t => numAdd sum (t_valorCentavos t))
                 (filter isEntrada ts) 0
               = fold_left (fun sum t => sum + t_valorCentavos t)
                   (filter isEntrada ts) 0).
  { apply totals_exact; [lia | intros t I; apply filter_In in I; now apply N|].
    rewrite <- (fold_left_sum t_valorCentavos), TE. exact Be. }
  assert (Es : fold_left (fun sum t => numAdd sum (t_valorCentavos t))
                 (filter isSaida ts) 0
               = fold_left (fun sum t => sum + t_valorCentavos t)
                   (filter isSaida ts) 0).
  { apply totals_exact; [lia | intros t I; apply filter_In in I; now apply N|].
    rewrite <- (fold_left_sum t_valorCentavos), TS. exact Bs. }
  assert (Ec : Num.buildCategoryMap ts = buildCategoryMap ts)
    by (now apply buildCategoryMap_exact).
  pose proof (sum_valorOf_nonneg entrada ts N) as Pe.
  pose proof (sum_valorOf_nonneg saida ts N) as Ps.
  assert (Z0 : sumValues ma_entradas (@nil (jsstring * MonthAcc)) = 0
               /\ sumValues ma_saidas (@nil (jsstring * MonthAcc)) = 0)
    by (split; reflexivity).
  destruct Z0 as (Ze & Zs).
  destruct (monthMap_exact ts [] (Forall_nil _) N) as (Em & Pm);
    [rewrite Ze; lia | rewrite Zs; lia|].
  destruct (sumValues_monthMap ts []) as (Sme & Sms & _).
  assert (Et : map Num.toMonthlyAggregate (fold_left addToMonth ts [])
               = map toMonthlyAggregate (fold_left addToMonth ts [])).
  { apply toMonthlyAggregate_exact; [exact Pm | |].
    - rewrite Sme, Ze. lia.
    - rewrite Sms, Zs. lia. }
  unfold Num.aggregateTransactions, aggregateTransactions.
  unfold Num.aggregateByCategory, aggregateByCategory.
  unfold Num.aggregateByMonth, aggregateByMonth.
  rewrite Ee, Es, Ec, Em, Et.
  rewrite numSub_exact; [reflexivity | |]; rewrite ?TE, ?TS; lia.
Qed.

Lemma safeAmounts_intro (ts : list TransactionData) :
  (forall t, In t ts -> 0 <= t_valorCentavos t) ->
  sumZ (map (valorOf entrada) ts) <= maxSafeInteger ->
  sumZ (map (valorOf saida) ts) <= maxSafeInteger ->
  safeAmounts ts = true.
Proof.
  intros N Be Bs. unfold safeAmounts.
  apply andb_true_iff. split; [apply andb_true_iff; split|].
  - apply forallb_forall. intros t I. apply Z.leb_le. now apply N.
  - now apply Z.leb_le.
  - now apply Z.leb_le.
Qed.

Lemma safeAmounts_perm (ts ts' : list TransactionData) :
  Permutation ts ts' -> safeAmounts ts = true -> safeAmounts ts' = true.
Proof.
  intros P S. destruct (safeAmounts_spec ts S) as (N & Be & Bs).
  apply safeAmounts_intro.
  - intros t I. apply N. apply Permutation_in with (l := ts'); [now symmetry | exact I].
  - rewrite <- (sumZ_perm _ _ (Permutation_map (valorOf entrada) P)). exact Be.
  - rewrite <- (sumZ_perm _ _ (Permutation_map (valorOf saida) P)). exact Bs.
Qed.

(** Above the safe integers the additions of the host round, and the
    total depends on the order of the amounts. *)
Example total_depends_on_order_above_safe_integers :
  r_totalSaidasCentavos
    (@Num.aggregateTransactions hostLatin1
       [saidaEm 1 1 [js "a"] (js "2024-01-10");
        saidaEm 2 1 [js "a"] (js "2024-01-20");
        saidaEm 3 (2 ^ 53) [js "b"] (js "2024-02-10")]) = 2 ^ 53 + 2
  /\ r_totalSaidasCentavos (@Num.aggregateTransactions hostLatin1 transacoesGrandes)
     = 2 ^ 53.
Proof. split; reflexivity. Qed.

(** C5 (the claim as stated fails).  The claim: for every list of
    transactions the totals of the depth-1 entries of a kind add up to the
    grand total of that kind, exactly.  The amounts are doubles: with
    outflows of 1, [2 ^ 53] and 1 centavos, under the paths [a], [b] and
    [a], the grand total is rounded twice to [2 ^ 53] while the entries
    hold 2 and [2 ^ 53]. *)
Lemma depth1_totals_round_apart :
  forallb isWellFormed transacoesGrandes = true
  /\ r_totalSaidasCentavos (@Num.aggregateTransactions hostLatin1 transacoesGrandes)
     = 2 ^ 53
  /\ map c_totalCentavos
       (r_categorias (@Num.aggregateTransactions hostLatin1 transacoesGrandes))
     = [2 ^ 53; 2]
  /\ sumDepth1 saida
       (r_categorias (@Num.aggregateTransactions hostLatin1 transacoesGrandes))
     <> r_totalSaidasCentavos (@Num.aggregateTransactions hostLatin1 transacoesGrandes).
Proof.
  split; [reflexivity|]. split; [reflexivity|]. split; [reflexivity|].
  vm_compute. discriminate.
Qed.

(** C5, amended.  For transactions that satisfy the invariants of the data
    model (an amount that is not negative, a path of at least one segment,
    segments without the character of the separator) and whose totals of
    each kind are safe integers, the totals of the entries of one kind
    whose path has a single segment add up to the grand total of that
    kind, as the host computes them. *)
Theorem depth1_totals_reconcile (H : Host) (transactions : list TransactionData) :
  forallb isWellFormed transactions = true ->
  safeAmounts transactions = true ->
  let r := Num.aggregateTransactions transactions in
  sumDepth1 entrada (r_categorias r) = r_totalEntradasCentavos r
  /\ sumDepth1 saida (r_categorias r) = r_totalSaidasCentavos r.
Proof.
  intros W S r. subst r. rewrite (aggregateTransactions_exact H transactions S).
  exact (depth1_totals_in_the_integers H transactions W).
Qed.

Lemma depth1_totals_reconcile_witness :
  forallb isWellFormed transacoesTeste = true
  /\ safeAmounts transacoesTeste = true
  /\ sumDepth1 entrada
       (r_categorias (@Num.aggregateTransactions hostLatin1 transacoesTeste))
     = 500000
  /\ sumDepth1 saida
       (r_categorias (@Num.aggregateTransactions hostLatin1 transacoesTeste))
     = 122500.
Proof.
  split; [reflexivity|]. split; [reflexivity|].
  apply (depth1_totals_reconcile hostLatin1 transacoesTeste); reflexivity.
Defined.

(** X6.  Where the amounts are not negative and the totals of each kind
    are safe integers, the months of the result, as the host computes
    them, reconcile with its totals: the inflows of the months add up to
    [totalEntradasCentavos], the outflows to [totalSaidasCentavos], the
    counts to the number of transactions, and the balance of each month is
    its inflow less its outflow. *)
Theorem months_reconcile_with_totals (H : Host) (transactions : list TransactionData) :
  safeAmounts transactions = true ->
  let r := Num.aggregateTransactions transactions in
  sumZ (map m_entradasCentavos (r_meses r)) = r_totalEntradasCentavos r
  /\ sumZ (map m_saidasCentavos (r_meses r)) = r_totalSaidasCentavos r
  /\ sumZ (map m_transactionCount (r_meses r)) = Z.of_nat (length transactions)
  /\ Forall (fun m => m_saldoCentavos m = m_entradasCentavos m - m_saidasCentavos m)
       (r_meses r).
Proof.
  intros S r. subst r. rewrite (aggregateTransactions_exact H transactions S).
  exact (months_reconcile_in_the_integers H transactions).
Qed.

Lemma months_reconcile_with_totals_witness :
  safeAmounts transacoesTeste = true
  /\ sumZ (map m_saidasCentavos
             (r_meses (@Num.aggregateTransactions hostLatin1 transacoesTeste)))
     = r_totalSaidasCentavos (@Num.aggregateTransactions hostLatin1 transacoesTeste).
Proof.
  split; [reflexivity|].
  apply (months_reconcile_with_totals hostLatin1 transacoesTeste). reflexivity.
Defined.

(** X24.  When no segment holds the character of the separator, the
    amounts are not negative and the totals of each kind are safe
    integers, the result, as the host computes it, does not depend on the
    order of the transactions: the totals and the balance are the same,
    and [categorias] holds the same entries, equal field by field.
    (Entries with equal totals may come in another order.) *)
Theorem aggregation_independent_of_order (H : Host)
    (transactions transactions' : list TransactionData) :
  forallb segmentsOk transactions = true ->
  safeAmounts transactions = true ->
  Permutation transactions transactions' ->
  let r := Num.aggregateTransactions transactions in
  let r' := Num.aggregateTransactions transactions' in
  r_totalEntradasCentavos r = r_totalEntradasCentavos r'
  /\ r_totalSaidasCentavos r = r_totalSaidasCentavos r'
  /\ r_saldoCentavos r = r_saldoCentavos r'
  /\ forall e, In e (r_categorias r) <-> In e (r_categorias r').
Proof.
  intros G S P r r'. subst r r'.
  rewrite (aggregateTransactions_exact H transactions S).
  rewrite (aggregateTransactions_exact H transactions' (safeAmounts_perm _ _ P S)).
  exact (order_independence_in_the_integers H transactions transactions' G P).
Qed.

Lemma aggregation_independent_of_order_witness :
  r_totalSaidasCentavos (@Num.aggregateTransactions hostLatin1 transacoesMistas)
  = r_totalSaidasCentavos (@Num.aggregateTransactions hostLatin1 (rev transacoesMistas))
  /\ In (entryOf saida [js "moradia"] transacoesMistas)
       (r_categorias (@Num.aggregateTransactions hostLatin1 transacoesMistas))
  /\ In (entryOf saida [js "moradia"] transacoesMistas)
       (r_categorias (@Num.aggregateTransactions hostLatin1 (rev transacoesMistas))).
Proof.
  pose proof (aggregation_independent_of_order hostLatin1 transacoesMistas
                (rev transacoesMistas) eq_refl eq_refl (Permutation_rev _)) as W.
  cbv zeta in W. destruct W as (_ & B & _ & D).
  assert (I : In (entryOf saida [js "moradia"] transacoesMistas)
                (r_categorias (@Num.aggregateTransactions hostLatin1 transacoesMistas)))
    by (vm_compute; left; reflexivity).
  split; [exact B|]. split; [exact I | apply D; exact I].
Defined.

(* ================================================================= *)
(** ** The count of the two entries of a prefix *)

Lemma valorWithPrefix_of_transaction (kind : TipoCategoria) (p : list jsstring)
    (ts : list TransactionData) (t : TransactionData) :
  (forall x, In x ts -> 0 <= t_valorCentavos x) ->
  In t ts -> isPrefixOf p (t_categoriaPath t) = true -> 0 < valorOf kind t ->
  0 < valorWithPrefix kind p ts.
Proof.
  unfold valorWithPrefix. intros N I E V.
  assert (P : forall l, (forall x, In x l -> 0 <= t_valorCentavos x) ->
            0 <= sumZ (map (fun x => if isPrefixOf p (t_categoriaPath x)
                                     then valorOf kind x else 0) l)).
  { induction l as [|x l IH]; intros Nl; cbn [map sumZ fold_right]; [lia|].
    pose proof (valorOf_bounds kind x (Nl x (or_introl eq_refl))).
    assert (0 <= sumZ (map (fun x => if isPrefixOf p (t_categoriaPath x)
                                     then valorOf kind x else 0) l))
      by (apply IH; intros y Iy; apply Nl; now right).
    unfold sumZ in *. destruct (isPrefixOf p (t_categoriaPath x)); lia. }
  induction ts as [|x ts IH]; [destruct I|].
  cbn [map sumZ fold_right].
  pose proof (valorOf_bounds kind x (N x (or_introl eq_refl))).
  assert (Pts := P ts (fun y Iy => N y (or_intror Iy))).
  destruct I as [->|I].
  - rewrite E. unfold sumZ in *. lia.
  - specialize (IH (fun y Iy => N y (or_intror Iy)) I).
    unfold sumZ in *. destruct (isPrefixOf p (t_categoriaPath x)); lia.
Qed.

(** C10.  When the segments of the paths do not contain the character of
    the separator, the count of an entry of [categorias] is the number of
    transactions, of both kinds together, whose path starts with the path
    of the entry; two entries with the same path, one of each kind, thus
    carry the same count.  And the entries are there: where the amounts
    are not negative, every prefix of the path of a transaction with a
    positive amount has its entry of the kind of that transaction, with
    that combined count. *)
Theorem transactionCount_counts_both_kinds (H : Host)
    (transactions : list TransactionData) :
  forallb segmentsOk transactions = true ->
  let categorias := r_categorias (aggregateTransactions transactions) in
  Forall (fun e => c_transactionCount e
                   = countWithPrefix (c_categoriaPath e) transactions) categorias
  /\ Forall (fun e1 =>
        Forall (fun e2 => c_categoriaPath e1 = c_categoriaPath e2 ->
                          c_transactionCount e1 = c_transactionCount e2) categorias)
       categorias
  /\ (forall kind t p,
        (forall x, In x transactions -> 0 <= t_valorCentavos x) ->
        In t transactions -> 0 < valorOf kind t ->
        p <> [] -> isPrefixOf p (t_categoriaPath t) = true ->
        exists e, In e categorias
                  /\ c_categoriaPath e = p /\ c_tipo e = kind
                  /\ c_transactionCount e = countWithPrefix p transactions).
Proof.
  intros S categorias.
  assert (G : Forall (fun e => c_transactionCount e
                   = countWithPrefix (c_categoriaPath e) transactions) categorias).
  { subst categorias. apply Forall_forall. intros e Ie.
    destruct (entry_is_entryOf H transactions e S Ie) as (_ & _ & E).
    rewrite E at 1. reflexivity. }
  split; [exact G|]. split.
  - rewrite Forall_forall in G.
    apply Forall_forall. intros e1 I1. apply Forall_forall. intros e2 I2 E.
    rewrite (G _ I1), (G _ I2), E. reflexivity.
  - intros kind t p N It V Np Ep.
    exists (entryOf kind p transactions). subst categorias.
    split; [|repeat split].
    apply entryOf_present; try assumption.
    now apply valorWithPrefix_of_transaction with (t := t).
Qed.

Lemma transactionCount_counts_both_kinds_witness :
  forallb segmentsOk transacoesMistas = true
  /\ exists e1 e2,
       In e1 (r_categorias (@aggregateTransactions hostLatin1 transacoesMistas))
       /\ In e2 (r_categorias (@aggregateTransactions hostLatin1 transacoesMistas))
       /\ c_categoriaPath e1 = [js "alimentacao"] /\ c_tipo e1 = entrada
       /\ c_categoriaPath e2 = [js "alimentacao"] /\ c_tipo e2 = saida
       /\ c_transactionCount e1 = 2 /\ c_transactionCount e2 = 2.
Proof.
  split; [reflexivity|].
  destruct (transactionCount_counts_both_kinds hostLatin1 transacoesMistas eq_refl)
    as (_ & _ & Ex).
  assert (N : forall x, In x transacoesMistas -> 0 <= t_valorCentavos x).
  { intros x [<-|[<-|[<-|[]]]]; vm_compute; discriminate. }
  destruct (Ex entrada (entradaEm 2 2000 [js "alimentacao"] (js "2024-01-16"))
              [js "alimentacao"] N) as (e1 & I1 & P1 & T1 & C1);
    [right; left; reflexivity | reflexivity | discriminate | reflexivity|].
  destruct (Ex saida (saidaEm 1 10000 [js "alimentacao"] (js "2024-01-15"))
              [js "alimentacao"] N) as (e2 & I2 & P2 & T2 & C2);
    [left; reflexivity | reflexivity | discriminate | reflexivity|].
  exists e1, e2. repeat split; assumption.
Defined.

(* ================================================================= *)
(** ** The builder of the API *)

(** C7 (the code fails the claim).  The builder of
    [api/services/financial-analyzer.ts] reads the amount with
    [parseFloat], which reads no number in ["(100,00)"], a refund written
    between parentheses: whatever the floating point of the host, the
    transaction gets the amount [NaN], which is not a number that is not
    negative, with the [tipo] [Saida].  The builder of
    [services/openai.ts] gives the same record the [tipo] [Entrada] and
    10000 centavos. *)
Theorem api_builder_amount_is_not_a_number (F : Api.Floats) :
  map (fun t => (Api.t_tipo t, Api.t_valorCentavos t))
    (@Api.convertToTransactionData hostLatin1 F [estornoEntreParenteses])
  = [(Saida, NaN)]
  /\ map (fun t => (t_tipo t, t_valorCentavos t))
       (@convertToTransactionData hostLatin1 [estornoEntreParenteses])
     = [(Entrada, 10000)].
Proof. split; reflexivity. Qed.
